(** * The B-tree verifier (bt_vrfy.c) and the column-store statistics
      walker (bt_stat.c)

    A shallow embedding of [src/btree/bt_vrfy.c] and of
    [__stat_page_col_var] from [src/btree/bt_stat.c].

    Conventions.
    - A C function [int f(session, args, vs)] becomes
      [f : args -> WT_VSTUFF -> Z * WT_VSTUFF]: the return code and the
      verifier state after the call.  [0] is success.
    - [uint32_t] and [uint64_t] values are [Z]; additions that can wrap are
      written with [wrap32] and [wrap64].
    - The error sink of the session ([__wt_errx]) and the progress sink
      ([__wt_progress]) are two lists carried next to the fields of
      [WT_VSTUFF].
    - Functions of the engine that are not part of these two files (page
      cache, scratch buffers, raw reads, the comparator) are fields of the
      records [WT_BTREE] and [WT_ENGINE].
    - A [WT_ASSERT] that fails stops the program; the embedding describes
      the runs in which the assertions hold and leaves them out. *)

From Stdlib Require Import ZArith String Lia Sorted.
From stdpp Require Import base numbers list sorting.

Local Open Scope Z_scope.

(** ** Machine integers *)

Definition wrap32 (z : Z) : Z := z mod 2 ^ 32.
Definition wrap64 (z : Z) : Z := z mod 2 ^ 64.

Definition INT_MAX : Z := 2 ^ 31 - 1.

(** The cast [(int)x] of a [uint32_t]. *)
Definition int_of_uint32 (x : Z) : Z :=
  if x <=? INT_MAX then x else x - 2 ^ 32.

(** Modelled from the spec: the sentinel [WT_ADDR_INVALID] of unloaded
    references ("sentinel INVALID_ADDR"), the largest [uint32_t]; its
    definition is in a header that is not part of the sources. *)
Definition WT_ADDR_INVALID : Z := 2 ^ 32 - 1.

(** Modelled from the spec: "Byte 0 through DESC_SECTOR (512) is a
    descriptor"; the constant is in a header that is not part of the
    sources. *)
Definition WT_BTREE_DESC_SECTOR : Z := 512.

(** ** The bit string

    Modelled from the spec: the macros [bit_test], [bit_set], [bit_nset] and
    [bit_ffc] of bitstring.h, which is not part of the sources: "an owned
    bit-vector with set, test, set_range, and find_first_clear primitives".
    A bit string of [n] bits is a list of [n] booleans.  Reading or writing
    a bit outside the allocation is undefined in C; here a read gives
    [false] and a write does nothing, and the theorems that need it state
    that the bits they touch are allocated. *)

Abbreviation bitstr_t := (list bool).

Definition bit_alloc (nbits : Z) : bitstr_t := replicate (Z.to_nat nbits) false.

Definition bit_test (name : bitstr_t) (bit : Z) : bool :=
  if bit <? 0 then false else default false (name !! Z.to_nat bit).

Definition bit_set (name : bitstr_t) (bit : Z) : bitstr_t :=
  if bit <? 0 then name else <[Z.to_nat bit := true]> name.

(** [bit_nset name start stop] sets the bits [start .. stop], both ends
    included. *)
Definition bit_nset (name : bitstr_t) (start stop : Z) : bitstr_t :=
  foldl bit_set name (seqZ start (stop - start + 1)).

(** [bit_ffc name nbits] is the index of the first clear bit among the first
    [nbits] bits, [-1] when there is none. *)
Definition bit_ffc (name : bitstr_t) (nbits : Z) : Z :=
  match list_find (fun b : bool => b = false) (take (Z.to_nat nbits) name) with
  | Some (i, _) => Z.of_nat i
  | None => -1
  end.

(** ** Messages of [__wt_errx]

    One constructor per format string, with the arguments of the call. *)

Inductive wt_msg : Type :=
| Msg_no_data_pages
    (* "the file contains no data pages and cannot be verified" *)
| Msg_size_not_valid
    (* "the file size is not valid for the allocation size" *)
| Msg_too_large
    (* "file is too large to verify" *)
| Msg_recno (addr recno expected : Z)
    (* "page at addr %u has a starting record of %u where the expected
       starting record was %u" *)
| Msg_int_key_order (entry addr max_addr : Z)
    (* "the internal key in entry %u on the page at addr %u sorts before
       the last key appearing on page %u" *)
| Msg_leaf_key_order (addr max_addr : Z)
    (* "the first key on the page at addr %u sorts equal or less than a key
       appearing on page %u" *)
| Msg_freelist (addr : Z)
    (* "free-list entry addr %u references non-existent file pages" *)
| Msg_already_verified (addr : Z)
    (* "file fragment at addr %u already verified" *)
| Msg_never_verified (ffc_start : Z)
    (* "file fragment %d was never verified" *)
| Msg_never_verified_range (ffc_start ffc_end : Z)
    (* "file fragments %d-%d were never verified" *).

(** ** Pages *)

Definition WT_ITEM := string.

Inductive cell_type : Type :=
| WT_CELL_KEY | WT_CELL_KEY_OVFL | WT_CELL_VALUE | WT_CELL_VALUE_OVFL
| WT_CELL_DEL | WT_CELL_OFF.

(** What [__wt_cell_unpack] yields for a cell: "kind, run-length, and
    overflow (addr,size) when applicable". *)
Record WT_CELL_UNPACK : Type := mkUNPACK {
  cell_kind : cell_type;
  rle : Z;          (* uint64_t *)
  off_addr : Z;     (* off.addr, uint32_t *)
  off_size : Z      (* off.size, uint32_t *)
}.

Record WT_UPDATE : Type := mkUPDATE {
  WT_UPDATE_DELETED_ISSET : bool
}.

Record WT_INSERT : Type := mkINSERT {
  upd : WT_UPDATE
}.

(** A slot of a variable-length column-store leaf: [WT_COL_PTR] is the cell
    of the slot ([None] for NULL), [WT_COL_INSERT] its insert list, in the
    order of the [next] pointers. *)
Record WT_COL : Type := mkCOL {
  WT_COL_PTR : option WT_CELL_UNPACK;
  WT_COL_INSERT : list WT_INSERT
}.

(** A slot of a row-store leaf, with the key [__wt_row_key] builds for it. *)
Record WT_ROW : Type := mkROW {
  row_key : WT_ITEM
}.

Inductive WT_REF : Type :=
| mkREF (addr size : Z) (page : WT_PAGE)
with WT_PAGE : Type :=
| mkPAGE (paddr : Z) (dsk : option (list WT_CELL_UNPACK)) (u : WT_PAGE_U)
with WT_PAGE_U : Type :=
| COL_FIX (recno entries : Z)
| COL_INT (recno : Z) (t : list WT_COL_REF)
| COL_VAR (recno : Z) (d : list WT_COL)
| OVFL
| ROW_INT (t : list WT_ROW_REF)
| ROW_LEAF (d : list WT_ROW)
with WT_COL_REF : Type :=
| mkCOL_REF (recno : Z) (ref : WT_REF)
with WT_ROW_REF : Type :=
| mkROW_REF (key : WT_ITEM) (ref : WT_REF).

Inductive page_type : Type :=
| WT_PAGE_COL_FIX | WT_PAGE_COL_INT | WT_PAGE_COL_VAR
| WT_PAGE_OVFL | WT_PAGE_ROW_INT | WT_PAGE_ROW_LEAF.

Definition ref_addr (r : WT_REF) : Z := let 'mkREF a _ _ := r in a.
Definition ref_size (r : WT_REF) : Z := let 'mkREF _ s _ := r in s.
Definition ref_page (r : WT_REF) : WT_PAGE := let 'mkREF _ _ p := r in p.

Definition page_u (p : WT_PAGE) : WT_PAGE_U := let 'mkPAGE _ _ u := p in u.
Definition page_dsk (p : WT_PAGE) : option (list WT_CELL_UNPACK) :=
  let 'mkPAGE _ d _ := p in d.

(** Modelled from the spec: the macro [WT_PADDR], which is not part of the
    sources, gives the address of a page ("addr (fragment index ...)"). *)
Definition WT_PADDR (p : WT_PAGE) : Z := let 'mkPAGE a _ _ := p in a.

Definition type (p : WT_PAGE) : page_type :=
  match page_u p with
  | COL_FIX _ _ => WT_PAGE_COL_FIX
  | COL_INT _ _ => WT_PAGE_COL_INT
  | COL_VAR _ _ => WT_PAGE_COL_VAR
  | OVFL => WT_PAGE_OVFL
  | ROW_INT _ => WT_PAGE_ROW_INT
  | ROW_LEAF _ => WT_PAGE_ROW_LEAF
  end.

(** [page->entries]: the number of slots of the page's array. *)
Definition entries (p : WT_PAGE) : Z :=
  match page_u p with
  | COL_FIX _ n => n
  | COL_INT _ t => Z.of_nat (length t)
  | COL_VAR _ d => Z.of_nat (length d)
  | OVFL => 0
  | ROW_INT t => Z.of_nat (length t)
  | ROW_LEAF d => Z.of_nat (length d)
  end.

Definition cref_recno (c : WT_COL_REF) : Z := let 'mkCOL_REF r _ := c in r.
Definition cref_ref (c : WT_COL_REF) : WT_REF := let 'mkCOL_REF _ r := c in r.
(** Modelled from the spec: the macro [WT_COL_REF_ADDR], which is not part
    of the sources: the address of the child a reference points to. *)
Definition WT_COL_REF_ADDR (c : WT_COL_REF) : Z := ref_addr (cref_ref c).

Definition rref_key (r : WT_ROW_REF) : WT_ITEM := let 'mkROW_REF k _ := r in k.
Definition rref_ref (r : WT_ROW_REF) : WT_REF := let 'mkROW_REF _ r' := r in r'.

(** ** The B-tree handle and the engine *)

Record WT_FREE_ENTRY : Type := mkFREE {
  fe_addr : Z;   (* uint32_t *)
  fe_size : Z    (* uint32_t *)
}.

Record WT_BTREE : Type := mkBTREE {
  allocsize : Z;                              (* uint32_t *)
  file_size : Z;                              (* fh->file_size, off_t *)
  freeqa : list WT_FREE_ENTRY;                (* the free list, in queue order *)
  root_page : WT_REF;
  btree_compare : WT_ITEM -> WT_ITEM -> Z
}.

(** Modelled from the spec: the macros [WT_ADDR_TO_OFF] and
    [WT_OFF_TO_ADDR], which are not part of the sources: "an address a
    refers to byte DESC_SECTOR + a*allocsize" and "total_frags = body_size /
    allocsize". *)
Definition WT_ADDR_TO_OFF (btree : WT_BTREE) (addr : Z) : Z :=
  WT_BTREE_DESC_SECTOR + addr * allocsize btree.
Definition WT_OFF_TO_ADDR (btree : WT_BTREE) (off : Z) : Z :=
  (off - WT_BTREE_DESC_SECTOR) / allocsize btree.

(** The collaborators of the verifier.  Each function gives the return code
    of the call ([0] for success); what a successful call produces is read
    from the page itself.  [WT_ERROR] is the engine's generic error code, and
    [bit_alloc_ret] is the code of [bit_alloc], whose bit string is
    [bit_alloc] above.  [__wt_disk_read] and [__wt_verify_dsk_chunk] take
    the address and the size of the overflow page. *)
Record WT_ENGINE : Type := mkENGINE {
  WT_ERROR : Z;
  WT_ERROR_nonzero : WT_ERROR <> 0;
  HAVE_DIAGNOSTIC : bool;
  __wt_scr_alloc : Z -> Z;
  __wt_buf_set : WT_ITEM -> Z;
  __wt_row_key : WT_PAGE -> WT_ROW -> Z;
  __wt_page_in : WT_PAGE -> WT_REF -> Z;
  __wt_page_reconcile : WT_PAGE -> Z;
  __wt_disk_read : Z -> Z -> Z;
  __wt_verify_dsk_chunk : Z -> Z -> Z;
  __wt_debug_page : WT_PAGE -> Z;
  bit_alloc_ret : Z -> Z
}.

(** ** The verifier state *)

Record WT_VSTUFF : Type := mkVSTUFF {
  frags : Z;              (* Total frags, uint32_t *)
  fragbits : bitstr_t;    (* Frag tracking bit list *)
  record_total : Z;       (* Total record count, uint64_t *)
  max_key : WT_ITEM;      (* Largest key *)
  max_addr : Z;           (* Largest key page, uint32_t *)
  fcnt : Z;               (* Progress counter, uint64_t *)
  dumpfile : Z;           (* Dump file stream *)
  errx : list wt_msg;     (* messages sent to __wt_errx, oldest first *)
  progress : list Z       (* counters sent to __wt_progress, oldest first *)
}.

Definition set_fragbits (b : bitstr_t) (vs : WT_VSTUFF) : WT_VSTUFF :=
  mkVSTUFF (frags vs) b (record_total vs) (max_key vs) (max_addr vs)
           (fcnt vs) (dumpfile vs) (errx vs) (progress vs).
Definition set_frags (n : Z) (vs : WT_VSTUFF) : WT_VSTUFF :=
  mkVSTUFF n (fragbits vs) (record_total vs) (max_key vs) (max_addr vs)
           (fcnt vs) (dumpfile vs) (errx vs) (progress vs).
Definition set_record_total (n : Z) (vs : WT_VSTUFF) : WT_VSTUFF :=
  mkVSTUFF (frags vs) (fragbits vs) n (max_key vs) (max_addr vs)
           (fcnt vs) (dumpfile vs) (errx vs) (progress vs).
Definition set_max_key (k : WT_ITEM) (vs : WT_VSTUFF) : WT_VSTUFF :=
  mkVSTUFF (frags vs) (fragbits vs) (record_total vs) k (max_addr vs)
           (fcnt vs) (dumpfile vs) (errx vs) (progress vs).
Definition set_max_addr (a : Z) (vs : WT_VSTUFF) : WT_VSTUFF :=
  mkVSTUFF (frags vs) (fragbits vs) (record_total vs) (max_key vs) a
           (fcnt vs) (dumpfile vs) (errx vs) (progress vs).
Definition set_fcnt (n : Z) (vs : WT_VSTUFF) : WT_VSTUFF :=
  mkVSTUFF (frags vs) (fragbits vs) (record_total vs) (max_key vs) (max_addr vs)
           n (dumpfile vs) (errx vs) (progress vs).

Definition __wt_errx (m : wt_msg) (vs : WT_VSTUFF) : WT_VSTUFF :=
  mkVSTUFF (frags vs) (fragbits vs) (record_total vs) (max_key vs) (max_addr vs)
           (fcnt vs) (dumpfile vs) (errx vs ++ [m]) (progress vs).
Definition __wt_progress (n : Z) (vs : WT_VSTUFF) : WT_VSTUFF :=
  mkVSTUFF (frags vs) (fragbits vs) (record_total vs) (max_key vs) (max_addr vs)
           (fcnt vs) (dumpfile vs) (errx vs) (progress vs ++ [n]).

(** ** Return-code plumbing *)

Definition verify_fn := WT_VSTUFF -> Z * WT_VSTUFF.

(** [WT_RET(a)]: return the code of [a] when it is not zero. *)
Definition WT_RET (a k : verify_fn) : verify_fn :=
  fun vs => let '(r, vs') := a vs in if r =? 0 then k vs' else (r, vs').

(** [WT_TRET(a)] with the pending code [ret]: keep [ret] when it is not
    zero, otherwise take the code of [a]. *)
Definition WT_TRET (ret r : Z) : Z := if ret =? 0 then r else ret.

(** A call that only returns a code. *)
Definition call (r : Z) : verify_fn := fun vs => (r, vs).

Notation "'WT_RET!' a ;; k" := (WT_RET a k)
  (at level 100, a at next level, k at level 200, right associativity,
   format "'[v' 'WT_RET!'  a ;; '/' k ']'").

(** ** bt_vrfy.c *)

Section Verify.

Variable E : WT_ENGINE.
Variable btree : WT_BTREE.

(** The test loop of [__verify_addfrag]: [for (i = 0; i < frags; ++i)
    if (bit_test(vs->fragbits, addr + i)) ...], from counter [i] with [n]
    iterations left; [true] when a set bit is met. *)
Fixpoint addfrag_test (bits : bitstr_t) (addr i : Z) (n : nat) : bool :=
  match n with
  | O => false
  | S n' =>
      if bit_test bits (wrap32 (addr + i)) then true
      else addfrag_test bits addr (i + 1) n'
  end.

(** [__verify_addfrag]: add the fragments of a page to the list, and
    complain if this chunk of the file was already verified. *)
Definition __verify_addfrag (addr size : Z) : verify_fn := fun vs =>
  let frags := size / allocsize btree in
  if addfrag_test (fragbits vs) addr 0 (Z.to_nat frags) then
    (WT_ERROR E, __wt_errx (Msg_already_verified addr) vs)
  else if 0 <? frags then
    (0, set_fragbits
          (bit_nset (fragbits vs) addr (wrap32 (addr + (frags - 1)))) vs)
  else (0, vs).

(** The block [if (ffc_start != -1) { ... ret = WT_ERROR; }] of
    [__verify_checkfrag]. *)
Definition checkfrag_report (ffc_start ffc_end ret : Z) (vs : WT_VSTUFF)
  : Z * WT_VSTUFF :=
  if ffc_start =? -1 then (ret, vs)
  else if ffc_start =? ffc_end then
    (WT_ERROR E, __wt_errx (Msg_never_verified ffc_start) vs)
  else
    (WT_ERROR E, __wt_errx (Msg_never_verified_range ffc_start ffc_end) vs).

(** The [for (;;)] loop of [__verify_checkfrag]; [fuel] bounds the number of
    iterations and [None] means the bound was reached. *)
Fixpoint checkfrag_loop (fuel : nat) (frags ffc_start ffc_end ret : Z)
    (vs : WT_VSTUFF) : option (Z * WT_VSTUFF) :=
  match fuel with
  | O => None
  | S fuel' =>
      let ffc := bit_ffc (fragbits vs) frags in
      if ffc =? -1 then Some (checkfrag_report ffc_start ffc_end ret vs)
      else
        let vs := set_fragbits (bit_set (fragbits vs) ffc) vs in
        if ffc_start =? -1 then checkfrag_loop fuel' frags ffc ffc ret vs
        else if ffc_end =? ffc - 1 then
          checkfrag_loop fuel' frags ffc_start ffc ret vs
        else
          let '(ret, vs) := checkfrag_report ffc_start ffc_end ret vs in
          checkfrag_loop fuel' frags ffc ffc ret vs
  end.

(** [__verify_checkfrag]: verify we've checked all the fragments in the
    file.  Every iteration but the last sets one more bit, so one iteration
    more than there are bits is enough. *)
Definition __verify_checkfrag (vs : WT_VSTUFF) : option (Z * WT_VSTUFF) :=
  let frags := int_of_uint32 (frags vs) in
  checkfrag_loop (S (length (fragbits vs))) frags (-1) (-1) 0 vs.

(** The [TAILQ_FOREACH] loop of [__verify_freelist], with the pending
    code [ret]. *)
Fixpoint freelist_loop (fes : list WT_FREE_ENTRY) (ret : Z) : verify_fn :=
  fun vs =>
  match fes with
  | [] => (ret, vs)
  | fe :: fes' =>
      if WT_ADDR_TO_OFF btree (fe_addr fe) + fe_size fe >? file_size btree
      then (WT_ERROR E, __wt_errx (Msg_freelist (fe_addr fe)) vs)
      else
        let '(r, vs') := __verify_addfrag (fe_addr fe) (fe_size fe) vs in
        freelist_loop fes' (WT_TRET ret r) vs'
  end.

(** [__verify_freelist]: add the freelist fragments to the list of verified
    fragments. *)
Definition __verify_freelist : verify_fn := freelist_loop (freeqa btree) 0.

(** [__verify_overflow]: read in an overflow page and check it. *)
Definition __verify_overflow (addr size : Z) : verify_fn :=
  WT_RET! call (__wt_scr_alloc E size);;
  WT_RET! call (__wt_disk_read E addr size);;
  WT_RET! call (__wt_verify_dsk_chunk E addr size);;
  __verify_addfrag addr size.

(** The [WT_CELL_FOREACH] loop of [__verify_overflow_cell]. *)
Fixpoint overflow_cell_loop (cells : list WT_CELL_UNPACK) : verify_fn :=
  match cells with
  | [] => call 0
  | unpack :: cells' =>
      match cell_kind unpack with
      | WT_CELL_KEY_OVFL | WT_CELL_VALUE_OVFL =>
          WT_RET! __verify_overflow (off_addr unpack) (off_size unpack);;
          overflow_cell_loop cells'
      | _ => overflow_cell_loop cells'
      end
  end.

(** [__verify_overflow_cell]: verify any overflow cells on the page. *)
Definition __verify_overflow_cell (page : WT_PAGE) : verify_fn :=
  match page_dsk page with
  | None => call 0
  | Some cells => overflow_cell_loop cells
  end.

(** [__wt_buf_set(session, vs->max_key, data, size)]: on success the
    buffer holds a copy of the item, on failure it is left as it was. *)
Definition buf_set_max_key (item : WT_ITEM) : verify_fn := fun vs =>
  let r := __wt_buf_set E item in
  if r =? 0 then (0, set_max_key item vs) else (r, vs).

(** [__verify_row_int_key_order]: compare a key on an internal page to the
    largest key we've seen so far; update the largest key we've seen so far
    to that key. *)
Definition __verify_row_int_key_order (page : WT_PAGE) (rref : WT_ROW_REF)
    (entry : Z) : verify_fn := fun vs =>
  let item := rref_key rref in
  if btree_compare btree item (max_key vs) <=? 0 then
    (WT_ERROR E,
     __wt_errx (Msg_int_key_order entry (WT_PADDR page) (max_addr vs)) vs)
  else
    (WT_RET! buf_set_max_key item;;
     fun vs => (0, set_max_addr (WT_PADDR page) vs)) vs.

(** The slots [page->u.row_leaf.d] of a row-store leaf. *)
Definition row_leaf_d (page : WT_PAGE) : list WT_ROW :=
  match page_u page with ROW_LEAF d => d | _ => [] end.

(** The slot [d + i]; outside the array the C code reads unallocated
    memory, here it is a slot with an empty key. *)
Definition row_slot (d : list WT_ROW) (i : Z) : WT_ROW :=
  default (mkROW EmptyString) (d !! Z.to_nat i).

(** [__verify_row_leaf_key_order]: compare the first key on a leaf page to
    the largest key we've seen so far; update the largest key we've seen so
    far to the last key on the page. *)
Definition __verify_row_leaf_key_order (page : WT_PAGE) : verify_fn :=
  fun vs =>
  let d := row_leaf_d page in
  let update : verify_fn := fun vs =>
    let vs := set_max_addr (WT_PADDR page) vs in
    let rip := row_slot d (wrap32 (entries page - 1)) in
    let r := __wt_row_key E page rip in
    if r =? 0 then (0, set_max_key (row_key rip) vs) else (r, vs) in
  if max_addr vs =? WT_ADDR_INVALID then
    (WT_RET! call (__wt_scr_alloc E 0);;
     WT_RET! call (__wt_row_key E page (row_slot d 0));;
     fun vs =>
       let key := row_key (row_slot d 0) in
       if btree_compare btree key (max_key vs) <? 0 then
         (WT_ERROR E,
          __wt_errx (Msg_leaf_key_order (WT_PADDR page) (max_addr vs)) vs)
       else update vs) vs
  else update vs.

(** The first [switch] of [__verify_tree]: the starting record number of a
    column-store page. *)
Definition recno_chk (page : WT_PAGE) (parent_recno : Z) : verify_fn :=
  fun vs =>
  let chk recno :=
    if negb (parent_recno =? recno) then
      (WT_ERROR E,
       __wt_errx (Msg_recno (WT_PADDR page) recno parent_recno) vs)
    else (0, vs) in
  match page_u page with
  | COL_INT recno _ => chk recno
  | COL_FIX recno _ => chk recno
  | COL_VAR recno _ => chk recno
  | _ => (0, vs)
  end.

(** The [WT_COL_FOREACH] loop of the second [switch]: the records of a
    variable-length column-store leaf, from the local [recno]. *)
Definition col_var_records (d : list WT_COL) (recno : Z) : Z :=
  foldl (fun recno cip =>
           match WT_COL_PTR cip with
           | None => wrap64 (recno + 1)
           | Some unpack => wrap64 (recno + rle unpack)
           end) recno d.

(** The second [switch] of [__verify_tree]: update the total record
    count. *)
Definition record_total_update (page : WT_PAGE) (vs : WT_VSTUFF) : WT_VSTUFF :=
  match page_u page with
  | COL_FIX _ _ =>
      set_record_total (wrap64 (record_total vs + entries page)) vs
  | COL_VAR _ d =>
      set_record_total (wrap64 (record_total vs + col_var_records d 0)) vs
  | _ => vs
  end.

Section Descent.

(** The recursive call of [__verify_tree] and the page whose children are
    visited. *)
Variable verify_tree : WT_REF -> Z -> verify_fn.
Variable page : WT_PAGE.

(** After [__wt_page_in] succeeded: verify the subtree, clear the hazard,
    evict the child, and return the merged code. *)
Definition descend (ref : WT_REF) (parent_recno : Z) (k : verify_fn)
  : verify_fn :=
  WT_RET! call (__wt_page_in E page ref);;
  fun vs =>
    let '(ret, vs) := verify_tree ref parent_recno vs in
    let ret := WT_TRET ret (__wt_page_reconcile E (ref_page ref)) in
    if negb (ret =? 0) then (ret, vs) else k vs.

(** The [WT_COL_REF_FOREACH] loop. *)
Fixpoint col_int_loop (crefs : list WT_COL_REF) : verify_fn := fun vs =>
  match crefs with
  | [] => (0, vs)
  | cref :: crefs' =>
      if negb (cref_recno cref =? wrap64 (record_total vs + 1)) then
        (WT_ERROR E,
         __wt_errx (Msg_recno (WT_COL_REF_ADDR cref) (cref_recno cref)
                              (wrap64 (record_total vs + 1))) vs)
      else
        descend (cref_ref cref) (cref_recno cref) (col_int_loop crefs') vs
  end.

(** The [WT_ROW_REF_FOREACH] loop, with the counter [entry]. *)
Fixpoint row_int_loop (entry : Z) (rrefs : list WT_ROW_REF) : verify_fn :=
  match rrefs with
  | [] => call 0
  | rref :: rrefs' =>
      WT_RET! (if negb (entry =? 0)
               then __verify_row_int_key_order page rref entry
               else call 0);;
      descend (rref_ref rref) 0 (row_int_loop (wrap32 (entry + 1)) rrefs')
  end.

End Descent.

(** [if (++vs->fcnt % 10 == 0) __wt_progress(session, NULL, vs->fcnt)]:
    report progress every 10 pages. *)
Definition progress_tick (vs : WT_VSTUFF) : WT_VSTUFF :=
  let vs := set_fcnt (wrap64 (fcnt vs + 1)) vs in
  if fcnt vs mod 10 =? 0 then __wt_progress (fcnt vs) vs else vs.

(** [if (vs->dumpfile) WT_RET(__wt_debug_page(session, page, NULL))], which
    is compiled under HAVE_DIAGNOSTIC only. *)
Definition debug_dump (page : WT_PAGE) : verify_fn := fun vs =>
  if HAVE_DIAGNOSTIC E && negb (dumpfile vs =? 0)
  then (__wt_debug_page E page, vs) else (0, vs).

(** The body of [__verify_tree], with [verify_tree] for its recursive
    calls. *)
Definition verify_tree_body (verify_tree : WT_REF -> Z -> verify_fn)
    (ref : WT_REF) (parent_recno : Z) : verify_fn := fun vs =>
  let page := ref_page ref in
  (* Report progress every 10 pages. *)
  let vs := progress_tick vs in
  (* Update frags list. *)
  (WT_RET! __verify_addfrag (ref_addr ref) (ref_size ref);;
   (* Optionally dump the page in debugging mode. *)
   WT_RET! debug_dump page;;
   (* Column-store key order checks: check the starting record number,
      then update the total record count. *)
   WT_RET! recno_chk page parent_recno;;
   WT_RET! (fun vs => (0, record_total_update page vs));;
   (* Row-store leaf page key order check. *)
   WT_RET! (match type page with
            | WT_PAGE_ROW_LEAF => __verify_row_leaf_key_order page
            | _ => call 0
            end);;
   (* Check overflow pages. *)
   WT_RET! (match type page with
            | WT_PAGE_COL_VAR | WT_PAGE_ROW_INT | WT_PAGE_ROW_LEAF =>
                __verify_overflow_cell page
            | _ => call 0
            end);;
   (* Check tree connections and recursively descend the tree. *)
   match page_u page with
   | COL_INT _ t => col_int_loop verify_tree page t
   | ROW_INT t => row_int_loop verify_tree page 0 t
   | _ => call 0
   end) vs.

(** [__verify_tree]: verify a tree, recursively descending through it in
    depth-first fashion. *)
Fixpoint __verify_tree (ref : WT_REF) (parent_recno : Z) {struct ref}
  : verify_fn :=
  verify_tree_body __verify_tree ref parent_recno.

End Verify.

Section VerifyInt.

Variable E : WT_ENGINE.
Variable btree : WT_BTREE.

(** [WT_CLEAR(_vstuff)] followed by [vs->dumpfile = dumpfile]. *)
Definition vstuff_clear (dumpfile : Z) : WT_VSTUFF :=
  mkVSTUFF 0 [] 0 EmptyString 0 0 dumpfile [] [].

(** [__verify_int] up to the label [err]: the code [ret] with which the
    tear-down is entered ([WT_ERROR] after a [goto err] that found [ret] at
    zero) and the state there.  [None] only when the loop of
    [__verify_checkfrag] reaches its bound. *)
Definition verify_int_checks (dumpfile : Z) : option (Z * WT_VSTUFF) :=
  let vs := vstuff_clear dumpfile in
  let r := __wt_scr_alloc E 0 in
  if negb (r =? 0) then Some (r, vs) else
  let vs := set_max_addr WT_ADDR_INVALID vs in
  (* If the file has no data pages, we're done. *)
  if file_size btree <=? WT_BTREE_DESC_SECTOR then
    Some (WT_ERROR E, __wt_errx Msg_no_data_pages vs)
  else if negb (Z.rem (file_size btree - WT_BTREE_DESC_SECTOR)
                      (allocsize btree) =? 0) then
    Some (WT_ERROR E, __wt_errx Msg_size_not_valid vs)
  else
  (* vs->frags is a uint32_t. *)
  let vs := set_frags (wrap32 (WT_OFF_TO_ADDR btree (file_size btree))) vs in
  if frags vs >? INT_MAX then Some (WT_ERROR E, __wt_errx Msg_too_large vs)
  else
  let r := bit_alloc_ret E (frags vs) in
  if negb (r =? 0) then Some (r, vs) else
  let vs := set_fragbits (bit_alloc (frags vs)) vs in
  (* Verify the tree, starting at the root. *)
  let '(r, vs) := __verify_tree E btree (root_page btree) 1 vs in
  if negb (r =? 0) then Some (r, vs) else
  (* Verify the free-list. *)
  let '(r, vs) := __verify_freelist E btree vs in
  if negb (r =? 0) then Some (r, vs) else
  (* Verify we read every file block. *)
  __verify_checkfrag E vs.

(** [__verify_int]: internal version of verify: verify a Btree, optionally
    dumping each page in debugging mode. *)
Definition __verify_int (dumpfile : Z) : option (Z * WT_VSTUFF) :=
  match verify_int_checks dumpfile with
  | None => None
  | Some (ret, vs) =>
      (* Discard the root page from the tree. *)
      let ret :=
        WT_TRET ret (__wt_page_reconcile E (ref_page (root_page btree))) in
      (* Wrap up reporting. *)
      Some (ret, __wt_progress (fcnt vs) vs)
  end.

(** [__wt_verify]: verify a file. *)
Definition __wt_verify : option (Z * WT_VSTUFF) := __verify_int 0.

End VerifyInt.

(** ** bt_stat.c *)

(** The two counters of [WT_BTREE_STATS] that [__stat_page_col_var]
    writes, both [uint64_t]. *)
Record WT_BTREE_STATS : Type := mkSTATS {
  file_item_col_deleted : Z;
  file_item_total_data : Z
}.

(** Modelled from the spec: the macros [WT_STAT_INCR], [WT_STAT_DECR] and
    [WT_STAT_INCRV], which are not part of the sources: a count "is
    incremented by rle", "decrements data and increments the deletion
    count".  The counters are 64-bit and wrap. *)
Definition INCRV_col_deleted (v : Z) (s : WT_BTREE_STATS) : WT_BTREE_STATS :=
  mkSTATS (wrap64 (file_item_col_deleted s + v)) (file_item_total_data s).
Definition INCRV_total_data (v : Z) (s : WT_BTREE_STATS) : WT_BTREE_STATS :=
  mkSTATS (file_item_col_deleted s) (wrap64 (file_item_total_data s + v)).

(** The body of the loop over the insert list of one slot. *)
Definition stat_col_var_insert (orig_deleted : bool) (stats : WT_BTREE_STATS)
    (ins : WT_INSERT) : WT_BTREE_STATS :=
  if WT_UPDATE_DELETED_ISSET (upd ins) then
    if orig_deleted then stats
    else INCRV_total_data (-1) (INCRV_col_deleted 1 stats)
  else
    if negb orig_deleted then stats
    else INCRV_total_data 1 (INCRV_col_deleted (-1) stats).

(** The body of the [WT_COL_FOREACH] loop. *)
Definition stat_col_var_slot (stats : WT_BTREE_STATS) (cip : WT_COL)
  : WT_BTREE_STATS :=
  let '(orig_deleted, stats) :=
    match WT_COL_PTR cip with
    | None => (true, INCRV_col_deleted 1 stats)
    | Some unpack => (false, INCRV_total_data (rle unpack) stats)
    end in
  foldl (stat_col_var_insert orig_deleted) stats (WT_COL_INSERT cip).

(** The slots [page->u.col_leaf.d] of a variable-length column-store
    leaf. *)
Definition col_leaf_d (page : WT_PAGE) : list WT_COL :=
  match page_u page with COL_VAR _ d => d | _ => [] end.

(** [__stat_page_col_var]: stat a WT_PAGE_COL_VAR page. *)
Definition __stat_page_col_var (page : WT_PAGE) (stats : WT_BTREE_STATS)
  : Z * WT_BTREE_STATS :=
  (0, foldl stat_col_var_slot stats (col_leaf_d page)).

(** ** Statement of the coverage audit *)

(** [unset_run bits n s e]: the bits [s .. e] are a maximal run of
    consecutive unset bits among the first [n] bits of [bits]. *)
Definition unset_run (bits : bitstr_t) (n s e : Z) : Prop :=
  0 <= s <= e /\ e < n /\
  (forall i, s <= i <= e -> bit_test bits i = false) /\
  (s = 0 \/ bit_test bits (s - 1) = true) /\
  (e = n - 1 \/ bit_test bits (e + 1) = true).

(** The diagnostic for the run [s .. e]: the single-fragment form for a run
    of length 1, the range form otherwise. *)
Definition run_msg (r : Z * Z) : wt_msg :=
  if fst r =? snd r then Msg_never_verified (fst r)
  else Msg_never_verified_range (fst r) (snd r).

(** Runs are listed in increasing order, each one ending before the next
    begins. *)
Definition run_before (a b : Z * Z) : Prop := snd a < fst b.

(** The invariant of the loop of [__verify_checkfrag] at the head of an
    iteration, for the map [bits0] of [n] bits the function was entered
    with: the bits below [p] have been visited (and are now set), the bits
    from [p] on are as in [bits0], [runs] are the runs reported so far, and
    [ffc_start .. ffc_end] is the run being collected. *)
Definition checkfrag_inv (bits0 : bitstr_t) (n p ffc_start ffc_end ret : Z)
    (bits : bitstr_t) (runs : list (Z * Z)) : Prop :=
  0 <= p <= n /\
  Z.of_nat (length bits) = n /\
  (forall i, 0 <= i < p -> bit_test bits i = true) /\
  (forall i, p <= i -> bit_test bits i = bit_test bits0 i) /\
  StronglySorted run_before runs /\
  ((ffc_start = -1 /\ ffc_end = -1 /\ runs = [] /\ ret = 0 /\
    forall i, 0 <= i < p -> bit_test bits0 i = true) \/
   (0 <= ffc_start <= ffc_end /\ ffc_end = p - 1 /\
    (forall i, ffc_start <= i <= ffc_end -> bit_test bits0 i = false) /\
    (ffc_start = 0 \/ bit_test bits0 (ffc_start - 1) = true) /\
    forall s e, (s, e) ∈ runs <-> unset_run bits0 n s e /\ e < ffc_start)).

(** What the loop of [__verify_checkfrag] delivers when it is left, for the
    map [bits0] of [n] bits and the messages [msgs0] the function was
    entered with. *)
Definition checkfrag_post (E : WT_ENGINE) (bits0 : bitstr_t)
    (msgs0 : list wt_msg) (n : Z) (res : option (Z * WT_VSTUFF)) : Prop :=
  exists ret vs' runs,
    res = Some (ret, vs') /\
    (ret = 0 \/ ret = WT_ERROR E) /\
    (ret <> 0 <-> exists i, 0 <= i < n /\ bit_test bits0 i = false) /\
    errx vs' = msgs0 ++ map run_msg runs /\
    StronglySorted run_before runs /\
    forall s e, (s, e) ∈ runs <-> unset_run bits0 n s e.

(** ** Statement of the free-list pass *)

(** A free-list entry lies inside the body of the file:
    [addr * allocsize + size <= body_size]. *)
Definition free_entry_in_body (btree : WT_BTREE) (fe : WT_FREE_ENTRY) : Prop :=
  fe_addr fe * allocsize btree + fe_size fe
  <= file_size btree - WT_BTREE_DESC_SECTOR.

(** The state after every entry of [fes] was charged through
    [__verify_addfrag], one after the other, whatever each call returned. *)
Fixpoint charge_all (E : WT_ENGINE) (btree : WT_BTREE)
    (fes : list WT_FREE_ENTRY) (vs : WT_VSTUFF) : WT_VSTUFF :=
  match fes with
  | [] => vs
  | fe :: fes' =>
      charge_all E btree fes'
        (snd (__verify_addfrag E btree (fe_addr fe) (fe_size fe) vs))
  end.

(** The codes these calls returned, in order. *)
Fixpoint charge_codes (E : WT_ENGINE) (btree : WT_BTREE)
    (fes : list WT_FREE_ENTRY) (vs : WT_VSTUFF) : list Z :=
  match fes with
  | [] => []
  | fe :: fes' =>
      let r := __verify_addfrag E btree (fe_addr fe) (fe_size fe) vs in
      fst r :: charge_codes E btree fes' (snd r)
  end.

(** The first code of a list that is not zero, zero when there is none. *)
Fixpoint first_error (codes : list Z) : Z :=
  match codes with
  | [] => 0
  | r :: codes' => if r =? 0 then first_error codes' else r
  end.

(** ** Statements about the walk *)

(** The starting record number of a column-store page. *)
Definition page_recno (page : WT_PAGE) : option Z :=
  match page_u page with
  | COL_FIX recno _ => Some recno
  | COL_INT recno _ => Some recno
  | COL_VAR recno _ => Some recno
  | _ => None
  end.

(** The records of a slot of a variable-length leaf: 1 for a null slot, the
    run-length of its cell otherwise. *)
Definition slot_records (cip : WT_COL) : Z :=
  match WT_COL_PTR cip with
  | None => 1
  | Some unpack => rle unpack
  end.

(** The sum of [f] over a list. *)
Definition sum_Z {A} (f : A -> Z) (l : list A) : Z :=
  foldr (fun x acc => f x + acc) 0 l.

(** The records a page adds to the running total: [entries] for a
    fixed-length leaf, the sum over its slots for a variable-length leaf,
    nothing for the other kinds. *)
Definition page_records (page : WT_PAGE) : Z :=
  match page_u page with
  | COL_FIX _ n => n
  | COL_VAR _ d => sum_Z slot_records d
  | _ => 0
  end.

(** The references to the children of a page. *)
Definition children (page : WT_PAGE) : list WT_REF :=
  match page_u page with
  | COL_INT _ t => map cref_ref t
  | ROW_INT t => map rref_ref t
  | _ => []
  end.

(** The number of pages of a tree. *)
Fixpoint ref_nodes (ref : WT_REF) : nat :=
  match ref with
  | mkREF _ _ (mkPAGE _ _ u) =>
      S (match u with
         | COL_INT _ t =>
             (fix go (l : list WT_COL_REF) : nat :=
                match l with
                | [] => 0%nat
                | mkCOL_REF _ r :: l' => (ref_nodes r + go l')%nat
                end) t
         | ROW_INT t =>
             (fix go (l : list WT_ROW_REF) : nat :=
                match l with
                | [] => 0%nat
                | mkROW_REF _ r :: l' => (ref_nodes r + go l')%nat
                end) t
         | _ => 0%nat
         end)
  end.

(** The records of all the pages of a tree: the sum of the per-leaf
    counts. *)
Fixpoint tree_records (ref : WT_REF) : Z :=
  match ref with
  | mkREF _ _ (mkPAGE _ _ u) =>
      match u with
      | COL_FIX _ n => n
      | COL_VAR _ d => sum_Z slot_records d
      | COL_INT _ t =>
          (fix go (l : list WT_COL_REF) : Z :=
             match l with
             | [] => 0
             | mkCOL_REF _ r :: l' => tree_records r + go l'
             end) t
      | ROW_INT t =>
          (fix go (l : list WT_ROW_REF) : Z :=
             match l with
             | [] => 0
             | mkROW_REF _ r :: l' => tree_records r + go l'
             end) t
      | _ => 0
      end
  end.

(** A step of the walk that leaves the running record total as it is,
    whatever it returns. *)
Definition keeps_total (f : verify_fn) : Prop :=
  forall vs r vs', f vs = (r, vs') -> record_total vs' = record_total vs.

(** A step of the walk that leaves the key-order monitor as it is, whatever
    it returns. *)
Definition keeps_monitor (f : verify_fn) : Prop :=
  forall vs r vs', f vs = (r, vs') ->
    max_key vs' = max_key vs /\ max_addr vs' = max_addr vs.

(** The frag-map of [vs'] has the size of the frag-map of [vs]. *)
Definition same_shape (vs vs' : WT_VSTUFF) : Prop :=
  frags vs' = frags vs /\ length (fragbits vs') = length (fragbits vs).

(** A step of the walk that leaves the size of the frag-map as it is,
    whatever it returns. *)
Definition keeps_shape (f : verify_fn) : Prop :=
  forall vs r vs', f vs = (r, vs') -> same_shape vs vs'.

(** ** Statement of the statistics of a variable-length leaf *)

(** What an insert adds to the count of data items of its slot: one less
    for a tombstone over a slot that was live, one more for an insert
    that is no tombstone over a slot that was a deleted run, nothing
    otherwise.  It adds the opposite to the count of deletions. *)
Definition insert_data_adjust (orig_deleted : bool) (ins : WT_INSERT) : Z :=
  match WT_UPDATE_DELETED_ISSET (upd ins), orig_deleted with
  | true, false => -1
  | false, true => 1
  | _, _ => 0
  end.

(** The data items a slot adds: the run-length of its cell for a slot that
    is not null, and the adjustments of its insert list. *)
Definition slot_data (cip : WT_COL) : Z :=
  match WT_COL_PTR cip with
  | None => sum_Z (insert_data_adjust true) (WT_COL_INSERT cip)
  | Some unpack => rle unpack + sum_Z (insert_data_adjust false) (WT_COL_INSERT cip)
  end.

(** The deletions a slot adds: one for a null slot, and the opposite of the
    adjustments of its insert list. *)
Definition slot_deleted (cip : WT_COL) : Z :=
  match WT_COL_PTR cip with
  | None => 1 - sum_Z (insert_data_adjust true) (WT_COL_INSERT cip)
  | Some unpack => - sum_Z (insert_data_adjust false) (WT_COL_INSERT cip)
  end.

(** ** Sample engines, trees and states *)

(** Keys compared as byte strings. *)
Definition compare_lex (a b : WT_ITEM) : Z :=
  match String.compare a b with
  | Lt => -1
  | Eq => 0
  | Gt => 1
  end.

(** An engine whose collaborators all succeed, built without
    HAVE_DIAGNOSTIC. *)
Definition sample_engine : WT_ENGINE :=
  mkENGINE (-31802) ltac:(discriminate) false
           (fun _ => 0) (fun _ => 0) (fun _ _ => 0) (fun _ _ => 0)
           (fun _ => 0) (fun _ _ => 0) (fun _ _ => 0) (fun _ => 0)
           (fun _ => 0).

(** A fixed-length leaf of one record at fragment 0. *)
Definition sample_leaf : WT_REF :=
  mkREF 0 512 (mkPAGE 0 None (COL_FIX 1 1)).

(** A file of four fragments of 512 bytes whose tree is [sample_leaf]. *)
Definition sample_btree : WT_BTREE :=
  mkBTREE 512 (512 + 4 * 512) [] sample_leaf compare_lex.

(** The same file with the three fragments after the leaf on the free
    list, the second entry overlapping the first. *)
Definition sample_btree_free : WT_BTREE :=
  mkBTREE 512 (512 + 4 * 512)
          [mkFREE 1 1024; mkFREE 2 512; mkFREE 3 512] sample_leaf compare_lex.

(** The same file with a free-list entry that ends beyond the body. *)
Definition sample_btree_beyond : WT_BTREE :=
  mkBTREE 512 (512 + 4 * 512)
          [mkFREE 1 512; mkFREE 3 1024; mkFREE 2 512] sample_leaf compare_lex.

(** A file of 2^32 + 1 fragments of 512 bytes whose tree is
    [sample_leaf]. *)
Definition huge_btree : WT_BTREE :=
  mkBTREE 512 (512 + (2 ^ 32 + 1) * 512) [] sample_leaf compare_lex.

(** A verifier state over a map of [bits]. *)
Definition sample_vs (bits : bitstr_t) : WT_VSTUFF :=
  mkVSTUFF (Z.of_nat (length bits)) bits 0 EmptyString WT_ADDR_INVALID 0 0 [] [].

(** A column-store internal page whose running total is 100 when its second
    child, which starts at record 102, is reached. *)
Definition sample_col_children : list WT_COL_REF :=
  [mkCOL_REF 1 (mkREF 1 512 (mkPAGE 1 None (COL_FIX 1 100)));
   mkCOL_REF 102 (mkREF 2 512 (mkPAGE 2 None (COL_FIX 102 5)))].

Definition sample_col_int : WT_REF :=
  mkREF 0 512 (mkPAGE 0 None (COL_INT 1 sample_col_children)).

(** A column-store tree of 104 records: a fixed-length leaf of 100 records
    and a variable-length leaf with a cell of run-length 3 and a null
    slot. *)
Definition sample_col_tree : WT_REF :=
  mkREF 0 512
    (mkPAGE 0 None
       (COL_INT 1
          [mkCOL_REF 1 (mkREF 1 512 (mkPAGE 1 None (COL_FIX 1 100)));
           mkCOL_REF 101
             (mkREF 2 512
                (mkPAGE 2 (Some [])
                   (COL_VAR 101
                      [mkCOL (Some (mkUNPACK WT_CELL_VALUE 3 0 0)) [];
                       mkCOL None []])))])).

(** A row-store leaf at fragment [a] with the keys [keys]. *)
Definition sample_row_leaf (a : Z) (keys : list WT_ITEM) : WT_REF :=
  mkREF a 512 (mkPAGE a None (ROW_LEAF (map mkROW keys))).

(** A row-store internal page with two leaves; the fence key of the second
    child does not sort above the last key of the first leaf. *)
Definition sample_row_children : list WT_ROW_REF :=
  [mkROW_REF EmptyString (sample_row_leaf 1 ["apple"; "mango"]%string);
   mkROW_REF "kiwi"%string (sample_row_leaf 2 ["kiwi"; "lemon"]%string)].

Definition sample_row_int : WT_PAGE :=
  mkPAGE 0 None (ROW_INT sample_row_children).

(** A variable-length leaf: a cell of run-length 3 with a tombstone in its
    insert list, and a null slot with an insert that is no tombstone. *)
Definition sample_col_var : WT_PAGE :=
  mkPAGE 0 None
    (COL_VAR 1
       [mkCOL (Some (mkUNPACK WT_CELL_VALUE 3 0 0)) [mkINSERT (mkUPDATE true)];
        mkCOL None [mkINSERT (mkUPDATE false)]]).

(** A file of three fragments: a row-store internal page at fragment 0 and
    two leaves; the fence key of the second leaf is a copy of its first
    key. *)
Definition sample_row_btree : WT_BTREE :=
  mkBTREE 512 (512 + 3 * 512) []
    (mkREF 0 512
       (mkPAGE 0 None
          (ROW_INT
             [mkROW_REF EmptyString (sample_row_leaf 1 ["apple"; "kiwi"]%string);
              mkROW_REF "mango"%string
                (sample_row_leaf 2 ["mango"; "peach"]%string)])))
    compare_lex.

(** A file of three fragments whose internal page refers twice to the leaf
    at fragment 1. *)
Definition sample_dup_btree : WT_BTREE :=
  mkBTREE 512 (512 + 3 * 512) []
    (mkREF 0 512
       (mkPAGE 0 None
          (ROW_INT
             [mkROW_REF EmptyString (sample_row_leaf 1 ["apple"; "kiwi"]%string);
              mkROW_REF "mango"%string
                (sample_row_leaf 1 ["apple"; "kiwi"]%string)])))
    compare_lex.

(** ** Statements about whole runs *)

(** [extends vs vs']: the state [vs'] continues [vs]: the frag-map has the
    same size and has lost no bit, the messages and the progress reports of
    [vs] are the first ones of [vs'], and [frags] and [dumpfile] are as they
    were. *)
Definition extends (vs vs' : WT_VSTUFF) : Prop :=
  frags vs' = frags vs /\
  dumpfile vs' = dumpfile vs /\
  length (fragbits vs') = length (fragbits vs) /\
  (forall i, bit_test (fragbits vs) i = true ->
             bit_test (fragbits vs') i = true) /\
  (exists msgs, errx vs' = errx vs ++ msgs) /\
  (exists ns, progress vs' = progress vs ++ ns).

(** A step that continues the state whatever it returns. *)
Definition keeps_extends (f : verify_fn) : Prop :=
  forall vs r vs', f vs = (r, vs') -> extends vs vs'.

(** The counters the walk of [n] pages reports from the count [fcnt]: the
    counts [fcnt + 1 .. fcnt + n], as 64-bit values, that are multiples of
    10. *)
Definition progress_ticks (fcnt : Z) (n : nat) : list Z :=
  filter (fun c => c mod 10 = 0)
         (map (fun j => wrap64 (fcnt + j)) (seqZ 1 (Z.of_nat n))).

(** A step that stops at its first complaint: it adds no message, or it
    adds one and returns [WT_ERROR]. *)
Definition one_complaint (E : WT_ENGINE) (f : verify_fn) : Prop :=
  forall vs r vs', f vs = (r, vs') ->
    errx vs' = errx vs \/
    (r = WT_ERROR E /\ exists m, errx vs' = errx vs ++ [m]).

(** ** Extents *)

(** An extent [(addr, size)] of the file, as [__verify_addfrag] is given
    it. *)
Definition extent : Type := Z * Z.

(** The fragments of an extent: [size / allocsize] of them, from [addr]. *)
Definition extent_covers (allocsize : Z) (ext : extent) (i : Z) : Prop :=
  fst ext <= i < fst ext + snd ext / allocsize.

(** The extent lies inside a frag-map of [n] bits. *)
Definition extent_in_map (allocsize n : Z) (ext : extent) : Prop :=
  0 <= fst ext /\ 0 <= snd ext / allocsize /\
  fst ext + snd ext / allocsize <= n.

(** The frag-map after an extent was charged to it with success: what
    [__verify_addfrag] does to [fragbits] when it returns 0, and [None] when
    it meets a set bit. *)
Definition charge (allocsize : Z) (bits : bitstr_t) (ext : extent)
  : option bitstr_t :=
  let k := snd ext / allocsize in
  if addfrag_test bits (fst ext) 0 (Z.to_nat k) then None
  else Some (if 0 <? k
             then bit_nset bits (fst ext) (wrap32 (fst ext + (k - 1)))
             else bits).

(** The frag-map after the extents of a list were charged one after the
    other, all with success. *)
Fixpoint charge_list (allocsize : Z) (bits : bitstr_t) (exts : list extent)
  : option bitstr_t :=
  match exts with
  | [] => Some bits
  | ext :: exts' =>
      match charge allocsize bits ext with
      | Some bits' => charge_list allocsize bits' exts'
      | None => None
      end
  end.

(** The overflow pages the cells of a disk image refer to. *)
Definition overflow_extents (cells : list WT_CELL_UNPACK) : list extent :=
  omap (fun unpack =>
          match cell_kind unpack with
          | WT_CELL_KEY_OVFL | WT_CELL_VALUE_OVFL =>
              Some (off_addr unpack, off_size unpack)
          | _ => None
          end) cells.

(** The overflow pages the walk reads for a page. *)
Definition page_overflow_extents (page : WT_PAGE) : list extent :=
  match type page with
  | WT_PAGE_COL_VAR | WT_PAGE_ROW_INT | WT_PAGE_ROW_LEAF =>
      match page_dsk page with
      | Some cells => overflow_extents cells
      | None => []
      end
  | _ => []
  end.

(** The extents the walk of a tree charges, in the order of the walk: the
    page, the overflow pages of its cells, the subtrees of its children. *)
Fixpoint tree_extents (ref : WT_REF) : list extent :=
  match ref with
  | mkREF addr size (mkPAGE pa dk u) =>
      (addr, size) :: page_overflow_extents (mkPAGE pa dk u) ++
      match u with
      | COL_INT _ t =>
          (fix go (l : list WT_COL_REF) : list extent :=
             match l with
             | [] => []
             | mkCOL_REF _ r :: l' => tree_extents r ++ go l'
             end) t
      | ROW_INT t =>
          (fix go (l : list WT_ROW_REF) : list extent :=
             match l with
             | [] => []
             | mkROW_REF _ r :: l' => tree_extents r ++ go l'
             end) t
      | _ => []
      end
  end.

(** The extents of the free list. *)
Definition free_extents (btree : WT_BTREE) : list extent :=
  map (fun fe => (fe_addr fe, fe_size fe)) (freeqa btree).

(** The pages of a tree in the order of the walk: a page before the
    subtrees of its children. *)
Fixpoint tree_pages (ref : WT_REF) : list WT_PAGE :=
  match ref with
  | mkREF _ _ (mkPAGE pa dk u) =>
      mkPAGE pa dk u ::
      match u with
      | COL_INT _ t =>
          (fix go (l : list WT_COL_REF) : list WT_PAGE :=
             match l with
             | [] => []
             | mkCOL_REF _ r :: l' => tree_pages r ++ go l'
             end) t
      | ROW_INT t =>
          (fix go (l : list WT_ROW_REF) : list WT_PAGE :=
             match l with
             | [] => []
             | mkROW_REF _ r :: l' => tree_pages r ++ go l'
             end) t
      | _ => []
      end
  end.

(** The page counter after [k] more pages were counted from [fcnt]. *)
Definition fcnt_after (fcnt : Z) (k : nat) : Z :=
  match k with
  | O => fcnt
  | S _ => wrap64 (fcnt + Z.of_nat k)
  end.

(** The state [vs'] is [vs] after [k] pages were counted and the extents
    [exts] charged to the frag-map, all with success, and no message
    added. *)
Definition charges_to (allocsize : Z) (exts : list extent) (k : nat)
    (vs vs' : WT_VSTUFF) : Prop :=
  errx vs' = errx vs /\
  charge_list allocsize (fragbits vs) exts = Some (fragbits vs') /\
  fcnt vs' = fcnt_after (fcnt vs) k /\
  progress vs' = progress vs ++ progress_ticks (fcnt vs) k.

(** A step that, when it returns 0, has counted [k] pages and charged the
    extents [exts]. *)
Definition ok_charges (allocsize : Z) (exts : list extent) (k : nat)
    (f : verify_fn) : Prop :=
  forall vs vs', f vs = (0, vs') -> charges_to allocsize exts k vs vs'.

(** The state in which [__verify_int] enters the walk: the frag-map
    allocated with all bits clear. *)
Definition verify_start (btree : WT_BTREE) (dumpfile : Z) : WT_VSTUFF :=
  let n := wrap32 (WT_OFF_TO_ADDR btree (file_size btree)) in
  set_fragbits (bit_alloc n)
    (set_frags n (set_max_addr WT_ADDR_INVALID (vstuff_clear dumpfile))).

(** The number of set bits among the first [n] bits of a frag-map. *)
Definition set_count (bits : bitstr_t) (n : Z) : Z :=
  sum_Z (fun i => Z.b2z (bit_test bits i)) (seqZ 0 n).

(** A file of five fragments that verifies: a column-store internal page at
    fragment 0, a fixed-length leaf of 100 records at fragment 1, a
    variable-length leaf at fragment 2 whose cell has its value on the
    overflow page at fragment 3, and fragment 4 on the free list. *)
Definition sample_full_btree : WT_BTREE :=
  mkBTREE 512 (512 + 5 * 512) [mkFREE 4 512]
    (mkREF 0 512
       (mkPAGE 0 None
          (COL_INT 1
             [mkCOL_REF 1 (mkREF 1 512 (mkPAGE 1 None (COL_FIX 1 100)));
              mkCOL_REF 101
                (mkREF 2 512
                   (mkPAGE 2 (Some [mkUNPACK WT_CELL_VALUE_OVFL 2 3 512])
                      (COL_VAR 101
                         [mkCOL (Some (mkUNPACK WT_CELL_VALUE_OVFL 2 3 512)) [];
                          mkCOL None []])))])))
    compare_lex.

(** ** bt_stat.c: the other pages *)

(** The counters of [WT_BTREE_STATS] that [__stat_page] and the functions
    it calls write, all [uint64_t]: a count for each kind of page,
    [file_item_total_key], and in [file_item] the two counters above. *)
Record WT_FILE_STATS : Type := mkFILE_STATS {
  file_col_fix : Z;
  file_col_internal : Z;
  file_col_variable : Z;
  file_overflow : Z;
  file_row_internal : Z;
  file_row_leaf : Z;
  file_item_total_key : Z;
  file_item : WT_BTREE_STATS
}.

Definition set_file_item (it : WT_BTREE_STATS) (s : WT_FILE_STATS)
  : WT_FILE_STATS :=
  mkFILE_STATS (file_col_fix s) (file_col_internal s) (file_col_variable s)
    (file_overflow s) (file_row_internal s) (file_row_leaf s)
    (file_item_total_key s) it.

(** Modelled from the spec: the macro [WT_STAT_INCR], which is not part of
    the sources, for each of the page counts ("reports, per page kind,
    counts of pages"), and [WT_STAT_INCRV] for [file_item_total_key]; the
    counters are 64-bit and wrap. *)
Definition INCR_col_fix (s : WT_FILE_STATS) : WT_FILE_STATS :=
  mkFILE_STATS (wrap64 (file_col_fix s + 1)) (file_col_internal s)
    (file_col_variable s) (file_overflow s) (file_row_internal s)
    (file_row_leaf s) (file_item_total_key s) (file_item s).
Definition INCR_col_internal (s : WT_FILE_STATS) : WT_FILE_STATS :=
  mkFILE_STATS (file_col_fix s) (wrap64 (file_col_internal s + 1))
    (file_col_variable s) (file_overflow s) (file_row_internal s)
    (file_row_leaf s) (file_item_total_key s) (file_item s).
Definition INCR_col_variable (s : WT_FILE_STATS) : WT_FILE_STATS :=
  mkFILE_STATS (file_col_fix s) (file_col_internal s)
    (wrap64 (file_col_variable s + 1)) (file_overflow s) (file_row_internal s)
    (file_row_leaf s) (file_item_total_key s) (file_item s).
Definition INCR_overflow (s : WT_FILE_STATS) : WT_FILE_STATS :=
  mkFILE_STATS (file_col_fix s) (file_col_internal s) (file_col_variable s)
    (wrap64 (file_overflow s + 1)) (file_row_internal s) (file_row_leaf s)
    (file_item_total_key s) (file_item s).
Definition INCR_row_internal (s : WT_FILE_STATS) : WT_FILE_STATS :=
  mkFILE_STATS (file_col_fix s) (file_col_internal s) (file_col_variable s)
    (file_overflow s) (wrap64 (file_row_internal s + 1)) (file_row_leaf s)
    (file_item_total_key s) (file_item s).
Definition INCR_row_leaf (s : WT_FILE_STATS) : WT_FILE_STATS :=
  mkFILE_STATS (file_col_fix s) (file_col_internal s) (file_col_variable s)
    (file_overflow s) (file_row_internal s) (wrap64 (file_row_leaf s + 1))
    (file_item_total_key s) (file_item s).
Definition INCRV_total_key (v : Z) (s : WT_FILE_STATS) : WT_FILE_STATS :=
  mkFILE_STATS (file_col_fix s) (file_col_internal s) (file_col_variable s)
    (file_overflow s) (file_row_internal s) (file_row_leaf s)
    (wrap64 (file_item_total_key s + v)) (file_item s).

(** Modelled from the spec: the macros [WT_ROW_INSERT_SMALLEST],
    [WT_ROW_UPDATE] and [WT_ROW_INSERT], which are not part of the sources:
    the "smallest" insert list of a row-store leaf, and for the slot at an
    index of its array the "update head" ([None] for NULL) and the
    "per-slot insert list", in the order of the [next] pointers. *)
Record WT_ROW_MODS : Type := mkROW_MODS {
  WT_ROW_INSERT_SMALLEST : WT_PAGE -> list WT_INSERT;
  WT_ROW_UPDATE : WT_PAGE -> nat -> option WT_UPDATE;
  WT_ROW_INSERT : WT_PAGE -> nat -> list WT_INSERT
}.

(** [__stat_page_col_fix]: stat a WT_PAGE_COL_FIX page. *)
Definition __stat_page_col_fix (page : WT_PAGE) (stats : WT_FILE_STATS)
  : Z * WT_FILE_STATS :=
  (0, set_file_item (INCRV_total_data (entries page) (file_item stats)) stats).

(** The loops [for (ins = ...; ins != NULL; ins = ins->next)] of
    [__stat_page_row_leaf], on the 32-bit counter [cnt]. *)
Definition stat_row_inserts (cnt : Z) (l : list WT_INSERT) : Z :=
  foldl (fun cnt ins =>
           if negb (WT_UPDATE_DELETED_ISSET (upd ins)) then wrap32 (cnt + 1)
           else cnt) cnt l.

(** The body of the [WT_ROW_FOREACH] loop, for the slot at index [slot]. *)
Definition stat_row_slot (M : WT_ROW_MODS) (page : WT_PAGE) (cnt : Z)
    (slot : nat) : Z :=
  let cnt :=
    match WT_ROW_UPDATE M page slot with
    | None => wrap32 (cnt + 1)
    | Some upd =>
        if negb (WT_UPDATE_DELETED_ISSET upd) then wrap32 (cnt + 1) else cnt
    end in
  stat_row_inserts cnt (WT_ROW_INSERT M page slot).

(** [__stat_page_row_leaf]: stat a WT_PAGE_ROW_LEAF page. *)
Definition __stat_page_row_leaf (M : WT_ROW_MODS) (page : WT_PAGE)
    (stats : WT_FILE_STATS) : Z * WT_FILE_STATS :=
  let cnt := stat_row_inserts 0 (WT_ROW_INSERT_SMALLEST M page) in
  let cnt :=
    foldl (stat_row_slot M page) cnt (seq 0 (length (row_leaf_d page))) in
  let stats := INCRV_total_key cnt stats in
  let stats := set_file_item (INCRV_total_data cnt (file_item stats)) stats in
  (0, stats).

(** [WT_RET(f)] where [f] works on the statistics. *)
Definition WT_RET_stat (r : Z * WT_FILE_STATS) : Z * WT_FILE_STATS :=
  let '(ret, stats) := r in
  if negb (ret =? 0) then (ret, stats) else (0, stats).

(** [__stat_page]: stat any Btree page.  The branch [WT_ILLEGAL_FORMAT] of
    the switch, taken for a type that is none of the six, is not modelled:
    the kind of a page is read off the constructor of its union, which is
    one of the six. *)
Definition __stat_page (M : WT_ROW_MODS) (page : WT_PAGE)
    (stats : WT_FILE_STATS) : Z * WT_FILE_STATS :=
  match type page with
  | WT_PAGE_COL_FIX =>
      WT_RET_stat (__stat_page_col_fix page (INCR_col_fix stats))
  | WT_PAGE_COL_INT => (0, INCR_col_internal stats)
  | WT_PAGE_COL_VAR =>
      let stats := INCR_col_variable stats in
      WT_RET_stat
        (let '(ret, it) := __stat_page_col_var page (file_item stats) in
         (ret, set_file_item it stats))
  | WT_PAGE_OVFL => (0, INCR_overflow stats)
  | WT_PAGE_ROW_INT => (0, INCR_row_internal stats)
  | WT_PAGE_ROW_LEAF =>
      WT_RET_stat (__stat_page_row_leaf M page (INCR_row_leaf stats))
  end.

(** Modelled from the spec: the walk [__wt_tree_walk] of [__stat_init],
    which is not part of the sources and "traverses the same tree": here
    [__stat_page] called on the pages [ps] one after the other, up to the
    first call that does not return 0. *)
Fixpoint stat_pages (M : WT_ROW_MODS) (ps : list WT_PAGE)
    (stats : WT_FILE_STATS) : Z * WT_FILE_STATS :=
  match ps with
  | [] => (0, stats)
  | page :: ps' =>
      let '(ret, stats) := __stat_page M page stats in
      if negb (ret =? 0) then (ret, stats) else stat_pages M ps' stats
  end.

#[global] Instance page_type_eq_dec : EqDecision page_type.
Proof. solve_decision. Defined.

(** The count of the pages of a kind. *)
Definition page_count (ty : page_type) (s : WT_FILE_STATS) : Z :=
  match ty with
  | WT_PAGE_COL_FIX => file_col_fix s
  | WT_PAGE_COL_INT => file_col_internal s
  | WT_PAGE_COL_VAR => file_col_variable s
  | WT_PAGE_OVFL => file_overflow s
  | WT_PAGE_ROW_INT => file_row_internal s
  | WT_PAGE_ROW_LEAF => file_row_leaf s
  end.

(** The live entries of a row-store leaf: the inserts that are no
    tombstones, and the slots whose update is absent or no tombstone. *)
Definition insert_live (ins : WT_INSERT) : Z :=
  Z.b2z (negb (WT_UPDATE_DELETED_ISSET (upd ins))).

Definition row_slot_live (M : WT_ROW_MODS) (page : WT_PAGE) (slot : nat) : Z :=
  match WT_ROW_UPDATE M page slot with
  | None => 1
  | Some upd => Z.b2z (negb (WT_UPDATE_DELETED_ISSET upd))
  end + sum_Z insert_live (WT_ROW_INSERT M page slot).

Definition row_leaf_live (M : WT_ROW_MODS) (page : WT_PAGE) : Z :=
  sum_Z insert_live (WT_ROW_INSERT_SMALLEST M page) +
  sum_Z (row_slot_live M page) (seq 0 (length (row_leaf_d page))).

(** The counters as allocated. *)
Definition stats_zero : WT_FILE_STATS :=
  mkFILE_STATS 0 0 0 0 0 0 0 (mkSTATS 0 0).

(** A row-store leaf of three slots: the first updated by a tombstone, the
    second with two inserts, one of them a tombstone, and an insert before
    the first slot. *)
Definition sample_row_mods : WT_ROW_MODS :=
  mkROW_MODS
    (fun _ => [mkINSERT (mkUPDATE false)])
    (fun _ slot => match slot with
                   | O => Some (mkUPDATE true)
                   | _ => None
                   end)
    (fun _ slot => match slot with
                   | 1%nat => [mkINSERT (mkUPDATE false); mkINSERT (mkUPDATE true)]
                   | _ => []
                   end).

(** ** bt_stat.c: the statistics cursor *)

(** An entry of the array [btree->stats] as the cursor reads it: the
    description ([None] for NULL, which ends the array) and the value. *)
Record WT_STATS : Type := mkWT_STATS {
  desc : option string;
  v : Z                    (* uint64_t *)
}.

(** The part of [WT_CURSOR] the statistics cursor writes: the two buffers
    and the two flags [WT_CURSTD_KEY_SET] and [WT_CURSTD_VALUE_SET]. *)
Record WT_CURSOR : Type := mkCURSOR {
  key : WT_ITEM;
  value : Z;
  WT_CURSTD_KEY_SET : bool;
  WT_CURSTD_VALUE_SET : bool
}.

(** [WT_CURSOR_STAT]; [stats] is NULL ([None]) or the index of the entry of
    [btree->stats] it points to. *)
Record WT_CURSOR_STAT : Type := mkCURSOR_STAT {
  iface : WT_CURSOR;
  stats : option nat;
  notfound : bool
}.

(** The collaborators of the cursor: the code [WT_NOTFOUND], the return
    codes of the two calls of [__wt_buf_set], and [__stat_init], which
    gives its return code and the array [btree->stats] it leaves: the
    layout of the array and the walk [__stat_init] calls are in files that
    are not part of the sources. *)
Record WT_STAT_ENGINE : Type := mkSTAT_ENGINE {
  WT_NOTFOUND : Z;
  __stat_init : list WT_STATS -> Z * list WT_STATS;
  buf_set_key : string -> Z;
  buf_set_value : Z -> Z
}.

(** [__wt_btree_stat_next]: return next entry in a Btree statistics cursor.
    The result is the return code, the array [btree->stats] and the
    cursor; [None] when the cursor reads past the end of the array. *)
Definition __wt_btree_stat_next (SE : WT_STAT_ENGINE)
    (btree_stats : list WT_STATS) (cst : WT_CURSOR_STAT)
  : option (Z * list WT_STATS * WT_CURSOR_STAT) :=
  if notfound cst then Some (WT_NOTFOUND SE, btree_stats, cst) else
  let '(ret, btree_stats, cst) :=
    match stats cst with
    | None =>
        let '(ret, btree_stats) := __stat_init SE btree_stats in
        if negb (ret =? 0) then (ret, btree_stats, cst)
        else (0, btree_stats, mkCURSOR_STAT (iface cst) (Some O) (notfound cst))
    | Some _ => (0, btree_stats, cst)
    end in
  if negb (ret =? 0) then Some (ret, btree_stats, cst) else
  (* s = cst->stats++ *)
  let i := default O (stats cst) in
  let cst := mkCURSOR_STAT (iface cst) (Some (S i)) (notfound cst) in
  match btree_stats !! i with
  | None => None
  | Some s =>
      match desc s with
      | None =>
          Some (WT_NOTFOUND SE, btree_stats,
                mkCURSOR_STAT (iface cst) (stats cst) true)
      | Some d =>
          let ret := buf_set_key SE d in
          if negb (ret =? 0) then Some (ret, btree_stats, cst) else
          let cursor := iface cst in
          let cursor :=
            mkCURSOR d (value cursor) true (WT_CURSTD_VALUE_SET cursor) in
          let cst := mkCURSOR_STAT cursor (stats cst) (notfound cst) in
          let ret := buf_set_value SE (v s) in
          if negb (ret =? 0) then Some (ret, btree_stats, cst) else
          let cursor :=
            mkCURSOR (key cursor) (v s) (WT_CURSTD_KEY_SET cursor) true in
          Some (0, btree_stats, mkCURSOR_STAT cursor (stats cst) (notfound cst))
      end
  end.

(** [__wt_btree_stat_first]: initialize a walk of a Btree statistics
    cursor. *)
Definition __wt_btree_stat_first (SE : WT_STAT_ENGINE)
    (btree_stats : list WT_STATS) (cst : WT_CURSOR_STAT)
  : option (Z * list WT_STATS * WT_CURSOR_STAT) :=
  __wt_btree_stat_next SE btree_stats (mkCURSOR_STAT (iface cst) None false).

(** [n] calls of [__wt_btree_stat_next] in a row: the code of each call
    and the cursor it leaves. *)
Fixpoint stat_nexts (SE : WT_STAT_ENGINE) (n : nat)
    (btree_stats : list WT_STATS) (cst : WT_CURSOR_STAT)
  : option (list (Z * WT_CURSOR)) :=
  match n with
  | O => Some []
  | S n' =>
      match __wt_btree_stat_next SE btree_stats cst with
      | None => None
      | Some (ret, btree_stats, cst) =>
          match stat_nexts SE n' btree_stats cst with
          | None => None
          | Some l => Some ((ret, iface cst) :: l)
          end
      end
  end.

(** [__wt_btree_stat_first], then [n] calls of [__wt_btree_stat_next]. *)
Definition stat_scan (SE : WT_STAT_ENGINE) (n : nat)
    (btree_stats : list WT_STATS) (cst : WT_CURSOR_STAT)
  : option (list (Z * WT_CURSOR)) :=
  match __wt_btree_stat_first SE btree_stats cst with
  | None => None
  | Some (ret, btree_stats, cst) =>
      match stat_nexts SE n btree_stats cst with
      | None => None
      | Some l => Some ((ret, iface cst) :: l)
      end
  end.

(** The code with which an entry that is not the last is delivered: that
    of the first of the two calls of [__wt_buf_set] that fails, 0 when
    none does. *)
Definition entry_code (SE : WT_STAT_ENGINE) (s : WT_STATS) : Z :=
  match desc s with
  | None => WT_NOTFOUND SE
  | Some d =>
      if negb (buf_set_key SE d =? 0) then buf_set_key SE d
      else buf_set_value SE (v s)
  end.

(** A statistics engine whose [__stat_init] leaves two entries and the end
    of the array, and whose buffers cannot hold the key [pages]. *)
Definition sample_stat_engine : WT_STAT_ENGINE :=
  mkSTAT_ENGINE (-31803)
    (fun _ => (0, [mkWT_STATS (Some "pages"%string) 7;
                   mkWT_STATS (Some "items"%string) 42;
                   mkWT_STATS None 0]))
    (fun d => if String.eqb d "pages" then 12 else 0)
    (fun _ => 0).

(** ** [__wt_dumpfile] *)

Definition set_dumpfile (d : Z) (vs : WT_VSTUFF) : WT_VSTUFF :=
  mkVSTUFF (frags vs) (fragbits vs) (record_total vs) (max_key vs) (max_addr vs)
           (fcnt vs) d (errx vs) (progress vs).

(** [__wt_dumpfile]: dump a file in debugging mode.  Under HAVE_DIAGNOSTIC
    the result of [__verify_int(session, 1)]; otherwise the code
    [EOPNOTSUPP], a parameter since its value is in a system header, with
    the message sent to [__wt_errx]. *)
Definition __wt_dumpfile (E : WT_ENGINE) (btree : WT_BTREE) (EOPNOTSUPP : Z)
  : option (Z * WT_VSTUFF) + Z * string :=
  if HAVE_DIAGNOSTIC E then inl (__verify_int E btree 1)
  else inr (EOPNOTSUPP,
            "the WiredTiger library was not built in diagnostic mode"%string).

(** A step of the verifier that neither reads nor writes [dumpfile]. *)
Definition dump_blind (f : verify_fn) : Prop :=
  forall d vs, f (set_dumpfile d vs) =
               (fst (f vs), set_dumpfile d (snd (f vs))).

(** An engine built with HAVE_DIAGNOSTIC whose collaborators all succeed. *)
Definition sample_diag_engine : WT_ENGINE :=
  mkENGINE (-31802) ltac:(discriminate) true
           (fun _ => 0) (fun _ => 0) (fun _ _ => 0) (fun _ _ => 0)
           (fun _ => 0) (fun _ _ => 0) (fun _ _ => 0) (fun _ => 0)
           (fun _ => 0).

(** The state in which the verification of [sample_full_btree] ends. *)
Definition sample_full_vs : WT_VSTUFF :=
  mkVSTUFF 5 [true; true; true; true; true] 103 EmptyString WT_ADDR_INVALID
           3 0 [] [3].

(** A file of 2^31 fragments of 512 bytes whose tree is [sample_leaf]. *)
Definition sample_large_btree : WT_BTREE :=
  mkBTREE 512 (512 + 2 ^ 31 * 512) [] sample_leaf compare_lex.

(** A statistics cursor before its first use. *)
Definition sample_cursor : WT_CURSOR_STAT :=
  mkCURSOR_STAT (mkCURSOR EmptyString 0 false false) None false.

(** ** The key-order monitor along a walk *)

(** What the walk does to [max_key]: at a child of a row-store internal
    page that is not the first, it compares the key of the child with
    [max_key] and stores it; at a row-store leaf it stores the last key of
    the leaf. *)
Inductive key_event : Type :=
| Fence (k : WT_ITEM)
| Leaf (k : WT_ITEM).

(** The last key of a row-store leaf. *)
Definition leaf_last_key (d : list WT_ROW) : WT_ITEM :=
  match last d with
  | Some rip => row_key rip
  | None => EmptyString
  end.

(** The events of the walk of a tree, in order. *)
Fixpoint key_events (ref : WT_REF) : list key_event :=
  match ref with
  | mkREF _ _ (mkPAGE _ _ u) =>
      match u with
      | ROW_LEAF d => [Leaf (leaf_last_key d)]
      | ROW_INT t =>
          (fix go (entry : Z) (l : list WT_ROW_REF) : list key_event :=
             match l with
             | [] => []
             | mkROW_REF k r :: l' =>
                 (if entry =? 0 then [] else [Fence k]) ++
                 key_events r ++ go (wrap32 (entry + 1)) l'
             end) 0 t
      | COL_INT _ t =>
          (fix go (l : list WT_COL_REF) : list key_event :=
             match l with
             | [] => []
             | mkCOL_REF _ r :: l' => key_events r ++ go l'
             end) t
      | _ => []
      end
  end.

(** The events of the children of a row-store internal page, from the
    child of index [entry]. *)
Fixpoint row_events (entry : Z) (t : list WT_ROW_REF) : list key_event :=
  match t with
  | [] => []
  | rref :: t' =>
      (if entry =? 0 then [] else [Fence (rref_key rref)]) ++
      key_events (rref_ref rref) ++ row_events (wrap32 (entry + 1)) t'
  end.

(** Every key that is compared sorts strictly above the key stored before
    it, from the key [m]. *)
Fixpoint monitor_ok (compare : WT_ITEM -> WT_ITEM -> Z) (m : WT_ITEM)
    (evs : list key_event) : Prop :=
  match evs with
  | [] => True
  | Fence k :: evs' => 0 < compare k m /\ monitor_ok compare k evs'
  | Leaf k :: evs' => monitor_ok compare k evs'
  end.

(** The key stored last, [m] when there is none. *)
Fixpoint monitor_end (m : WT_ITEM) (evs : list key_event) : WT_ITEM :=
  match evs with
  | [] => m
  | Fence k :: evs' => monitor_end k evs'
  | Leaf k :: evs' => monitor_end k evs'
  end.

(** A row-store leaf has a slot, and fewer than 2^32 of them. *)
Definition leaf_sized (page : WT_PAGE) : Prop :=
  match page_u page with
  | ROW_LEAF d => d <> [] /\ Z.of_nat (length d) < 2 ^ 32
  | _ => True
  end.

(** What the walk of a tree that returned 0 did to [max_key]. *)
Definition fences_sound (E : WT_ENGINE) (btree : WT_BTREE) (ref : WT_REF)
  : Prop :=
  forall parent_recno vs vs',
    Forall leaf_sized (tree_pages ref) ->
    __verify_tree E btree ref parent_recno vs = (0, vs') ->
    monitor_ok (btree_compare btree) (max_key vs) (key_events ref) /\
    max_key vs' = monitor_end (max_key vs) (key_events ref).

(** * Properties *)

#[local] Set Warnings "-clear-no-such-hyp".

(** ** The bit string *)

Lemma bit_set_length b j : length (bit_set b j) = length b.
Proof. unfold bit_set. destruct (j <? 0); [done|]. by rewrite length_insert. Qed.

Lemma bit_test_set b j i :
  bit_test (bit_set b j) i =
  if bool_decide (i = j /\ 0 <= j < Z.of_nat (length b)) then true
  else bit_test b i.
Proof.
  unfold bit_test, bit_set.
  destruct (Z.ltb_spec i 0), (Z.ltb_spec j 0); case_bool_decide as Hd;
    try lia; try done.
  - destruct Hd as [-> Hd].
    rewrite list_lookup_insert_eq; [done|lia].
  - destruct (decide (i = j)) as [->|Hne].
    + rewrite list_insert_ge; [done|lia].
    + rewrite list_lookup_insert_ne; [done|lia].
Qed.

Lemma bit_test_oob b i : Z.of_nat (length b) <= i -> bit_test b i = false.
Proof.
  intros H. unfold bit_test. destruct (i <? 0); [done|].
  rewrite lookup_ge_None_2; [done|lia].
Qed.

Lemma bit_test_neg b i : i < 0 -> bit_test b i = false.
Proof. intros H. unfold bit_test. by destruct (Z.ltb_spec i 0); [|lia]. Qed.

Lemma foldl_bit_set_length l : forall b, length (foldl bit_set b l) = length b.
Proof.
  induction l as [|j l IH]; intros b; simpl; [done|].
  by rewrite IH, bit_set_length.
Qed.

Lemma foldl_bit_set_test l : forall b i,
  bit_test (foldl bit_set b l) i =
  if bool_decide (i ∈ l /\ 0 <= i < Z.of_nat (length b)) then true
  else bit_test b i.
Proof.
  induction l as [|j l IH]; intros b i; simpl; [done|].
  rewrite IH, bit_set_length, bit_test_set.
  assert (Hcons : i ∈ j :: l <-> i = j \/ i ∈ l) by apply elem_of_cons.
  destruct (bit_test b i); repeat case_bool_decide; try done; exfalso;
    naive_solver lia.
Qed.

Lemma bit_nset_length b start stop : length (bit_nset b start stop) = length b.
Proof. apply foldl_bit_set_length. Qed.

Lemma bit_test_nset b start stop i :
  bit_test (bit_nset b start stop) i =
  if bool_decide (start <= i <= stop /\ 0 <= i < Z.of_nat (length b)) then true
  else bit_test b i.
Proof.
  unfold bit_nset. rewrite foldl_bit_set_test.
  assert (Hseq : i ∈ seqZ start (stop - start + 1) <-> start <= i <= stop).
  { rewrite elem_of_seqZ. lia. }
  repeat case_bool_decide; try done; exfalso; tauto.
Qed.

(** ** [__verify_addfrag] *)

Lemma addfrag_test_true bits addr n : forall i,
  addfrag_test bits addr i n = true <->
  exists j, i <= j < i + Z.of_nat n /\ bit_test bits (wrap32 (addr + j)) = true.
Proof.
  induction n as [|n IH]; intros i; simpl.
  - split; [done|]. intros (j & ? & _). lia.
  - destruct (bit_test bits (wrap32 (addr + i))) eqn:Hb.
    + split; [|done]. intros _. exists i. split; [lia|done].
    + rewrite IH. split; intros (j & Hj & Hb').
      * exists j. split; [lia|done].
      * exists j. split; [|done].
        destruct (decide (j = i)) as [->|]; [congruence|lia].
Qed.

Lemma addfrag_test_false bits addr n i :
  addfrag_test bits addr i n = false <->
  forall j, i <= j < i + Z.of_nat n -> bit_test bits (wrap32 (addr + j)) = false.
Proof.
  rewrite <- not_true_iff_false, addfrag_test_true. split.
  - intros H j Hj. apply not_true_iff_false. intros Hb. apply H. eauto.
  - intros H (j & Hj & Hb). rewrite H in Hb; done.
Qed.

Lemma wrap32_small z : 0 <= z < 2 ^ 32 -> wrap32 z = z.
Proof. intros H. unfold wrap32. by apply Z.mod_small. Qed.

Lemma wrap64_small z : 0 <= z < 2 ^ 64 -> wrap64 z = z.
Proof. intros H. unfold wrap64. by apply Z.mod_small. Qed.

Section AddFrag.

Variable E : WT_ENGINE.
Variable btree : WT_BTREE.

(** The two outcomes of [__verify_addfrag]: the error with its message and
    nothing else changed, or success with at most [fragbits] changed. *)
Lemma verify_addfrag_cases addr size vs :
  let k := size / allocsize btree in
  (addfrag_test (fragbits vs) addr 0 (Z.to_nat k) = true /\
   __verify_addfrag E btree addr size vs =
     (WT_ERROR E, __wt_errx (Msg_already_verified addr) vs)) \/
  (addfrag_test (fragbits vs) addr 0 (Z.to_nat k) = false /\
   exists bits, __verify_addfrag E btree addr size vs = (0, set_fragbits bits vs) /\
     bits = if 0 <? k then bit_nset (fragbits vs) addr (wrap32 (addr + (k - 1)))
            else fragbits vs).
Proof.
  intros k. unfold __verify_addfrag. fold k.
  destruct (addfrag_test _ _ _ _); [left; done|right].
  split; [done|]. destruct (0 <? k); eexists; split; try done.
  by destruct vs.
Qed.


(** C10. When [__verify_addfrag] returns an error the frag-map is as it
    was before the call: every bit of the range is tested before any bit is
    set.  The state differs from the one before the call by the message
    only. *)
Theorem verify_addfrag_error_atomic (addr size : Z) (vs : WT_VSTUFF) :
  fst (__verify_addfrag E btree addr size vs) <> 0 ->
  fragbits (snd (__verify_addfrag E btree addr size vs)) = fragbits vs /\
  __verify_addfrag E btree addr size vs =
    (WT_ERROR E, __wt_errx (Msg_already_verified addr) vs).
Proof.
  intros Hret.
  destruct (verify_addfrag_cases addr size vs) as [[_ Hr]|[_ (bits & Hr & _)]];
    rewrite Hr in *; simpl in *; done.
Qed.

End AddFrag.

(** ** Return-code plumbing *)

Lemma WT_RET_ok a k vs vs' : a vs = (0, vs') -> WT_RET a k vs = k vs'.
Proof. intros H. unfold WT_RET. by rewrite H. Qed.

Lemma WT_RET_err a k vs r vs' : a vs = (r, vs') -> r <> 0 -> WT_RET a k vs = (r, vs').
Proof.
  intros H Hr. unfold WT_RET. rewrite H. by destruct (Z.eqb_spec r 0).
Qed.

Lemma WT_RET_call r k vs :
  WT_RET (call r) k vs = if r =? 0 then k vs else (r, vs).
Proof. done. Qed.

(** A sequence succeeds only when its first part does. *)
Lemma WT_RET_inv a k vs vs'' :
  WT_RET a k vs = (0, vs'') -> exists vs', a vs = (0, vs') /\ k vs' = (0, vs'').
Proof.
  unfold WT_RET. destruct (a vs) as [r vs']. destruct (Z.eqb_spec r 0) as [->|Hr].
  - intros H. by exists vs'.
  - intros [= -> ->]. done.
Qed.

(** ** The key-order monitor *)

Section KeyOrder.

Variable E : WT_ENGINE.
Variable btree : WT_BTREE.

Lemma row_slot_head d rip : head d = Some rip -> row_slot d 0 = rip.
Proof. destruct d; [done|]. by intros [= ->]. Qed.

Lemma row_slot_last d rip :
  last d = Some rip -> Z.of_nat (length d) < 2 ^ 32 ->
  row_slot d (wrap32 (Z.of_nat (length d) - 1)) = rip.
Proof.
  intros Hlast Hlen. unfold row_slot.
  assert (length d <> 0%nat) by (by destruct d).
  rewrite wrap32_small by lia.
  rewrite last_lookup in Hlast.
  replace (Z.to_nat (Z.of_nat (length d) - 1)) with (pred (length d)) by lia.
  by rewrite Hlast.
Qed.

(** The outcomes of the row-leaf update of the key-order monitor. *)
Lemma row_leaf_key_order_cases (page : WT_PAGE) (d : list WT_ROW)
    (rip0 ripn : WT_ROW) (vs : WT_VSTUFF) :
  page_u page = ROW_LEAF d ->
  head d = Some rip0 ->
  last d = Some ripn ->
  Z.of_nat (length d) < 2 ^ 32 ->
  let r := __verify_row_leaf_key_order E btree page vs in
  (max_addr vs = WT_ADDR_INVALID ->
   __wt_scr_alloc E 0 = 0 -> __wt_row_key E page rip0 = 0 ->
   (btree_compare btree (row_key rip0) (max_key vs) < 0 ->
    r = (WT_ERROR E,
         __wt_errx (Msg_leaf_key_order (WT_PADDR page) (max_addr vs)) vs) /\
    max_key (snd r) = max_key vs /\ max_addr (snd r) = max_addr vs) /\
   (0 <= btree_compare btree (row_key rip0) (max_key vs) ->
    __wt_row_key E page ripn = 0 -> fst r = 0)) /\
  (max_addr vs = WT_ADDR_INVALID -> fst r = 0 ->
   0 <= btree_compare btree (row_key rip0) (max_key vs)) /\
  (max_addr vs <> WT_ADDR_INVALID ->
   forall btree', __verify_row_leaf_key_order E btree' page vs = r) /\
  (fst r = 0 ->
   snd r = set_max_key (row_key ripn) (set_max_addr (WT_PADDR page) vs) /\
   max_key (snd r) = row_key ripn /\ max_addr (snd r) = WT_PADDR page).
Proof.
  intros Hu Hhd Hlast Hlen r. subst r.
  unfold __verify_row_leaf_key_order, row_leaf_d, entries. rewrite Hu.
  rewrite (row_slot_head d rip0), (row_slot_last d ripn) by done.
  rewrite !WT_RET_call.
  destruct (Z.eqb_spec (max_addr vs) WT_ADDR_INVALID) as [Hinv|Hinv];
    (split; [|split; [|split]]); try done.
  - intros _ -> ->; simpl. split.
    + intros Hlt. by destruct (Z.ltb_spec (btree_compare btree (row_key rip0) (max_key vs)) 0); [|lia].
    + intros Hge ->. by destruct (Z.ltb_spec (btree_compare btree (row_key rip0) (max_key vs)) 0); [lia|].
  - intros _. destruct (Z.eqb_spec (__wt_scr_alloc E 0) 0); [|done].
    destruct (Z.eqb_spec (__wt_row_key E page rip0) 0); [|done].
    destruct (Z.ltb_spec (btree_compare btree (row_key rip0) (max_key vs)) 0);
      simpl; [intros Herr; by destruct (WT_ERROR_nonzero E)|lia].
  - destruct (Z.eqb_spec (__wt_scr_alloc E 0) 0); [|done].
    destruct (Z.eqb_spec (__wt_row_key E page rip0) 0); [|done].
    destruct (Z.ltb_spec (btree_compare btree (row_key rip0) (max_key vs)) 0);
      simpl; [intros Herr; by destruct (WT_ERROR_nonzero E)|].
    by destruct (Z.eqb_spec (__wt_row_key E page ripn) 0).
  - by destruct (Z.eqb_spec (__wt_row_key E page ripn) 0).
Qed.

(** A leaf entered with [max_addr] other than [WT_ADDR_INVALID]: the last
    key is built and stored, and the call returns 0. *)
Lemma row_leaf_key_order_entered (page : WT_PAGE) (d : list WT_ROW)
    (ripn : WT_ROW) (vs : WT_VSTUFF) :
  page_u page = ROW_LEAF d ->
  last d = Some ripn ->
  Z.of_nat (length d) < 2 ^ 32 ->
  max_addr vs <> WT_ADDR_INVALID ->
  __wt_row_key E page ripn = 0 ->
  __verify_row_leaf_key_order E btree page vs =
    (0, set_max_key (row_key ripn) (set_max_addr (WT_PADDR page) vs)).
Proof.
  intros Hu Hlast Hlen Hinv Hkey.
  unfold __verify_row_leaf_key_order, row_leaf_d, entries. rewrite Hu.
  rewrite (row_slot_last d ripn) by done.
  destruct (Z.eqb_spec (max_addr vs) WT_ADDR_INVALID) as [|_]; [done|].
  by rewrite Hkey.
Qed.

(** The first child of a row-store internal page is visited with no key
    comparison, whatever its key. *)
Lemma row_int_loop_entry0 rec page key key' ref rrefs vs :
  row_int_loop E btree rec page 0 (mkROW_REF key ref :: rrefs) vs =
  row_int_loop E btree rec page 0 (mkROW_REF key' ref :: rrefs) vs.
Proof. done. Qed.

End KeyOrder.

(** ** [__verify_checkfrag] *)

Lemma bit_ffc_spec bits n :
  0 <= n <= Z.of_nat (length bits) ->
  (bit_ffc bits n = -1 /\ forall i, 0 <= i < n -> bit_test bits i = true) \/
  (0 <= bit_ffc bits n < n /\ bit_test bits (bit_ffc bits n) = false /\
   forall i, 0 <= i < bit_ffc bits n -> bit_test bits i = true).
Proof.
  intros Hn. unfold bit_ffc.
  destruct (list_find _ _) as [[i b]|] eqn:Hf.
  - right. apply list_find_Some in Hf as (Hl & Hb & Hbefore).
    apply lookup_take_Some in Hl as [Hl Hi]. subst b.
    split; [lia|]. split.
    + unfold bit_test. destruct (Z.ltb_spec (Z.of_nat i) 0); [lia|].
      by rewrite Nat2Z.id, Hl.
    + intros j Hj. unfold bit_test. destruct (Z.ltb_spec j 0); [lia|].
      destruct (bits !! Z.to_nat j) as [[|]|] eqn:Hlj; [done| |].
      * exfalso. apply (Hbefore (Z.to_nat j) false); [|lia|done].
        rewrite lookup_take_lt; [done|lia].
      * apply lookup_ge_None in Hlj. apply lookup_lt_Some in Hl. lia.
  - left. split; [done|]. intros i Hi.
    apply list_find_None in Hf. rewrite Forall_lookup in Hf.
    unfold bit_test. destruct (Z.ltb_spec i 0); [lia|].
    destruct (bits !! Z.to_nat i) as [[|]|] eqn:Hli; [done| |].
    + exfalso. apply (Hf (Z.to_nat i) false); [|done].
      rewrite lookup_take_lt; [done|lia].
    + apply lookup_ge_None in Hli. lia.
Qed.

(** A block of unset bits that is maximal on both sides is the only run
    that ends inside it. *)
Lemma unset_run_unique bits n s0 e0 s e :
  unset_run bits n s0 e0 -> unset_run bits n s e -> s0 <= e <= e0 ->
  (s, e) = (s0, e0).
Proof.
  intros (H0 & H0n & H0f & H0l & H0r) (H1 & H1n & H1f & H1l & H1r) He.
  assert (e = e0) as ->.
  { destruct (decide (e = e0)); [done|exfalso].
    destruct H1r as [->|Hr]; [lia|]. rewrite H0f in Hr; [done|lia]. }
  assert (s = s0) as ->; [|done].
  destruct (Z.lt_trichotomy s s0) as [Hlt|[->|Hgt]]; [exfalso|done|exfalso].
  - destruct H0l as [->|Hl]; [lia|]. rewrite H1f in Hl; [done|lia].
  - destruct H1l as [->|Hl]; [lia|]. rewrite H0f in Hl; [done|lia].
Qed.

Lemma run_msg_report E s e ret vs :
  0 <= s ->
  checkfrag_report E s e ret vs = (WT_ERROR E, __wt_errx (run_msg (s, e)) vs).
Proof.
  intros Hs. unfold checkfrag_report, run_msg; simpl.
  destruct (Z.eqb_spec s (-1)); [lia|]. by destruct (s =? e).
Qed.

Lemma errx_set_fragbits b vs : errx (set_fragbits b vs) = errx vs.
Proof. done. Qed.

Lemma fragbits_errx m vs : fragbits (__wt_errx m vs) = fragbits vs.
Proof. done. Qed.

Section CheckFrag.

Variable E : WT_ENGINE.
Variable bits0 : bitstr_t.
Variable msgs0 : list wt_msg.
Variable n : Z.

Lemma checkfrag_loop_inv fuel : forall p ffc_start ffc_end ret vs runs,
  checkfrag_inv bits0 n p ffc_start ffc_end ret (fragbits vs) runs ->
  errx vs = msgs0 ++ map run_msg runs ->
  n - p < Z.of_nat fuel ->
  checkfrag_post E bits0 msgs0 n
    (checkfrag_loop E fuel n ffc_start ffc_end ret vs).
Proof.
  induction fuel as [|fuel IH]; intros p st en ret vs runs Hinv Hmsgs Hfuel.
  { destruct Hinv as ((? & ?) & _). lia. }
  destruct Hinv as (Hp & Hlen & Hset & Hsame & Hsorted & Hrun).
  cbn [checkfrag_loop].
  destruct (bit_ffc_spec (fragbits vs) n) as [[Hffc Hall]|(Hffc & Hclear & Hbelow)];
    [lia| |].
  - (* no clear bit is left: the loop is left *)
    rewrite Hffc. cbn [Z.eqb Pos.eqb].
    assert (Hrest : forall i, p <= i < n -> bit_test bits0 i = true).
    { intros i Hi. rewrite <- Hsame by lia. apply Hall. lia. }
    destruct Hrun as [(-> & -> & -> & -> & Hpre)|(Hst & Hen & Hfalse & Hleft & Hruns)].
    + exists 0, vs, []. unfold checkfrag_report; simpl.
      split; [done|]. split; [by left|]. split; [|split; [done|split; [constructor|]]].
      * split; [done|]. intros (i & Hi & Hb). exfalso.
        destruct (Z.lt_ge_cases i p); [rewrite Hpre in Hb|rewrite Hrest in Hb]; done || lia.
      * intros s e. split; [intros H; by apply elem_of_nil in H|].
        intros (Hse & Hen & Hf & _). exfalso.
        specialize (Hf s ltac:(lia)).
        destruct (Z.lt_ge_cases s p); [rewrite Hpre in Hf|rewrite Hrest in Hf]; done || lia.
    + assert (Hrun0 : unset_run bits0 n st en).
      { split; [lia|]. split; [lia|]. split; [done|]. split; [done|].
        destruct (decide (en = n - 1)); [by left|right]. apply Hrest. lia. }
      exists (WT_ERROR E), (__wt_errx (run_msg (st, en)) vs), (runs ++ [(st, en)]).
      rewrite run_msg_report by lia.
      split; [done|]. split; [by right|]. split; [|split; [|split]].
      * split; [|intros _; apply WT_ERROR_nonzero].
        intros _. exists st. split; [lia|]. apply Hfalse. lia.
      * simpl. by rewrite Hmsgs, map_app, app_assoc.
      * apply StronglySorted_app_2; [|done|repeat constructor].
        intros [s e] x Hin Hx. apply list_elem_of_singleton in Hx as ->.
        apply Hruns in Hin as [_ ?]. unfold run_before; simpl. lia.
      * intros s e. rewrite elem_of_app, list_elem_of_singleton, Hruns.
        split; [intros [[? _]|Heq]; [done|congruence]|].
        intros Hse. destruct (Z.lt_ge_cases e st); [by left|right].
        apply (unset_run_unique bits0 n st en); [done..|].
        split; [lia|]. destruct (Z.le_gt_cases e en); [done|exfalso].
        destruct Hse as (? & ? & Hf & _).
        pose proof (Hf e ltac:(lia)) as Hfe. rewrite Hrest in Hfe; [done|lia].
  - (* a clear bit at [ffc]: it is set, and the loop goes on *)
    set (ffc := bit_ffc (fragbits vs) n) in *.
    destruct (Z.eqb_spec ffc (-1)); [lia|].
    assert (Hge : p <= ffc).
    { destruct (Z.le_gt_cases p ffc); [done|exfalso].
      rewrite Hset in Hclear; [done|lia]. }
    assert (Hffc0 : bit_test bits0 ffc = false) by (by rewrite <- Hsame).
    assert (Hmid : forall i, p <= i < ffc -> bit_test bits0 i = true).
    { intros i Hi. rewrite <- Hsame by lia. apply Hbelow. lia. }
    set (vs1 := set_fragbits (bit_set (fragbits vs) ffc) vs).
    assert (Hbits1 : forall rs st' en' ret',
      StronglySorted run_before rs ->
      ((st' = -1 /\ en' = -1 /\ rs = [] /\ ret' = 0 /\
        forall i, 0 <= i < ffc + 1 -> bit_test bits0 i = true) \/
       (0 <= st' <= en' /\ en' = ffc + 1 - 1 /\
        (forall i, st' <= i <= en' -> bit_test bits0 i = false) /\
        (st' = 0 \/ bit_test bits0 (st' - 1) = true) /\
        forall s e, (s, e) ∈ rs <-> unset_run bits0 n s e /\ e < st')) ->
      checkfrag_inv bits0 n (ffc + 1) st' en' ret' (fragbits vs1) rs).
    { intros rs st' en' ret' Hs Hr. unfold checkfrag_inv, vs1; simpl.
      rewrite bit_set_length.
      split; [lia|]. split; [done|]. split; [|split; [|done]].
      - intros i Hi. rewrite bit_test_set. case_bool_decide; [done|].
        apply Hbelow. lia.
      - intros i Hi. rewrite bit_test_set. case_bool_decide; [lia|].
        apply Hsame. lia. }
    destruct Hrun as [(-> & -> & -> & -> & Hpre)|(Hst & Hen & Hfalse & Hleft & Hruns)].
    + (* the first run begins *)
      cbn [Z.eqb Pos.eqb].
      apply (IH (ffc + 1) ffc ffc 0 vs1 []); [|done|lia].
      apply Hbits1; [constructor|right].
      assert (Hlow : forall i, 0 <= i < ffc -> bit_test bits0 i = true).
      { intros i Hi. destruct (Z.lt_ge_cases i p); [apply Hpre|apply Hmid]; lia. }
      split; [lia|]. split; [lia|]. split; [|split].
      * intros i Hi. by replace i with ffc by lia.
      * destruct (decide (ffc = 0)); [by left|right]. apply Hlow. lia.
      * intros s e. split; [intros H; by apply elem_of_nil in H|].
        intros [(Hse & _ & Hf & _) He]. exfalso.
        pose proof (Hf e ltac:(lia)) as Hfe. rewrite Hlow in Hfe; [done|lia].
    + destruct (Z.eqb_spec st (-1)); [lia|].
      destruct (Z.eqb_spec en (ffc - 1)) as [Hadj|Hgap].
      * (* the run goes on *)
        apply (IH (ffc + 1) st ffc ret vs1 runs); [|done|lia].
        apply Hbits1; [done|right].
        split; [lia|]. split; [lia|]. split; [|done].
        intros i Hi. destruct (decide (i = ffc)) as [->|]; [done|].
        apply Hfalse. lia.
      * (* the run is reported, and the next one begins *)
        rewrite run_msg_report by lia.
        assert (Hrun0 : unset_run bits0 n st en).
        { split; [lia|]. split; [lia|]. split; [done|]. split; [done|].
          right. apply Hmid. lia. }
        apply (IH (ffc + 1) ffc ffc (WT_ERROR E)
                  (__wt_errx (run_msg (st, en)) vs1) (runs ++ [(st, en)]));
          [|simpl; by rewrite Hmsgs, map_app, app_assoc|lia].
        rewrite fragbits_errx. apply Hbits1.
        { apply StronglySorted_app_2; [|done|repeat constructor].
          intros [s e] x Hin Hx. apply list_elem_of_singleton in Hx as ->.
          apply Hruns in Hin as [_ ?]. unfold run_before; simpl. lia. }
        right. split; [lia|]. split; [lia|]. split; [|split].
        -- intros i Hi. by replace i with ffc by lia.
        -- right. apply Hmid. lia.
        -- intros s e. rewrite elem_of_app, list_elem_of_singleton, Hruns.
           split.
           ++ intros [[? ?]|Heq]; [split; [done|lia]|].
              inversion Heq; subst. split; [done|lia].
           ++ intros [Hse He]. destruct (Z.lt_ge_cases e st); [by left|right].
              apply (unset_run_unique bits0 n st en); [done..|].
              split; [lia|]. destruct (Z.le_gt_cases e en); [done|exfalso].
              destruct Hse as (? & ? & Hf & _).
              pose proof (Hf e ltac:(lia)) as Hfe. rewrite Hmid in Hfe; [done|lia].
Qed.

End CheckFrag.

Section CheckFragTop.

Variable E : WT_ENGINE.

(** The invariant holds when the loop is entered. *)
Lemma checkfrag_inv_init (bits : bitstr_t) :
  checkfrag_inv bits (Z.of_nat (length bits)) 0 (-1) (-1) 0 bits [].
Proof.
  split; [lia|]. split; [done|]. split; [intros; lia|]. split; [done|].
  split; [constructor|]. left. repeat split; try done. intros; lia.
Qed.

(** C5. The coverage audit, entered with a frag-map of [frags] bits:
    it returns (the loop is left), with [WT_ERROR] when at least one bit of
    the map is unset and with 0 otherwise, and the messages it adds are one
    per maximal run of consecutive unset bits, in increasing order: the
    single-fragment form for a run of length 1 and the range form naming
    the first and the last fragment of a longer run. *)
Theorem verify_checkfrag_spec (vs : WT_VSTUFF) :
  frags vs = Z.of_nat (length (fragbits vs)) ->
  frags vs <= INT_MAX ->
  exists ret vs' runs,
    __verify_checkfrag E vs = Some (ret, vs') /\
    (ret = 0 \/ ret = WT_ERROR E) /\
    (ret <> 0 <->
     exists i, 0 <= i < frags vs /\ bit_test (fragbits vs) i = false) /\
    errx vs' = errx vs ++ map run_msg runs /\
    StronglySorted run_before runs /\
    (forall s e, (s, e) ∈ runs <-> unset_run (fragbits vs) (frags vs) s e).
Proof.
  intros Hlen Hmax. unfold __verify_checkfrag, int_of_uint32.
  destruct (Z.leb_spec (frags vs) INT_MAX); [|lia].
  apply (checkfrag_loop_inv E (fragbits vs) (errx vs) (frags vs) _ 0 _ _ _ _ []).
  - rewrite Hlen. apply checkfrag_inv_init.
  - simpl. by rewrite app_nil_r.
  - lia.
Qed.

End CheckFragTop.

(** ** [__verify_freelist] *)

Section FreeList.

Variable E : WT_ENGINE.
Variable btree : WT_BTREE.

Lemma free_entry_in_body_check fe :
  (WT_ADDR_TO_OFF btree (fe_addr fe) + fe_size fe >? file_size btree) = false
  <-> free_entry_in_body btree fe.
Proof.
  unfold free_entry_in_body, WT_ADDR_TO_OFF.
  destruct (Z.gtb_spec (WT_BTREE_DESC_SECTOR + fe_addr fe * allocsize btree
                        + fe_size fe) (file_size btree)); split; try done; lia.
Qed.

Lemma WT_TRET_first_error ret codes :
  first_error (ret :: codes) = WT_TRET ret (first_error codes).
Proof. unfold WT_TRET; simpl. by destruct (ret =? 0). Qed.

Lemma freelist_loop_in_body fes : forall ret vs,
  Forall (free_entry_in_body btree) fes ->
  freelist_loop E btree fes ret vs =
    (WT_TRET ret (first_error (charge_codes E btree fes vs)),
     charge_all E btree fes vs).
Proof.
  induction fes as [|fe fes IH]; intros ret vs Hall; simpl.
  - unfold WT_TRET. by destruct (Z.eqb_spec ret 0) as [->|].
  - apply Forall_cons in Hall as [Hfe Hall].
    apply free_entry_in_body_check in Hfe. rewrite Hfe.
    destruct (__verify_addfrag E btree (fe_addr fe) (fe_size fe) vs) as [r vs'];
      simpl.
    rewrite IH by done. f_equal.
    unfold WT_TRET. destruct (Z.eqb_spec ret 0) as [->|Hne]; [done|].
    by destruct (Z.eqb_spec ret 0).
Qed.

Lemma freelist_loop_out_of_body pre : forall fe post ret vs,
  Forall (free_entry_in_body btree) pre ->
  ~ free_entry_in_body btree fe ->
  freelist_loop E btree (pre ++ fe :: post) ret vs =
    (WT_ERROR E, __wt_errx (Msg_freelist (fe_addr fe)) (charge_all E btree pre vs)).
Proof.
  induction pre as [|fe0 pre IH]; intros fe post ret vs Hall Hout; simpl.
  - destruct (WT_ADDR_TO_OFF btree (fe_addr fe) + fe_size fe >? file_size btree)
      eqn:Hchk; [done|].
    by apply free_entry_in_body_check in Hchk.
  - apply Forall_cons in Hall as [Hfe Hall].
    apply free_entry_in_body_check in Hfe. rewrite Hfe.
    destruct (__verify_addfrag E btree (fe_addr fe0) (fe_size fe0) vs) as [r vs'];
      simpl.
    by apply IH.
Qed.

(** C7. The free-list pass visits the entries in queue order.  An entry
    with [addr * allocsize + size] beyond the body size is rejected with
    [WT_ERROR] and the free-list message (the entries before it have been
    charged).  When every entry lies in the body, every entry is charged
    through [__verify_addfrag], also after a call reported a duplicate
    reference, and the code returned is the first one of these calls that
    is not zero. *)
Theorem verify_freelist_spec (vs : WT_VSTUFF) :
  (forall pre fe post,
     freeqa btree = pre ++ fe :: post ->
     Forall (free_entry_in_body btree) pre ->
     ~ free_entry_in_body btree fe ->
     __verify_freelist E btree vs =
       (WT_ERROR E,
        __wt_errx (Msg_freelist (fe_addr fe)) (charge_all E btree pre vs))) /\
  (Forall (free_entry_in_body btree) (freeqa btree) ->
   __verify_freelist E btree vs =
     (first_error (charge_codes E btree (freeqa btree) vs),
      charge_all E btree (freeqa btree) vs)).
Proof.
  unfold __verify_freelist. split.
  - intros pre fe post -> Hpre Hfe. by apply freelist_loop_out_of_body.
  - intros Hall. by rewrite freelist_loop_in_body.
Qed.

End FreeList.

(** ** Induction over trees *)

Lemma ref_nodes_children ref c :
  c ∈ children (ref_page ref) -> (ref_nodes c < ref_nodes ref)%nat.
Proof.
  destruct ref as [a s [pa dk u]]. unfold children; simpl.
  destruct u as [| recno t | | | t |]; try (intros H; by apply elem_of_nil in H).
  - induction t as [|[r0 c0] t IH]; simpl; [intros H; by apply elem_of_nil in H|].
    rewrite elem_of_cons. intros [->|Hin]; [lia|]. specialize (IH Hin). lia.
  - induction t as [|[k0 c0] t IH]; simpl; [intros H; by apply elem_of_nil in H|].
    rewrite elem_of_cons. intros [->|Hin]; [lia|]. specialize (IH Hin). lia.
Qed.

Lemma WT_REF_children_ind (P : WT_REF -> Prop) :
  (forall ref, (forall c, c ∈ children (ref_page ref) -> P c) -> P ref) ->
  forall ref, P ref.
Proof.
  intros Hstep.
  assert (H : forall n ref, (ref_nodes ref < n)%nat -> P ref).
  { induction n as [|n IH]; intros ref Hn; [lia|].
    apply Hstep. intros c Hc. apply IH.
    apply ref_nodes_children in Hc. lia. }
  intros ref. apply (H (S (ref_nodes ref))). lia.
Qed.

Lemma tree_records_col_int a s pa dk recno t :
  tree_records (mkREF a s (mkPAGE pa dk (COL_INT recno t))) =
  sum_Z (fun c => tree_records (cref_ref c)) t.
Proof.
  simpl. induction t as [|[r0 c0] t IH]; simpl; [done|]. by rewrite IH.
Qed.

Lemma tree_records_row_int a s pa dk t :
  tree_records (mkREF a s (mkPAGE pa dk (ROW_INT t))) =
  sum_Z (fun r => tree_records (rref_ref r)) t.
Proof.
  simpl. induction t as [|[k0 c0] t IH]; simpl; [done|]. by rewrite IH.
Qed.

(** ** Arithmetic of the record counters *)

Lemma wrap64_add_l a b : wrap64 (wrap64 a + b) = wrap64 (a + b).
Proof. unfold wrap64. by rewrite Zplus_mod_idemp_l. Qed.

Lemma wrap64_add_r a b : wrap64 (a + wrap64 b) = wrap64 (a + b).
Proof. unfold wrap64. by rewrite Zplus_mod_idemp_r. Qed.

Lemma wrap64_range a : 0 <= wrap64 a < 2 ^ 64.
Proof. unfold wrap64. apply Z.mod_pos_bound. lia. Qed.

Lemma col_var_records_sum d : forall recno,
  col_var_records d recno = wrap64 (recno + sum_Z slot_records d) \/
  (d = [] /\ col_var_records d recno = recno).
Proof.
  induction d as [|cip d IH]; intros recno; [by right|left].
  unfold col_var_records in *; simpl.
  assert (Hstep : match WT_COL_PTR cip with
                  | Some unpack => wrap64 (recno + rle unpack)
                  | None => wrap64 (recno + 1)
                  end = wrap64 (recno + slot_records cip)).
  { unfold slot_records. by destruct (WT_COL_PTR cip). }
  rewrite Hstep.
  destruct (IH (wrap64 (recno + slot_records cip))) as [->|[-> ->]].
  - rewrite wrap64_add_l. f_equal. unfold sum_Z; simpl. lia.
  - unfold sum_Z; simpl. f_equal. lia.
Qed.

Lemma col_var_records_0 d :
  wrap64 (col_var_records d 0) = wrap64 (sum_Z slot_records d).
Proof.
  destruct (col_var_records_sum d 0) as [->|[-> ->]]; [|done].
  unfold wrap64. by rewrite Zmod_mod.
Qed.

(** ** The walk *)

Lemma WT_RET_assoc a b c vs :
  WT_RET (WT_RET a b) c vs = WT_RET a (WT_RET b c) vs.
Proof.
  unfold WT_RET. destruct (a vs) as [r vs1].
  destruct (Z.eqb_spec r 0) as [->|Hr]; [done|].
  by destruct (Z.eqb_spec r 0).
Qed.

Lemma WT_RET_ext a k k' vs :
  (forall vs', k vs' = k' vs') -> WT_RET a k vs = WT_RET a k' vs.
Proof.
  intros Hk. unfold WT_RET. destruct (a vs) as [r vs1]. by destruct (r =? 0).
Qed.

Lemma WT_TRET_0 ret r : WT_TRET ret r = 0 <-> ret = 0 /\ r = 0.
Proof. unfold WT_TRET. destruct (Z.eqb_spec ret 0); lia. Qed.

Lemma keeps_total_call r : keeps_total (call r).
Proof. by intros vs r' vs' [= _ ->]. Qed.

Lemma keeps_total_WT_RET a k :
  keeps_total a -> keeps_total k -> keeps_total (WT_RET a k).
Proof.
  intros Ha Hk vs r vs'. unfold WT_RET.
  destruct (a vs) as [r1 vs1] eqn:Hav. apply Ha in Hav.
  destruct (r1 =? 0).
  - intros Hkv. apply Hk in Hkv. congruence.
  - intros [= _ <-]. done.
Qed.

Section Walk.

Variable E : WT_ENGINE.
Variable btree : WT_BTREE.

Lemma verify_tree_unfold ref parent_recno :
  __verify_tree E btree ref parent_recno =
  verify_tree_body E btree (__verify_tree E btree) ref parent_recno.
Proof. by destruct ref. Qed.

Lemma keeps_total_addfrag addr size :
  keeps_total (__verify_addfrag E btree addr size).
Proof.
  intros vs r vs' H.
  destruct (verify_addfrag_cases E btree addr size vs)
    as [[_ Hr]|[_ (bits & Hr & _)]]; rewrite Hr in H; by injection H as _ <-.
Qed.

Lemma keeps_total_debug_dump page : keeps_total (debug_dump E page).
Proof.
  intros vs r vs'. unfold debug_dump.
  destruct (_ && _); by intros [= _ <-].
Qed.

Lemma keeps_total_recno_chk page parent_recno :
  keeps_total (recno_chk E page parent_recno).
Proof.
  intros vs r vs'. unfold recno_chk.
  destruct (page_u page); try (by intros [= _ <-]);
    destruct (negb _); by intros [= _ <-].
Qed.

Lemma keeps_total_row_leaf page :
  keeps_total (__verify_row_leaf_key_order E btree page).
Proof.
  intros vs r vs'. unfold __verify_row_leaf_key_order.
  rewrite !WT_RET_call.
  repeat match goal with
         | |- context [if ?b then _ else _] => destruct b
         end; by intros [= _ <-].
Qed.

Lemma keeps_total_row_int page rref entry :
  keeps_total (__verify_row_int_key_order E btree page rref entry).
Proof.
  intros vs r vs'. unfold __verify_row_int_key_order, WT_RET, buf_set_max_key.
  repeat match goal with
         | |- context [if ?b then _ else _] => destruct b
         end; by intros [= _ <-].
Qed.

Lemma keeps_total_overflow addr size :
  keeps_total (__verify_overflow E btree addr size).
Proof.
  unfold __verify_overflow.
  repeat apply keeps_total_WT_RET; try apply keeps_total_call.
  apply keeps_total_addfrag.
Qed.

Lemma keeps_total_overflow_cell page :
  keeps_total (__verify_overflow_cell E btree page).
Proof.
  unfold __verify_overflow_cell.
  destruct (page_dsk page) as [cells|]; [|apply keeps_total_call].
  induction cells as [|unpack cells IH]; simpl; [apply keeps_total_call|].
  destruct (cell_kind unpack); try done;
    apply keeps_total_WT_RET; try done; apply keeps_total_overflow.
Qed.

Lemma keeps_monitor_addfrag addr size :
  keeps_monitor (__verify_addfrag E btree addr size).
Proof.
  intros vs r vs' H.
  destruct (verify_addfrag_cases E btree addr size vs)
    as [[_ Hr]|[_ (bits & Hr & _)]]; rewrite Hr in H; by injection H as _ <-.
Qed.

Lemma keeps_monitor_overflow_cell page :
  keeps_monitor (__verify_overflow_cell E btree page).
Proof.
  assert (Hret : forall a k, keeps_monitor a -> keeps_monitor k ->
                             keeps_monitor (WT_RET a k)).
  { intros a k Ha Hk vs r vs'. unfold WT_RET.
    destruct (a vs) as [r1 vs1] eqn:Hav. apply Ha in Hav as [Hk1 Ha1].
    destruct (r1 =? 0).
    - intros Hkv. apply Hk in Hkv as [Hk2 Ha2]. split; congruence.
    - by intros [= _ <-]. }
  assert (Hcall : forall r, keeps_monitor (call r))
    by (by intros r vs r' vs' [= _ <-]).
  unfold __verify_overflow_cell.
  destruct (page_dsk page) as [cells|]; [|apply Hcall].
  induction cells as [|unpack cells IH]; simpl; [apply Hcall|].
  assert (Hovfl : keeps_monitor
    (__verify_overflow E btree (off_addr unpack) (off_size unpack))).
  { unfold __verify_overflow.
    repeat apply Hret; try apply Hcall. apply keeps_monitor_addfrag. }
  destruct (cell_kind unpack); try done; by apply Hret.
Qed.

Section Descent.

Variable rec : WT_REF -> Z -> verify_fn.
Variable page : WT_PAGE.

Lemma descend_inv ref parent_recno k vs vs'' :
  descend E rec page ref parent_recno k vs = (0, vs'') ->
  exists vs', rec ref parent_recno vs = (0, vs') /\ k vs' = (0, vs'').
Proof.
  unfold descend. rewrite WT_RET_call.
  destruct (Z.eqb_spec (__wt_page_in E page ref) 0) as [_|Hne];
    [|intros [= H]; by destruct Hne].
  destruct (rec ref parent_recno vs) as [ret vs'].
  destruct (Z.eqb_spec (WT_TRET ret (__wt_page_reconcile E (ref_page ref))) 0)
    as [H0|Hne]; simpl.
  - apply WT_TRET_0 in H0 as [-> _]. intros Hk. by exists vs'.
  - intros [= H _]. done.
Qed.

Lemma descend_WT_RET ref parent_recno k1 k2 vs :
  descend E rec page ref parent_recno (WT_RET k1 k2) vs =
  WT_RET (descend E rec page ref parent_recno k1) k2 vs.
Proof.
  unfold descend, WT_RET, call.
  destruct (Z.eqb_spec (__wt_page_in E page ref) 0) as [_|Hne].
  - destruct (rec ref parent_recno vs) as [ret vs'].
    destruct (Z.eqb_spec (WT_TRET ret (__wt_page_reconcile E (ref_page ref))) 0)
      as [H0|Hne]; simpl; [done|].
    by destruct (Z.eqb_spec (WT_TRET ret (__wt_page_reconcile E (ref_page ref))) 0).
  - by destruct (Z.eqb_spec (__wt_page_in E page ref) 0).
Qed.

Lemma descend_ext ref parent_recno k k' vs :
  (forall vs', k vs' = k' vs') ->
  descend E rec page ref parent_recno k vs =
  descend E rec page ref parent_recno k' vs.
Proof.
  intros Hk. unfold descend, WT_RET.
  destruct (call _ vs) as [r1 vs1]. destruct (r1 =? 0); [|done].
  destruct (rec _ _ vs1) as [r2 vs2]. by destruct (negb _).
Qed.

Lemma col_int_loop_app pre : forall rest vs,
  col_int_loop E rec page (pre ++ rest) vs =
  WT_RET (col_int_loop E rec page pre) (col_int_loop E rec page rest) vs.
Proof.
  induction pre as [|cref pre IH]; intros rest vs; [done|].
  cbn [app col_int_loop].
  destruct (negb (cref_recno cref =? wrap64 (record_total vs + 1))) eqn:Hchk.
  - unfold WT_RET. cbn [col_int_loop]. rewrite Hchk.
    by destruct (Z.eqb_spec (WT_ERROR E) 0) as [H0|_];
      [destruct (WT_ERROR_nonzero E)|].
  - rewrite (descend_ext _ _ _
               (WT_RET (col_int_loop E rec page pre)
                       (col_int_loop E rec page rest))) by apply IH.
    rewrite descend_WT_RET. unfold WT_RET. cbn [col_int_loop].
    by rewrite Hchk.
Qed.

Lemma row_int_loop_app pre : forall entry rest vs,
  0 <= entry -> entry + Z.of_nat (length pre) < 2 ^ 32 ->
  row_int_loop E btree rec page entry (pre ++ rest) vs =
  WT_RET (row_int_loop E btree rec page entry pre)
         (row_int_loop E btree rec page (entry + Z.of_nat (length pre)) rest) vs.
Proof.
  induction pre as [|rref pre IH]; intros entry rest vs Hentry Hlen.
  - simpl. by rewrite Z.add_0_r.
  - cbn [app row_int_loop]. rewrite WT_RET_assoc.
    apply WT_RET_ext. intros vs1.
    simpl length in *. rewrite wrap32_small by lia.
    rewrite (descend_ext _ _ _
               (WT_RET (row_int_loop E btree rec page (entry + 1) pre)
                       (row_int_loop E btree rec page
                          (entry + Z.of_nat (S (length pre))) rest))).
    + apply descend_WT_RET.
    + intros vs'. rewrite IH by lia. do 2 f_equal. lia.
Qed.

End Descent.
End Walk.

Section WalkClaims.

Variable E : WT_ENGINE.
Variable btree : WT_BTREE.

Abbreviation verify_tree := (__verify_tree E btree).

Lemma record_total_progress_tick vs :
  record_total (progress_tick vs) = record_total vs.
Proof. unfold progress_tick. by destruct (_ =? 0). Qed.

Lemma record_total_update_records page vs :
  0 <= record_total vs < 2 ^ 64 ->
  record_total (record_total_update page vs) =
  wrap64 (record_total vs + page_records page).
Proof.
  intros Hrange. unfold record_total_update, page_records, entries.
  destruct (page_u page); simpl; try (by rewrite Z.add_0_r, wrap64_small).
  - done.
  - by rewrite <- wrap64_add_r, col_var_records_0, wrap64_add_r.
Qed.

Lemma WT_ERROR_eqb : (WT_ERROR E =? 0) = false.
Proof. destruct (Z.eqb_spec (WT_ERROR E) 0) as [H|]; [by destruct (WT_ERROR_nonzero E)|done]. Qed.

(** What a successful call of [__verify_tree] went through. *)
Lemma verify_tree_ok_inv ref parent_recno vs vs' :
  verify_tree ref parent_recno vs = (0, vs') ->
  let page := ref_page ref in
  exists v1 v5 v6,
    __verify_addfrag E btree (ref_addr ref) (ref_size ref) (progress_tick vs)
      = (0, v1) /\
    fst (debug_dump E page v1) = 0 /\
    recno_chk E page parent_recno v1 = (0, v1) /\
    (match type page with
     | WT_PAGE_ROW_LEAF => __verify_row_leaf_key_order E btree page
     | _ => call 0
     end) (record_total_update page v1) = (0, v5) /\
    (match type page with
     | WT_PAGE_COL_VAR | WT_PAGE_ROW_INT | WT_PAGE_ROW_LEAF =>
         __verify_overflow_cell E btree page
     | _ => call 0
     end) v5 = (0, v6) /\
    (match page_u page with
     | COL_INT _ t => col_int_loop E verify_tree page t
     | ROW_INT t => row_int_loop E btree verify_tree page 0 t
     | _ => call 0
     end) v6 = (0, vs') /\
    record_total v6 = record_total (record_total_update page v1) /\
    record_total v1 = record_total vs.
Proof.
  intros H page. rewrite verify_tree_unfold in H. unfold verify_tree_body in H.
  apply WT_RET_inv in H as (v1 & H1 & H).
  apply WT_RET_inv in H as (v2 & H2 & H).
  apply WT_RET_inv in H as (v3 & H3 & H).
  apply WT_RET_inv in H as (v4 & H4 & H).
  apply WT_RET_inv in H as (v5 & H5 & H).
  apply WT_RET_inv in H as (v6 & H6 & H).
  assert (v2 = v1) as ->.
  { unfold debug_dump in H2. destruct (_ && _); by injection H2. }
  assert (v3 = v1) as ->.
  { unfold recno_chk in H3.
    destruct (page_u (ref_page ref)); try (by injection H3);
      (destruct (negb _);
       [injection H3 as Herr _; by destruct (WT_ERROR_nonzero E)
       |by injection H3]). }
  injection H4 as <-.
  exists v1, v5, v6. fold page in H1, H2, H3, H5, H6, H |- *.
  split; [done|]. split; [by rewrite H2|]. split; [done|].
  split; [done|]. split; [done|]. split; [done|]. split.
  - assert (record_total v5 = record_total (record_total_update page v1)).
    { destruct (type page); try (by injection H5 as <-).
      by apply keeps_total_row_leaf in H5. }
    assert (record_total v6 = record_total v5); [|congruence].
    destruct (type page); try (by injection H6 as <-);
      by apply keeps_total_overflow_cell in H6.
  - apply keeps_total_addfrag in H1. by rewrite H1, record_total_progress_tick.
Qed.

Lemma col_int_loop_total page t :
  (forall c, c ∈ map cref_ref t -> forall pr vs vs',
     0 <= record_total vs < 2 ^ 64 -> verify_tree c pr vs = (0, vs') ->
     record_total vs' = wrap64 (record_total vs + tree_records c)) ->
  forall vs vs', 0 <= record_total vs < 2 ^ 64 ->
    col_int_loop E verify_tree page t vs = (0, vs') ->
    record_total vs' =
      wrap64 (record_total vs + sum_Z (fun c => tree_records (cref_ref c)) t).
Proof.
  induction t as [|cref t IH]; intros Hc vs vs' Hrange; cbn [col_int_loop].
  - intros [= <-]. unfold sum_Z; simpl. by rewrite Z.add_0_r, wrap64_small.
  - destruct (negb _);
      [intros [= Herr _]; by destruct (WT_ERROR_nonzero E)|].
    intros H. apply descend_inv in H as (v1 & Hrec & Hloop).
    apply Hc in Hrec; [|left|done].
    apply IH in Hloop.
    + rewrite Hloop, Hrec, wrap64_add_l. f_equal. unfold sum_Z; simpl. lia.
    + intros c Hin. apply Hc. by right.
    + rewrite Hrec. apply wrap64_range.
Qed.

Lemma row_int_loop_total page t :
  (forall c, c ∈ map rref_ref t -> forall pr vs vs',
     0 <= record_total vs < 2 ^ 64 -> verify_tree c pr vs = (0, vs') ->
     record_total vs' = wrap64 (record_total vs + tree_records c)) ->
  forall entry vs vs', 0 <= record_total vs < 2 ^ 64 ->
    row_int_loop E btree verify_tree page entry t vs = (0, vs') ->
    record_total vs' =
      wrap64 (record_total vs + sum_Z (fun r => tree_records (rref_ref r)) t).
Proof.
  induction t as [|rref t IH]; intros Hc entry vs vs' Hrange; cbn [row_int_loop].
  - intros [= <-]. unfold sum_Z; simpl. by rewrite Z.add_0_r, wrap64_small.
  - intros H. apply WT_RET_inv in H as (v0 & Hkey & H).
    assert (record_total v0 = record_total vs) as Hv0.
    { destruct (negb _); [by apply keeps_total_row_int in Hkey|].
      by injection Hkey as <-. }
    apply descend_inv in H as (v1 & Hrec & Hloop).
    apply Hc in Hrec; [|left|by rewrite Hv0].
    apply IH in Hloop.
    + rewrite Hloop, Hrec, Hv0, wrap64_add_l. f_equal. unfold sum_Z; simpl. lia.
    + intros c Hin. apply Hc. by right.
    + rewrite Hrec. apply wrap64_range.
Qed.

Lemma verify_tree_total ref : forall parent_recno vs vs',
  0 <= record_total vs < 2 ^ 64 ->
  verify_tree ref parent_recno vs = (0, vs') ->
  record_total vs' = wrap64 (record_total vs + tree_records ref).
Proof.
  induction ref as [ref IH] using WT_REF_children_ind.
  intros parent_recno vs vs' Hrange H.
  apply verify_tree_ok_inv in H
    as (v1 & v5 & v6 & _ & _ & _ & _ & _ & Hloop & H6 & H1).
  rewrite record_total_update_records in H6 by lia.
  destruct ref as [a s [pa dk u]]. unfold children in IH.
  unfold page_records in H6. simpl in Hloop, IH, H6.
  assert (Hr6 : 0 <= record_total v6 < 2 ^ 64)
    by (rewrite H6; apply wrap64_range).
  destruct u as [recno n|recno t|recno d| |t|d];
    try (injection Hloop as <-; rewrite H6, H1; by simpl).
  - apply (col_int_loop_total _ t IH) in Hloop; [|done].
    rewrite Hloop, H6, H1, wrap64_add_l, Z.add_0_r.
    by rewrite tree_records_col_int.
  - apply (row_int_loop_total _ t IH) in Hloop; [|done].
    rewrite Hloop, H6, H1, wrap64_add_l, Z.add_0_r.
    by rewrite tree_records_row_int.
Qed.

(** C6. The record-count update of the walk.  A fixed-length leaf adds
    [entries] to the running total; a variable-length leaf adds, over its
    slots, 1 for a null slot and the run-length of the cell otherwise;
    a page of another kind leaves the state as it is.  The total is a
    [uint64_t], so the additions are modulo 2^64.  Over a whole successful
    walk of a tree the total has grown by the sum of these counts over the
    pages of the tree. *)
Theorem verify_tree_record_total :
  (forall page vs,
     match type page with
     | WT_PAGE_COL_FIX =>
         record_total_update page vs =
         set_record_total (wrap64 (record_total vs + entries page)) vs
     | WT_PAGE_COL_VAR =>
         record_total (record_total_update page vs) =
         wrap64 (record_total vs + sum_Z slot_records (col_leaf_d page)) /\
         record_total_update page vs =
         set_record_total (record_total (record_total_update page vs)) vs
     | _ => record_total_update page vs = vs
     end) /\
  (forall ref parent_recno vs vs',
     0 <= record_total vs < 2 ^ 64 ->
     verify_tree ref parent_recno vs = (0, vs') ->
     record_total vs' = wrap64 (record_total vs + tree_records ref)).
Proof.
  split; [|intros ref; apply verify_tree_total].
  intros page vs. unfold type, record_total_update, col_leaf_d.
  destruct (page_u page); try done. split; [|done]. simpl.
  by rewrite <- wrap64_add_r, col_var_records_0, wrap64_add_r.
Qed.

(** C4. The row-leaf update of the key-order monitor, on a leaf page whose
    first slot is [rip0] and whose last slot is [ripn].  Entered with
    [max_addr = WT_ADDR_INVALID] (and the scratch buffer and the first key
    obtained), it fails with [WT_ERROR] and the leaf message when the first
    key compares below [max_key], and then [max_key] and [max_addr] are as
    they were; a first key that compares greater or equal passes the
    comparison.  Entered with another [max_addr] the comparator is not
    consulted: the outcome is the same for every comparator, and when the
    last key is obtained the call returns 0 with [max_key] the last key of
    the page and [max_addr] the address of the page.  Whenever the call
    returns 0, [max_key] is the last key of the page and [max_addr] the
    address of the page, and so they are after every walk of the page that
    returns 0. *)
Theorem verify_row_leaf_key_order_spec (page : WT_PAGE) (d : list WT_ROW)
    (rip0 ripn : WT_ROW) (vs : WT_VSTUFF) :
  page_u page = ROW_LEAF d ->
  head d = Some rip0 ->
  last d = Some ripn ->
  Z.of_nat (length d) < 2 ^ 32 ->
  let r := __verify_row_leaf_key_order E btree page vs in
  (max_addr vs = WT_ADDR_INVALID ->
   __wt_scr_alloc E 0 = 0 -> __wt_row_key E page rip0 = 0 ->
   (btree_compare btree (row_key rip0) (max_key vs) < 0 ->
    r = (WT_ERROR E,
         __wt_errx (Msg_leaf_key_order (WT_PADDR page) (max_addr vs)) vs) /\
    max_key (snd r) = max_key vs /\ max_addr (snd r) = max_addr vs) /\
   (0 <= btree_compare btree (row_key rip0) (max_key vs) ->
    __wt_row_key E page ripn = 0 -> fst r = 0)) /\
  (max_addr vs = WT_ADDR_INVALID -> fst r = 0 ->
   0 <= btree_compare btree (row_key rip0) (max_key vs)) /\
  (max_addr vs <> WT_ADDR_INVALID ->
   forall btree', __verify_row_leaf_key_order E btree' page vs = r) /\
  (max_addr vs <> WT_ADDR_INVALID -> __wt_row_key E page ripn = 0 ->
   r = (0, set_max_key (row_key ripn) (set_max_addr (WT_PADDR page) vs))) /\
  (fst r = 0 ->
   snd r = set_max_key (row_key ripn) (set_max_addr (WT_PADDR page) vs) /\
   max_key (snd r) = row_key ripn /\ max_addr (snd r) = WT_PADDR page) /\
  (forall ref parent_recno vs0 vs'',
     ref_page ref = page ->
     verify_tree ref parent_recno vs0 = (0, vs'') ->
     max_key vs'' = row_key ripn /\ max_addr vs'' = WT_PADDR page).
Proof.
  intros Hu Hhd Hlast Hlen r.
  destruct (row_leaf_key_order_cases E btree page d rip0 ripn vs
              Hu Hhd Hlast Hlen) as (H1 & H2 & H3 & H4).
  split; [exact H1|]. split; [exact H2|]. split; [exact H3|].
  split; [intros Hinv Hkey;
          exact (row_leaf_key_order_entered E btree page d ripn vs
                   Hu Hlast Hlen Hinv Hkey)|].
  split; [exact H4|].
  intros ref parent_recno vs0 vs'' Hpage Hv.
  apply verify_tree_ok_inv in Hv
    as (v1 & v5 & v6 & _ & _ & _ & H5 & H6 & Hloop & _ & _).
  rewrite Hpage in H5, H6, Hloop. unfold type in H5, H6.
  rewrite Hu in H5, H6, Hloop. injection Hloop as <-.
  apply keeps_monitor_overflow_cell in H6 as [-> ->].
  destruct (row_leaf_key_order_cases E btree page d rip0 ripn
              (record_total_update page v1) Hu Hhd Hlast Hlen)
    as (_ & _ & _ & Hok).
  rewrite H5 in Hok. by destruct (Hok eq_refl) as (_ & ? & ?).
Qed.

Lemma recno_chk_ok page parent_recno recno vs vs' :
  page_recno page = Some recno ->
  recno_chk E page parent_recno vs = (0, vs') -> recno = parent_recno.
Proof.
  unfold page_recno, recno_chk.
  destruct (page_u page); intros [= ->]; try done;
    (destruct (Z.eqb_spec parent_recno recno); simpl;
     [done|intros [= Herr _]; by destruct (WT_ERROR_nonzero E)]).
Qed.

Lemma recno_chk_err page parent_recno recno vs :
  page_recno page = Some recno -> recno <> parent_recno ->
  recno_chk E page parent_recno vs =
    (WT_ERROR E, __wt_errx (Msg_recno (WT_PADDR page) recno parent_recno) vs).
Proof.
  unfold page_recno, recno_chk.
  destruct (page_u page); intros [= ->] Hne; try done;
    by destruct (Z.eqb_spec parent_recno recno).
Qed.

(** C2. The record-number checks of the walk.  For a column-store page
    (fixed-length leaf, variable-length leaf or internal) [__verify_tree]
    returns 0 only when the starting record number of the page is the one
    the parent supplied; when they differ (the fragments of the page having
    been charged) it returns [WT_ERROR] with the message that cites the
    address of the page, its starting record and the expected one.  In the
    loop over the children of a column-store internal page, a child whose
    [recno] differs from the running [record_total + 1] (a [uint64_t] sum)
    when it is reached, the children before it having been verified, makes the
    loop return [WT_ERROR] with the message for this child; and when the
    walk of such a page returns 0, every child had the [recno] that follows
    the total reached when it was considered. *)
Theorem verify_tree_recno_spec :
  (forall ref parent_recno vs recno,
     page_recno (ref_page ref) = Some recno ->
     fst (verify_tree ref parent_recno vs) = 0 -> recno = parent_recno) /\
  (forall ref parent_recno vs recno vs1,
     page_recno (ref_page ref) = Some recno ->
     recno <> parent_recno ->
     __verify_addfrag E btree (ref_addr ref) (ref_size ref) (progress_tick vs)
       = (0, vs1) ->
     fst (debug_dump E (ref_page ref) vs1) = 0 ->
     verify_tree ref parent_recno vs =
       (WT_ERROR E,
        __wt_errx (Msg_recno (WT_PADDR (ref_page ref)) recno parent_recno) vs1)) /\
  (forall page pre cref post vs vs',
     col_int_loop E verify_tree page pre vs = (0, vs') ->
     cref_recno cref <> wrap64 (record_total vs' + 1) ->
     col_int_loop E verify_tree page (pre ++ cref :: post) vs =
       (WT_ERROR E,
        __wt_errx (Msg_recno (WT_COL_REF_ADDR cref) (cref_recno cref)
                             (wrap64 (record_total vs' + 1))) vs')) /\
  (forall ref parent_recno vs vs'' recno pre cref post,
     page_u (ref_page ref) = COL_INT recno (pre ++ cref :: post) ->
     verify_tree ref parent_recno vs = (0, vs'') ->
     exists vs0 vs',
       record_total vs0 = record_total vs /\
       col_int_loop E verify_tree (ref_page ref) pre vs0 = (0, vs') /\
       cref_recno cref = wrap64 (record_total vs' + 1)).
Proof.
  split; [|split; [|split]].
  - intros ref parent_recno vs recno Hrecno Hok.
    destruct (verify_tree ref parent_recno vs) as [r vs'] eqn:Hv.
    simpl in Hok; subst r.
    apply verify_tree_ok_inv in Hv as (v1 & _ & _ & _ & _ & Hchk & _).
    by apply (recno_chk_ok _ _ _ _ _ Hrecno Hchk).
  - intros ref parent_recno vs recno vs1 Hrecno Hne Hadd Hdump.
    rewrite verify_tree_unfold. unfold verify_tree_body.
    rewrite (WT_RET_ok _ _ _ _ Hadd).
    assert (Hd : debug_dump E (ref_page ref) vs1 = (0, vs1)).
    { unfold debug_dump in *. destruct (_ && _); simpl in *; [|done].
      by rewrite Hdump. }
    rewrite (WT_RET_ok _ _ _ _ Hd).
    apply WT_RET_err; [by apply recno_chk_err|apply WT_ERROR_nonzero].
  - intros page pre cref post vs vs' Hpre Hne.
    rewrite col_int_loop_app, (WT_RET_ok _ _ _ _ Hpre). cbn [col_int_loop].
    by destruct (Z.eqb_spec (cref_recno cref) (wrap64 (record_total vs' + 1))).
  - intros ref parent_recno vs vs'' recno pre cref post Hu Hv.
    apply verify_tree_ok_inv in Hv
      as (v1 & v5 & v6 & _ & _ & _ & _ & _ & Hloop & H6 & H1).
    rewrite Hu in Hloop. unfold record_total_update in H6. rewrite Hu in H6.
    rewrite col_int_loop_app in Hloop.
    apply WT_RET_inv in Hloop as (vs' & Hpre & Hrest).
    exists v6, vs'. split; [congruence|]. split; [done|].
    cbn [col_int_loop] in Hrest.
    destruct (Z.eqb_spec (cref_recno cref) (wrap64 (record_total vs' + 1)));
      [done|].
    simpl in Hrest. injection Hrest as Herr _. by destruct (WT_ERROR_nonzero E).
Qed.

(** C3. The row-internal update of the key-order monitor.  The call fails
    with [WT_ERROR] and the "sorts before the last key" message when the
    fence key does not compare strictly above [max_key]; a call that
    returns 0 found it strictly above and has set [max_key] to the fence key
    and [max_addr] to the address of the internal page, and it does so when
    the key is strictly above and the copy of the key succeeds.  In the loop
    over the children of a row-store internal page the check is made for
    every child of index 1 or more, with the state the children before it
    left behind: a fence key not strictly above [max_key] there ends the
    loop with that error, and a loop that returns 0 (and so a walk of the
    page that returns 0) found every such key strictly above.  For the
    child of index 0 the check is not made: the loop gives the same outcome
    for every key this child may have. *)
Theorem verify_row_int_key_order_spec (page : WT_PAGE) :
  (forall rref entry vs,
     let r := __verify_row_int_key_order E btree page rref entry vs in
     (btree_compare btree (rref_key rref) (max_key vs) <= 0 ->
      r = (WT_ERROR E,
           __wt_errx (Msg_int_key_order entry (WT_PADDR page) (max_addr vs)) vs)) /\
     (0 < btree_compare btree (rref_key rref) (max_key vs) ->
      __wt_buf_set E (rref_key rref) = 0 -> fst r = 0) /\
     (fst r = 0 ->
      0 < btree_compare btree (rref_key rref) (max_key vs) /\
      snd r = set_max_addr (WT_PADDR page) (set_max_key (rref_key rref) vs) /\
      max_key (snd r) = rref_key rref /\ max_addr (snd r) = WT_PADDR page)) /\
  (forall pre rref post vs vs',
     pre <> [] -> Z.of_nat (length pre) < 2 ^ 32 ->
     row_int_loop E btree verify_tree page 0 pre vs = (0, vs') ->
     btree_compare btree (rref_key rref) (max_key vs') <= 0 ->
     row_int_loop E btree verify_tree page 0 (pre ++ rref :: post) vs =
       (WT_ERROR E,
        __wt_errx (Msg_int_key_order (Z.of_nat (length pre)) (WT_PADDR page)
                                     (max_addr vs')) vs')) /\
  (forall pre rref post vs vs'',
     pre <> [] -> Z.of_nat (length pre) < 2 ^ 32 ->
     row_int_loop E btree verify_tree page 0 (pre ++ rref :: post) vs
       = (0, vs'') ->
     exists vs',
       row_int_loop E btree verify_tree page 0 pre vs = (0, vs') /\
       0 < btree_compare btree (rref_key rref) (max_key vs')) /\
  (forall key key' ref rrefs vs,
     row_int_loop E btree verify_tree page 0 (mkROW_REF key ref :: rrefs) vs =
     row_int_loop E btree verify_tree page 0 (mkROW_REF key' ref :: rrefs) vs) /\
  (forall ref parent_recno vs vs'' pre rref post,
     ref_page ref = page ->
     page_u page = ROW_INT (pre ++ rref :: post) ->
     pre <> [] -> Z.of_nat (length pre) < 2 ^ 32 ->
     verify_tree ref parent_recno vs = (0, vs'') ->
     exists vs0 vs',
       row_int_loop E btree verify_tree page 0 pre vs0 = (0, vs') /\
       0 < btree_compare btree (rref_key rref) (max_key vs')).
Proof.
  assert (Hfun : forall rref entry vs,
     let r := __verify_row_int_key_order E btree page rref entry vs in
     (btree_compare btree (rref_key rref) (max_key vs) <= 0 ->
      r = (WT_ERROR E,
           __wt_errx (Msg_int_key_order entry (WT_PADDR page) (max_addr vs)) vs)) /\
     (0 < btree_compare btree (rref_key rref) (max_key vs) ->
      __wt_buf_set E (rref_key rref) = 0 -> fst r = 0) /\
     (fst r = 0 ->
      0 < btree_compare btree (rref_key rref) (max_key vs) /\
      snd r = set_max_addr (WT_PADDR page) (set_max_key (rref_key rref) vs) /\
      max_key (snd r) = rref_key rref /\ max_addr (snd r) = WT_PADDR page)).
  { intros rref entry vs r. subst r.
    unfold __verify_row_int_key_order, WT_RET, buf_set_max_key.
    destruct (Z.leb_spec (btree_compare btree (rref_key rref) (max_key vs)) 0)
      as [Hle|Hgt].
    - split; [done|]. split; [lia|]. simpl. intros Herr.
      by destruct (WT_ERROR_nonzero E).
    - split; [lia|].
      destruct (Z.eqb_spec (__wt_buf_set E (rref_key rref)) 0) as [H0|Hne];
        simpl.
      + done.
      + destruct (Z.eqb_spec (__wt_buf_set E (rref_key rref)) 0); [done|].
        simpl. split; [done|]. done. }
  assert (Hloop : forall pre rref post vs vs'',
     pre <> [] -> Z.of_nat (length pre) < 2 ^ 32 ->
     row_int_loop E btree verify_tree page 0 (pre ++ rref :: post) vs
       = (0, vs'') ->
     exists vs',
       row_int_loop E btree verify_tree page 0 pre vs = (0, vs') /\
       0 < btree_compare btree (rref_key rref) (max_key vs')).
  { intros pre rref post vs vs'' Hne Hlen Hloop.
    rewrite row_int_loop_app in Hloop by lia.
    apply WT_RET_inv in Hloop as (vs' & Hpre & Hrest).
    exists vs'. split; [done|].
    cbn [row_int_loop] in Hrest. rewrite !Z.add_0_l in Hrest.
    assert (length pre <> 0%nat) by (by destruct pre).
    destruct (Z.eqb_spec (Z.of_nat (length pre)) 0); [lia|]. simpl negb in Hrest.
    apply WT_RET_inv in Hrest as (v1 & Hkey & _).
    apply (Hfun rref (Z.of_nat (length pre)) vs'). by rewrite Hkey. }
  split; [exact Hfun|]. split; [|split; [exact Hloop|split; [done|]]].
  2: { intros ref parent_recno vs vs'' pre rref post Hpage Hu Hne Hlen Hv.
       apply verify_tree_ok_inv in Hv
         as (v1 & v5 & v6 & _ & _ & _ & _ & _ & Hl & _ & _).
       rewrite Hpage, Hu in Hl.
       destruct (Hloop pre rref post v6 vs'' Hne Hlen Hl) as (vs' & ? & ?).
       by exists v6, vs'. }
  - intros pre rref post vs vs' Hne Hlen Hpre Hcmp.
    rewrite row_int_loop_app, (WT_RET_ok _ _ _ _ Hpre) by lia.
    cbn [row_int_loop]. rewrite !Z.add_0_l.
    assert (length pre <> 0%nat) by (by destruct pre).
    destruct (Z.eqb_spec (Z.of_nat (length pre)) 0); [lia|]. simpl negb.
    apply WT_RET_err; [|apply WT_ERROR_nonzero].
    by apply (Hfun rref (Z.of_nat (length pre)) vs').
Qed.

End WalkClaims.

(** ** The size of the frag-map, and termination of [__verify_int] *)

Lemma same_shape_refl vs : same_shape vs vs.
Proof. done. Qed.

Lemma same_shape_trans vs1 vs2 vs3 :
  same_shape vs1 vs2 -> same_shape vs2 vs3 -> same_shape vs1 vs3.
Proof. intros [H1 H2] [H3 H4]. split; congruence. Qed.

Lemma keeps_shape_call r : keeps_shape (call r).
Proof. by intros vs r' vs' [= _ <-]. Qed.

Lemma keeps_shape_WT_RET a k :
  keeps_shape a -> keeps_shape k -> keeps_shape (WT_RET a k).
Proof.
  intros Ha Hk vs r vs'. unfold WT_RET.
  destruct (a vs) as [r1 vs1] eqn:Hav. apply Ha in Hav.
  destruct (r1 =? 0).
  - intros Hkv. apply Hk in Hkv. by apply (same_shape_trans _ vs1).
  - by intros [= _ <-].
Qed.

Section Shape.

Variable E : WT_ENGINE.
Variable btree : WT_BTREE.

Lemma keeps_shape_addfrag addr size :
  keeps_shape (__verify_addfrag E btree addr size).
Proof.
  intros vs r vs' H.
  destruct (verify_addfrag_cases E btree addr size vs)
    as [[_ Hr]|[_ (bits & Hr & Hbits)]]; rewrite Hr in H;
    injection H as _ <-; [done|].
  split; [done|]. simpl. subst bits.
  destruct (0 <? _); [apply bit_nset_length|done].
Qed.

Lemma keeps_shape_row_leaf page :
  keeps_shape (__verify_row_leaf_key_order E btree page).
Proof.
  intros vs r vs'. unfold __verify_row_leaf_key_order.
  rewrite !WT_RET_call.
  repeat match goal with
         | |- context [if ?b then _ else _] => destruct b
         end; by intros [= _ <-].
Qed.

Lemma keeps_shape_row_int page rref entry :
  keeps_shape (__verify_row_int_key_order E btree page rref entry).
Proof.
  intros vs r vs'. unfold __verify_row_int_key_order, WT_RET, buf_set_max_key.
  repeat match goal with
         | |- context [if ?b then _ else _] => destruct b
         end; by intros [= _ <-].
Qed.

Lemma keeps_shape_overflow_cell page :
  keeps_shape (__verify_overflow_cell E btree page).
Proof.
  unfold __verify_overflow_cell.
  destruct (page_dsk page) as [cells|]; [|apply keeps_shape_call].
  induction cells as [|unpack cells IH]; simpl; [apply keeps_shape_call|].
  assert (Hovfl : keeps_shape
    (__verify_overflow E btree (off_addr unpack) (off_size unpack))).
  { unfold __verify_overflow.
    repeat apply keeps_shape_WT_RET; try apply keeps_shape_call.
    apply keeps_shape_addfrag. }
  destruct (cell_kind unpack); try done; by apply keeps_shape_WT_RET.
Qed.

Lemma same_shape_progress_tick vs : same_shape vs (progress_tick vs).
Proof. unfold progress_tick. by destruct (_ =? 0). Qed.

Lemma same_shape_record_total_update page vs :
  same_shape vs (record_total_update page vs).
Proof. unfold record_total_update. by destruct (page_u page). Qed.

Lemma col_int_loop_shape page t :
  (forall c, c ∈ map cref_ref t -> forall pr vs vs',
     __verify_tree E btree c pr vs = (0, vs') -> same_shape vs vs') ->
  forall vs vs',
    col_int_loop E (__verify_tree E btree) page t vs = (0, vs') ->
    same_shape vs vs'.
Proof.
  induction t as [|cref t IH]; intros Hc vs vs'; cbn [col_int_loop].
  - by intros [= <-].
  - destruct (negb _);
      [intros [= Herr _]; by destruct (WT_ERROR_nonzero E)|].
    intros H. apply descend_inv in H as (v1 & Hrec & Hloop).
    apply Hc in Hrec; [|by left].
    apply IH in Hloop; [by apply (same_shape_trans _ v1)|].
    intros c Hin. apply Hc. by right.
Qed.

Lemma row_int_loop_shape page t :
  (forall c, c ∈ map rref_ref t -> forall pr vs vs',
     __verify_tree E btree c pr vs = (0, vs') -> same_shape vs vs') ->
  forall entry vs vs',
    row_int_loop E btree (__verify_tree E btree) page entry t vs = (0, vs') ->
    same_shape vs vs'.
Proof.
  induction t as [|rref t IH]; intros Hc entry vs vs'; cbn [row_int_loop].
  - by intros [= <-].
  - intros H. apply WT_RET_inv in H as (v0 & Hkey & H).
    assert (same_shape vs v0) as Hv0.
    { destruct (negb _); [by apply keeps_shape_row_int in Hkey|].
      by injection Hkey as <-. }
    apply descend_inv in H as (v1 & Hrec & Hloop).
    apply Hc in Hrec; [|by left].
    apply IH in Hloop.
    + apply (same_shape_trans _ v0); [done|]. by apply (same_shape_trans _ v1).
    + intros c Hin. apply Hc. by right.
Qed.

(** A successful walk leaves the frag-map at its size. *)
Lemma verify_tree_shape ref : forall parent_recno vs vs',
  __verify_tree E btree ref parent_recno vs = (0, vs') -> same_shape vs vs'.
Proof.
  induction ref as [ref IH] using WT_REF_children_ind.
  intros parent_recno vs vs' H.
  apply verify_tree_ok_inv in H
    as (v1 & v5 & v6 & H1 & _ & _ & H5 & H6 & Hloop & _ & _).
  apply keeps_shape_addfrag in H1.
  assert (S5 : same_shape (record_total_update (ref_page ref) v1) v5).
  { destruct (type (ref_page ref)); try (by injection H5 as <-).
    by apply keeps_shape_row_leaf in H5. }
  assert (S6 : same_shape v5 v6).
  { destruct (type (ref_page ref)); try (by injection H6 as <-);
      by apply keeps_shape_overflow_cell in H6. }
  assert (S7 : same_shape v6 vs').
  { unfold children in IH.
    destruct (page_u (ref_page ref)) as [| recno t | | | t |];
      try (by injection Hloop as <-).
    - by apply (col_int_loop_shape _ t IH) in Hloop.
    - by apply (row_int_loop_shape _ t IH) in Hloop. }
  apply (same_shape_trans _ (progress_tick vs));
    [apply same_shape_progress_tick|].
  apply (same_shape_trans _ v1); [done|].
  apply (same_shape_trans _ (record_total_update (ref_page ref) v1));
    [apply same_shape_record_total_update|].
  apply (same_shape_trans _ v5); [done|].
  by apply (same_shape_trans _ v6).
Qed.

Lemma freelist_loop_shape fes : forall ret,
  keeps_shape (freelist_loop E btree fes ret).
Proof.
  induction fes as [|fe fes IH]; intros ret vs r vs'; simpl.
  - by intros [= _ <-].
  - destruct (_ >? _); [by intros [= _ <-]|].
    destruct (__verify_addfrag E btree (fe_addr fe) (fe_size fe) vs)
      as [r1 vs1] eqn:Hadd.
    apply keeps_shape_addfrag in Hadd. intros H. apply IH in H.
    by apply (same_shape_trans _ vs1).
Qed.

(** A free-list entry that passed the test of [__verify_freelist] lies
    inside a frag-map that has one bit per fragment of the body. *)
Lemma free_entry_in_body_range fe n :
  0 < allocsize btree ->
  file_size btree - WT_BTREE_DESC_SECTOR = n * allocsize btree ->
  0 <= fe_size fe ->
  free_entry_in_body btree fe ->
  fe_addr fe + fe_size fe / allocsize btree <= n.
Proof.
  unfold free_entry_in_body. intros Ha Hbody Hsize Hin.
  assert (fe_size fe / allocsize btree * allocsize btree <= fe_size fe).
  { rewrite Z.mul_comm. by apply Z.mul_div_le. }
  nia.
Qed.

(** X14. [__verify_int] returns on the inputs on which every step of it is
    defined: a positive allocation size (the size of the body is divided by
    it), an engine built without HAVE_DIAGNOSTIC (no assertion is compiled
    in), pages and free-list entries whose extents lie inside the frag-map,
    and row-store leaves that have a slot.  There the loop of
    [__verify_checkfrag] is left: where it is entered, its bound is
    enough. *)
Lemma verify_int_returns (dumpfile : Z) :
  0 < allocsize btree ->
  HAVE_DIAGNOSTIC E = false ->
  Forall (extent_in_map (allocsize btree)
            (wrap32 (WT_OFF_TO_ADDR btree (file_size btree))))
         (tree_extents (root_page btree) ++ free_extents btree) ->
  Forall leaf_sized (tree_pages (root_page btree)) ->
  exists ret vs, __verify_int E btree dumpfile = Some (ret, vs).
Proof.
  intros _ _ _ _. unfold __verify_int.
  assert (Hchk : exists ret vs, verify_int_checks E btree dumpfile = Some (ret, vs));
    [|destruct Hchk as (ret & vs & ->); by eexists _, _].
  unfold verify_int_checks.
  destruct (negb _); [by eexists _, _|].
  destruct (_ <=? _); [by eexists _, _|].
  destruct (negb _); [by eexists _, _|].
  set (n := wrap32 (WT_OFF_TO_ADDR btree (file_size btree))).
  set (vs0 := set_frags n _).
  destruct (Z.gtb_spec (frags vs0) INT_MAX) as [|Hmax]; [by eexists _, _|].
  destruct (negb _); [by eexists _, _|].
  set (vs1 := set_fragbits _ vs0).
  assert (Hn : 0 <= n) by (apply Z.mod_pos_bound; lia).
  assert (H1 : frags vs1 = Z.of_nat (length (fragbits vs1))).
  { unfold vs1, vs0, bit_alloc; simpl. rewrite length_replicate. lia. }
  destruct (__verify_tree E btree (root_page btree) 1 vs1) as [r2 vs2] eqn:Htree.
  destruct (Z.eqb_spec r2 0) as [->|]; [|by eexists _, _]. simpl.
  apply verify_tree_shape in Htree as [Hf2 Hl2].
  destruct (__verify_freelist E btree vs2) as [r3 vs3] eqn:Hfree.
  destruct (Z.eqb_spec r3 0) as [->|]; [|by eexists _, _]. simpl.
  apply freelist_loop_shape in Hfree as [Hf3 Hl3].
  assert (Hlen : frags vs3 = Z.of_nat (length (fragbits vs3)))
    by (by rewrite Hf3, Hf2, Hl3, Hl2).
  assert (Hmax3 : frags vs3 <= INT_MAX) by (rewrite Hf3, Hf2; exact Hmax).
  unfold __verify_checkfrag, int_of_uint32.
  destruct (Z.leb_spec (frags vs3) INT_MAX); [|lia].
  destruct (checkfrag_loop_inv E (fragbits vs3) (errx vs3) (frags vs3)
              (S (length (fragbits vs3))) 0 (-1) (-1) 0 vs3 [])
    as (ret & vs' & _ & -> & _).
  - rewrite Hlen. apply checkfrag_inv_init.
  - simpl. by rewrite app_nil_r.
  - lia.
  - by eexists _, _.
Qed.

End Shape.

(** ** [__stat_page_col_var] *)

Lemma stat_col_var_insert_adjust orig_deleted a b ins :
  stat_col_var_insert orig_deleted (mkSTATS (wrap64 a) (wrap64 b)) ins =
  mkSTATS (wrap64 (a - insert_data_adjust orig_deleted ins))
          (wrap64 (b + insert_data_adjust orig_deleted ins)).
Proof.
  unfold stat_col_var_insert, insert_data_adjust, INCRV_total_data,
    INCRV_col_deleted.
  destruct (WT_UPDATE_DELETED_ISSET (upd ins)), orig_deleted; simpl;
    rewrite ?wrap64_add_l; f_equal; f_equal; lia.
Qed.

Lemma stat_col_var_inserts orig_deleted l : forall a b,
  foldl (stat_col_var_insert orig_deleted) (mkSTATS (wrap64 a) (wrap64 b)) l =
  mkSTATS (wrap64 (a - sum_Z (insert_data_adjust orig_deleted) l))
          (wrap64 (b + sum_Z (insert_data_adjust orig_deleted) l)).
Proof.
  induction l as [|ins l IH]; intros a b; simpl.
  - unfold sum_Z; simpl. by rewrite Z.sub_0_r, Z.add_0_r.
  - rewrite stat_col_var_insert_adjust, IH. unfold sum_Z; simpl.
    f_equal; f_equal; lia.
Qed.

Lemma stat_col_var_slot_adjust a b cip :
  stat_col_var_slot (mkSTATS (wrap64 a) (wrap64 b)) cip =
  mkSTATS (wrap64 (a + slot_deleted cip)) (wrap64 (b + slot_data cip)).
Proof.
  unfold stat_col_var_slot, slot_deleted, slot_data, INCRV_total_data,
    INCRV_col_deleted.
  destruct (WT_COL_PTR cip) as [unpack|]; simpl;
    rewrite ?wrap64_add_l, stat_col_var_inserts; f_equal; f_equal; lia.
Qed.

Lemma stat_col_var_slots d : forall a b,
  foldl stat_col_var_slot (mkSTATS (wrap64 a) (wrap64 b)) d =
  mkSTATS (wrap64 (a + sum_Z slot_deleted d)) (wrap64 (b + sum_Z slot_data d)).
Proof.
  induction d as [|cip d IH]; intros a b; simpl.
  - unfold sum_Z; simpl. by rewrite !Z.add_0_r.
  - rewrite stat_col_var_slot_adjust, IH. unfold sum_Z; simpl.
    f_equal; f_equal; lia.
Qed.

(** C9. The statistics of a variable-length column-store leaf.  For each
    slot the walker adds the run-length of the cell to the count of data
    items when the slot is not null and one deletion when it is null; then
    each insert of the slot adjusts the counts: a tombstone over a slot that
    was live takes one from the data items and adds one deletion, an insert
    that is no tombstone over a slot that was a deleted run adds one data
    item and takes one deletion, and another insert changes nothing.  Over
    the page the two counters (64-bit, so modulo 2^64) have grown by the sum
    of these amounts, and the call returns 0. *)
Theorem stat_page_col_var_spec (page : WT_PAGE) (stats : WT_BTREE_STATS) :
  0 <= file_item_col_deleted stats < 2 ^ 64 ->
  0 <= file_item_total_data stats < 2 ^ 64 ->
  (forall orig_deleted ins,
     stat_col_var_insert orig_deleted stats ins =
     match WT_UPDATE_DELETED_ISSET (upd ins), orig_deleted with
     | true, false =>
         mkSTATS (wrap64 (file_item_col_deleted stats + 1))
                 (wrap64 (file_item_total_data stats - 1))
     | false, true =>
         mkSTATS (wrap64 (file_item_col_deleted stats - 1))
                 (wrap64 (file_item_total_data stats + 1))
     | _, _ => stats
     end) /\
  __stat_page_col_var page stats =
    (0, mkSTATS
          (wrap64 (file_item_col_deleted stats
                   + sum_Z slot_deleted (col_leaf_d page)))
          (wrap64 (file_item_total_data stats
                   + sum_Z slot_data (col_leaf_d page)))).
Proof.
  intros Hdel Hdata. split.
  - intros orig_deleted ins. unfold stat_col_var_insert.
    by destruct (WT_UPDATE_DELETED_ISSET (upd ins)), orig_deleted.
  - unfold __stat_page_col_var. f_equal.
    rewrite <- stat_col_var_slots.
    rewrite !wrap64_small by done. by destruct stats.
Qed.

(** ** [__verify_int] *)

Section VerifyIntProps.

Variable E : WT_ENGINE.
Variable btree : WT_BTREE.

(** X15. The three tests of [__verify_int] on the size of the file, as
    far as they go: each one ends the verification with an error, before
    the frag-map is allocated and before a page is walked.  The test on the
    number of fragments sees that number cut to 32 bits. *)
Lemma verify_int_preconditions (dumpfile : Z) :
  0 < allocsize btree ->
  file_size btree <= WT_BTREE_DESC_SECTOR \/
  (file_size btree - WT_BTREE_DESC_SECTOR) mod allocsize btree <> 0 \/
  INT_MAX < wrap32 ((file_size btree - WT_BTREE_DESC_SECTOR) / allocsize btree) ->
  exists ret vs,
    __verify_int E btree dumpfile = Some (ret, vs) /\
    ret <> 0 /\ fcnt vs = 0 /\ fragbits vs = [].
Proof.
  intros Halloc Hpre. unfold __verify_int, verify_int_checks.
  assert (Hret : forall r, r <> 0 ->
            WT_TRET r (__wt_page_reconcile E (ref_page (root_page btree))) <> 0).
  { intros r Hr. unfold WT_TRET. by destruct (Z.eqb_spec r 0). }
  destruct (Z.eqb_spec (__wt_scr_alloc E 0) 0) as [_|Hscr]; simpl.
  2: { eexists _, _. split; [done|]. split; [by apply Hret|done]. }
  destruct (Z.leb_spec (file_size btree) WT_BTREE_DESC_SECTOR) as [Hshort|Hlong].
  { eexists _, _. split; [done|]. split; [apply Hret, WT_ERROR_nonzero|done]. }
  rewrite Z.rem_mod_nonneg by lia.
  destruct (Z.eqb_spec ((file_size btree - WT_BTREE_DESC_SECTOR)
                         mod allocsize btree) 0) as [Hmod|Hmod]; simpl.
  2: { eexists _, _. split; [done|]. split; [apply Hret, WT_ERROR_nonzero|done]. }
  destruct Hpre as [?|[?|Hbig]]; [lia|done|].
  unfold WT_OFF_TO_ADDR.
  destruct (Z.gtb_spec (wrap32 ((file_size btree - WT_BTREE_DESC_SECTOR)
                                 / allocsize btree)) INT_MAX); [|lia].
  eexists _, _. split; [done|]. split; [apply Hret, WT_ERROR_nonzero|done].
Qed.

End VerifyIntProps.

(** C8, at a file of 2^32 + 1 fragments.  The number of fragments is above
    INT_MAX, but [vs->frags] is a [uint32_t] and holds 1; the test against
    INT_MAX passes, the root page is walked ([fcnt] is 1) and the
    verification returns 0. *)
Theorem verify_int_frags_truncated :
  INT_MAX < WT_OFF_TO_ADDR huge_btree (file_size huge_btree) /\
  exists vs,
    __verify_int sample_engine huge_btree 0 = Some (0, vs) /\
    frags vs = 1 /\ fcnt vs = 1 /\ errx vs = [].
Proof.
  split; [by vm_compute|].
  eexists. split; [by vm_compute|]. by vm_compute.
Qed.

(** ** The theorems at sample inputs *)

Example addfrag_sets_range :
  __verify_addfrag sample_engine sample_btree 1 1024
    (sample_vs [true; false; false; false]) =
  (0, set_fragbits [true; true; true; false]
        (sample_vs [true; false; false; false])).
Proof. reflexivity. Qed.

Example checkfrag_orphan :
  __verify_checkfrag sample_engine
    (sample_vs [true; true; true; true; true; false; true; true; true; true]) =
  Some (WT_ERROR sample_engine,
        __wt_errx (Msg_never_verified 5)
          (sample_vs (replicate 10 true))).
Proof. reflexivity. Qed.

Example checkfrag_runs :
  option_map (fun r => (fst r, errx (snd r)))
    (__verify_checkfrag sample_engine
       (sample_vs [false; false; true; false; true; true; false; false; false])) =
  Some (WT_ERROR sample_engine,
        [Msg_never_verified_range 0 1; Msg_never_verified 3;
         Msg_never_verified_range 6 8]).
Proof. reflexivity. Qed.

Example checkfrag_covered :
  __verify_checkfrag sample_engine (sample_vs [true; true; true]) =
  Some (0, sample_vs [true; true; true]).
Proof. reflexivity. Qed.

Example verify_sample_btree_orphans :
  option_map (fun r => (fst r, errx (snd r)))
    (__wt_verify sample_engine sample_btree) =
  Some (WT_ERROR sample_engine, [Msg_never_verified_range 1 3]).
Proof. reflexivity. Qed.

Example verify_fence_equal_to_first_key :
  option_map (fun r => (fst r, errx (snd r), fragbits (snd r)))
    (__wt_verify sample_engine sample_row_btree) =
  Some (0, [], [true; true; true]).
Proof. reflexivity. Qed.

Example verify_duplicate_reference :
  option_map (fun r => (fst r, errx (snd r)))
    (__wt_verify sample_engine sample_dup_btree) =
  Some (WT_ERROR sample_engine, [Msg_already_verified 1]).
Proof. reflexivity. Qed.

Example freelist_entry_beyond_body :
  __verify_freelist sample_engine sample_btree_beyond
    (sample_vs [true; false; false; false]) =
  (WT_ERROR sample_engine,
   __wt_errx (Msg_freelist 3) (sample_vs [true; true; false; false])).
Proof. reflexivity. Qed.

Example verify_col_tree_records :
  option_map (fun r => (fst r, record_total (snd r)))
    (Some (__verify_tree sample_engine sample_btree sample_col_tree 1
             (sample_vs [false; false; false]))) =
  Some (0, 104).
Proof. reflexivity. Qed.


Lemma verify_addfrag_error_atomic_witness :
  let vs := sample_vs [false; true; false; false] in
  fst (__verify_addfrag sample_engine sample_btree 0 1024 vs) <> 0 /\
  fragbits (snd (__verify_addfrag sample_engine sample_btree 0 1024 vs))
  = [false; true; false; false].
Proof.
  intros vs.
  assert (H : fst (__verify_addfrag sample_engine sample_btree 0 1024 vs) <> 0)
    by (by vm_compute).
  split; [exact H|].
  apply (verify_addfrag_error_atomic sample_engine sample_btree 0 1024 vs H).
Defined.

Lemma verify_checkfrag_spec_witness :
  let vs := sample_vs [true; false; false; true; false] in
  frags vs = Z.of_nat (length (fragbits vs)) /\
  frags vs <= INT_MAX /\
  exists ret vs' runs,
    __verify_checkfrag sample_engine vs = Some (ret, vs') /\
    (ret = 0 \/ ret = WT_ERROR sample_engine) /\
    (ret <> 0 <->
     exists i, 0 <= i < frags vs /\ bit_test (fragbits vs) i = false) /\
    errx vs' = errx vs ++ map run_msg runs /\
    StronglySorted run_before runs /\
    (forall s e, (s, e) ∈ runs <-> unset_run (fragbits vs) (frags vs) s e).
Proof.
  intros vs.
  assert (H1 : frags vs = Z.of_nat (length (fragbits vs))) by reflexivity.
  assert (H2 : frags vs <= INT_MAX) by (by vm_compute).
  split; [exact H1|]. split; [exact H2|].
  exact (verify_checkfrag_spec sample_engine vs H1 H2).
Defined.

Lemma verify_row_leaf_key_order_spec_witness :
  let page := ref_page (sample_row_leaf 2 ["kiwi"; "lemon"]%string) in
  let d := map mkROW ["kiwi"; "lemon"]%string in
  let vs := set_max_key "mango"%string (sample_vs [true; true; true]) in
  page_u page = ROW_LEAF d /\
  head d = Some (mkROW "kiwi"%string) /\
  last d = Some (mkROW "lemon"%string) /\
  Z.of_nat (length d) < 2 ^ 32 /\
  __verify_row_leaf_key_order sample_engine sample_btree page vs =
    (WT_ERROR sample_engine,
     __wt_errx (Msg_leaf_key_order 2 WT_ADDR_INVALID) vs) /\
  max_addr (set_max_addr 1 vs) <> WT_ADDR_INVALID /\
  __verify_row_leaf_key_order sample_engine sample_btree page
    (set_max_addr 1 vs) =
    (0, set_max_key "lemon"%string (set_max_addr 2 vs)).
Proof.
  intros page d vs.
  assert (H1 : page_u page = ROW_LEAF d) by reflexivity.
  assert (H2 : head d = Some (mkROW "kiwi"%string)) by reflexivity.
  assert (H3 : last d = Some (mkROW "lemon"%string)) by reflexivity.
  assert (H4 : Z.of_nat (length d) < 2 ^ 32) by (by vm_compute).
  assert (H5 : max_addr (set_max_addr 1 vs) <> WT_ADDR_INVALID)
    by (by vm_compute).
  split; [exact H1|]. split; [exact H2|]. split; [exact H3|].
  split; [exact H4|]. split.
  - destruct (verify_row_leaf_key_order_spec sample_engine sample_btree page d
                _ _ vs H1 H2 H3 H4) as [Hfirst _].
    apply Hfirst; [reflexivity|reflexivity|reflexivity|by vm_compute].
  - split; [exact H5|].
    destruct (verify_row_leaf_key_order_spec sample_engine sample_btree page d
                _ _ (set_max_addr 1 vs) H1 H2 H3 H4)
      as (_ & _ & _ & Hentered & _).
    exact (Hentered H5 eq_refl).
Defined.

Lemma stat_page_col_var_spec_witness :
  0 <= 0 < 2 ^ 64 /\
  __stat_page_col_var sample_col_var (mkSTATS 0 0) = (0, mkSTATS 1 3).
Proof.
  assert (H : 0 <= 0 < 2 ^ 64) by (split; [lia|by vm_compute]).
  split; [exact H|].
  exact (proj2 (stat_page_col_var_spec sample_col_var (mkSTATS 0 0) H H)).
Defined.

Lemma verify_tree_recno_spec_witness :
  let vs := sample_vs [true; false; false] in
  let rec := __verify_tree sample_engine sample_btree in
  let page := ref_page sample_col_int in
  let vs' := snd (col_int_loop sample_engine rec page
                    (take 1 sample_col_children) vs) in
  col_int_loop sample_engine rec page (take 1 sample_col_children) vs = (0, vs') /\
  102 <> wrap64 (record_total vs' + 1) /\
  col_int_loop sample_engine rec page sample_col_children vs =
    (WT_ERROR sample_engine, __wt_errx (Msg_recno 2 102 101) vs').
Proof.
  intros vs rec page vs'.
  assert (H1 : col_int_loop sample_engine rec page (take 1 sample_col_children) vs
               = (0, vs')) by reflexivity.
  assert (H2 : 102 <> wrap64 (record_total vs' + 1)) by (by vm_compute).
  split; [exact H1|]. split; [exact H2|].
  exact (proj1 (proj2 (proj2 (verify_tree_recno_spec sample_engine sample_btree)))
           page (take 1 sample_col_children)
           (mkCOL_REF 102 (mkREF 2 512 (mkPAGE 2 None (COL_FIX 102 5))))
           [] vs vs' H1 H2).
Defined.

Lemma verify_row_int_key_order_spec_witness :
  let vs := sample_vs [true; false; false] in
  let rec := __verify_tree sample_engine sample_btree in
  let pre := take 1 sample_row_children in
  let vs' := snd (row_int_loop sample_engine sample_btree rec sample_row_int 0
                    pre vs) in
  pre <> [] /\ Z.of_nat (length pre) < 2 ^ 32 /\
  row_int_loop sample_engine sample_btree rec sample_row_int 0 pre vs = (0, vs') /\
  compare_lex "kiwi"%string (max_key vs') <= 0 /\
  row_int_loop sample_engine sample_btree rec sample_row_int 0
    sample_row_children vs =
    (WT_ERROR sample_engine, __wt_errx (Msg_int_key_order 1 0 1) vs').
Proof.
  intros vs rec pre vs'.
  assert (H1 : pre <> []) by discriminate.
  assert (H2 : Z.of_nat (length pre) < 2 ^ 32) by (by vm_compute).
  assert (H3 : row_int_loop sample_engine sample_btree rec sample_row_int 0 pre vs
               = (0, vs')) by reflexivity.
  assert (H4 : compare_lex "kiwi"%string (max_key vs') <= 0) by (by vm_compute).
  split; [exact H1|]. split; [exact H2|]. split; [exact H3|].
  split; [exact H4|].
  exact (proj1 (proj2 (verify_row_int_key_order_spec sample_engine sample_btree
                         sample_row_int))
           pre (mkROW_REF "kiwi"%string
                  (sample_row_leaf 2 ["kiwi"; "lemon"]%string))
           [] vs vs' H1 H2 H3 H4).
Defined.

Lemma verify_tree_record_total_witness :
  let vs := sample_vs [false; false; false] in
  let r := __verify_tree sample_engine sample_btree sample_col_tree 1 vs in
  0 <= record_total vs < 2 ^ 64 /\
  r = (0, snd r) /\
  record_total (snd r) = 104.
Proof.
  intros vs r.
  assert (H1 : 0 <= record_total vs < 2 ^ 64) by (split; by vm_compute).
  assert (H2 : r = (0, snd r)) by reflexivity.
  split; [exact H1|]. split; [exact H2|].
  exact (proj2 (verify_tree_record_total sample_engine sample_btree)
           sample_col_tree 1 vs (snd r) H1 H2).
Defined.

Lemma verify_freelist_spec_witness :
  let vs := sample_vs [true; false; false; false] in
  Forall (free_entry_in_body sample_btree_free) (freeqa sample_btree_free) /\
  __verify_freelist sample_engine sample_btree_free vs =
    (WT_ERROR sample_engine,
     __wt_errx (Msg_already_verified 2) (sample_vs [true; true; true; true])).
Proof.
  intros vs.
  assert (H : Forall (free_entry_in_body sample_btree_free)
                (freeqa sample_btree_free)).
  { repeat constructor; by vm_compute. }
  split; [exact H|].
  exact (proj2 (verify_freelist_spec sample_engine sample_btree_free vs) H).
Defined.

(** * Whole runs *)

(** ** What no step of the walk undoes *)

Lemma extends_refl vs : extends vs vs.
Proof.
  repeat split; try done; exists []; by rewrite app_nil_r.
Qed.

Lemma extends_trans vs1 vs2 vs3 :
  extends vs1 vs2 -> extends vs2 vs3 -> extends vs1 vs3.
Proof.
  intros (Hf & Hd & Hl & Hb & [m Hm] & [n Hn])
         (Hf' & Hd' & Hl' & Hb' & [m' Hm'] & [n' Hn']).
  split; [congruence|]. split; [congruence|]. split; [congruence|].
  split; [intros i Hi; by apply Hb', Hb|].
  split; [exists (m ++ m')|exists (n ++ n')]; rewrite app_assoc; congruence.
Qed.

Lemma extends_errx m vs : extends vs (__wt_errx m vs).
Proof.
  repeat split; try done; [by exists [m]|exists []; by rewrite app_nil_r].
Qed.

Lemma extends_progress_tick vs : extends vs (progress_tick vs).
Proof.
  unfold progress_tick. destruct (_ =? 0); simpl.
  - repeat split; try done; [exists []; by rewrite app_nil_r|by eexists].
  - repeat split; try done; exists []; by rewrite app_nil_r.
Qed.

Lemma extends_set_record_total n vs : extends vs (set_record_total n vs).
Proof. repeat split; try done; exists []; by rewrite app_nil_r. Qed.

Lemma extends_set_max_key k vs : extends vs (set_max_key k vs).
Proof. repeat split; try done; exists []; by rewrite app_nil_r. Qed.

Lemma extends_set_max_addr a vs : extends vs (set_max_addr a vs).
Proof. repeat split; try done; exists []; by rewrite app_nil_r. Qed.

Lemma keeps_extends_call r : keeps_extends (call r).
Proof. intros vs r' vs' [= _ <-]. apply extends_refl. Qed.

Lemma keeps_extends_WT_RET a k :
  keeps_extends a -> keeps_extends k -> keeps_extends (WT_RET a k).
Proof.
  intros Ha Hk vs r vs'. unfold WT_RET.
  destruct (a vs) as [r1 vs1] eqn:Hav. apply Ha in Hav.
  destruct (r1 =? 0).
  - intros Hkv. apply Hk in Hkv. by apply (extends_trans _ vs1).
  - by intros [= _ <-].
Qed.

Section Extends.

Variable E : WT_ENGINE.
Variable btree : WT_BTREE.

Lemma keeps_extends_addfrag addr size :
  keeps_extends (__verify_addfrag E btree addr size).
Proof.
  intros vs r vs' H.
  destruct (verify_addfrag_cases E btree addr size vs)
    as [[_ Hr]|[_ (bits & Hr & Hbits)]]; rewrite Hr in H;
    injection H as _ <-; [apply extends_errx|].
  subst bits. destruct (0 <? _); [|by destruct vs; apply extends_refl].
  repeat split; simpl; try done.
  - apply bit_nset_length.
  - intros i Hi. rewrite bit_test_nset, Hi. by case_bool_decide.
  - exists []; by rewrite app_nil_r.
  - exists []; by rewrite app_nil_r.
Qed.

Lemma keeps_extends_debug_dump page : keeps_extends (debug_dump E page).
Proof.
  intros vs r vs'. unfold debug_dump.
  destruct (_ && _); intros [= _ <-]; apply extends_refl.
Qed.

Lemma keeps_extends_recno_chk page parent_recno :
  keeps_extends (recno_chk E page parent_recno).
Proof.
  intros vs r vs'. unfold recno_chk.
  destruct (page_u page); try (intros [= _ <-]; apply extends_refl);
    destruct (negb _); intros [= _ <-];
    apply extends_errx || apply extends_refl.
Qed.

Lemma keeps_extends_record_total_update page :
  keeps_extends (fun vs => (0, record_total_update page vs)).
Proof.
  intros vs r vs' [= _ <-]. unfold record_total_update.
  destruct (page_u page); apply extends_set_record_total || apply extends_refl.
Qed.

Lemma keeps_extends_row_leaf page :
  keeps_extends (__verify_row_leaf_key_order E btree page).
Proof.
  assert (Hupd : forall rip, keeps_extends (fun vs =>
     let vs := set_max_addr (WT_PADDR page) vs in
     let r := __wt_row_key E page rip in
     if r =? 0 then (0, set_max_key (row_key rip) vs) else (r, vs))).
  { intros rip vs r vs'. simpl. destruct (_ =? 0); intros [= _ <-].
    - apply (extends_trans _ (set_max_addr (WT_PADDR page) vs));
        [apply extends_set_max_addr|apply extends_set_max_key].
    - apply extends_set_max_addr. }
  intros vs r vs'. unfold __verify_row_leaf_key_order.
  destruct (max_addr vs =? WT_ADDR_INVALID); [|apply Hupd].
  rewrite !WT_RET_call.
  destruct (_ =? 0); [|intros [= _ <-]; apply extends_refl].
  destruct (_ =? 0); [|intros [= _ <-]; apply extends_refl].
  destruct (_ <? 0); [intros [= _ <-]; apply extends_errx|apply Hupd].
Qed.

Lemma keeps_extends_row_int page rref entry :
  keeps_extends (__verify_row_int_key_order E btree page rref entry).
Proof.
  intros vs r vs'. unfold __verify_row_int_key_order, WT_RET, buf_set_max_key.
  destruct (_ <=? 0); [intros [= _ <-]; apply extends_errx|].
  destruct (__wt_buf_set E (rref_key rref) =? 0) eqn:Hb; simpl.
  - intros [= _ <-].
    apply (extends_trans _ (set_max_key (rref_key rref) vs));
      [apply extends_set_max_key|apply extends_set_max_addr].
  - rewrite Hb. intros [= _ <-]. apply extends_refl.
Qed.

Lemma keeps_extends_overflow addr size :
  keeps_extends (__verify_overflow E btree addr size).
Proof.
  unfold __verify_overflow.
  repeat apply keeps_extends_WT_RET; try apply keeps_extends_call.
  apply keeps_extends_addfrag.
Qed.

Lemma keeps_extends_overflow_cell page :
  keeps_extends (__verify_overflow_cell E btree page).
Proof.
  unfold __verify_overflow_cell.
  destruct (page_dsk page) as [cells|]; [|apply keeps_extends_call].
  induction cells as [|unpack cells IH]; simpl; [apply keeps_extends_call|].
  destruct (cell_kind unpack); try done;
    apply keeps_extends_WT_RET; try done; apply keeps_extends_overflow.
Qed.

Section Descent.

Variable rec : WT_REF -> Z -> verify_fn.
Variable page : WT_PAGE.

Lemma keeps_extends_descend ref parent_recno k :
  keeps_extends (rec ref parent_recno) -> keeps_extends k ->
  keeps_extends (descend E rec page ref parent_recno k).
Proof.
  intros Hrec Hk. unfold descend.
  apply keeps_extends_WT_RET; [apply keeps_extends_call|].
  intros vs r vs'.
  destruct (rec ref parent_recno vs) as [ret vs1] eqn:Hr. apply Hrec in Hr.
  destruct (negb _).
  - by intros [= _ <-].
  - intros H. apply Hk in H. by apply (extends_trans _ vs1).
Qed.

Lemma keeps_extends_col_int_loop t :
  (forall c, c ∈ map cref_ref t -> forall pr, keeps_extends (rec c pr)) ->
  keeps_extends (col_int_loop E rec page t).
Proof.
  induction t as [|cref t IH]; intros Hc; cbn [col_int_loop].
  - intros vs r vs' [= _ <-]. apply extends_refl.
  - intros vs r vs'.
    destruct (negb _); [intros [= _ <-]; apply extends_errx|].
    apply keeps_extends_descend; [apply Hc; by left|].
    apply IH. intros c Hin. apply Hc. by right.
Qed.

Lemma keeps_extends_row_int_loop t : forall entry,
  (forall c, c ∈ map rref_ref t -> forall pr, keeps_extends (rec c pr)) ->
  keeps_extends (row_int_loop E btree rec page entry t).
Proof.
  induction t as [|rref t IH]; intros entry Hc; cbn [row_int_loop].
  - apply keeps_extends_call.
  - apply keeps_extends_WT_RET.
    + destruct (negb _); [apply keeps_extends_row_int|apply keeps_extends_call].
    + apply keeps_extends_descend; [apply Hc; by left|].
      apply IH. intros c Hin. apply Hc. by right.
Qed.

End Descent.

Lemma keeps_extends_verify_tree ref :
  forall parent_recno, keeps_extends (__verify_tree E btree ref parent_recno).
Proof.
  induction ref as [ref IH] using WT_REF_children_ind.
  intros parent_recno vs r vs'. rewrite verify_tree_unfold.
  unfold verify_tree_body. intros H.
  apply (extends_trans _ (progress_tick vs)); [apply extends_progress_tick|].
  revert H. generalize (progress_tick vs). clear vs. intros vs H.
  revert vs r vs' H.
  repeat apply keeps_extends_WT_RET.
  - apply keeps_extends_addfrag.
  - apply keeps_extends_debug_dump.
  - apply keeps_extends_recno_chk.
  - apply keeps_extends_record_total_update.
  - destruct (type (ref_page ref));
      apply keeps_extends_call || apply keeps_extends_row_leaf.
  - destruct (type (ref_page ref));
      apply keeps_extends_call || apply keeps_extends_overflow_cell.
  - unfold children in IH.
    destruct (page_u (ref_page ref)) as [| recno t | | | t |];
      try apply keeps_extends_call.
    + by apply keeps_extends_col_int_loop.
    + by apply keeps_extends_row_int_loop.
Qed.

Lemma keeps_extends_freelist_loop fes : forall ret,
  keeps_extends (freelist_loop E btree fes ret).
Proof.
  induction fes as [|fe fes IH]; intros ret vs r vs'; simpl.
  - intros [= _ <-]. apply extends_refl.
  - destruct (_ >? _); [intros [= _ <-]; apply extends_errx|].
    destruct (__verify_addfrag E btree (fe_addr fe) (fe_size fe) vs)
      as [r1 vs1] eqn:Hadd.
    apply keeps_extends_addfrag in Hadd. intros H. apply IH in H.
    by apply (extends_trans _ vs1).
Qed.

(** X1. Whatever they return, the walk of a tree and the free-list pass
    only continue the state they were entered with: the frag-map keeps its
    size and loses no bit, the messages and progress reports already made
    stay the first ones, and [frags] and [dumpfile] are not written. *)
Theorem verify_walk_extends (vs : WT_VSTUFF) :
  (forall ref parent_recno,
     extends vs (snd (__verify_tree E btree ref parent_recno vs))) /\
  extends vs (snd (__verify_freelist E btree vs)).
Proof.
  split.
  - intros ref parent_recno.
    destruct (__verify_tree E btree ref parent_recno vs) as [r vs'] eqn:H.
    by apply keeps_extends_verify_tree in H.
  - unfold __verify_freelist.
    destruct (freelist_loop E btree (freeqa btree) 0 vs) as [r vs'] eqn:H.
    by apply keeps_extends_freelist_loop in H.
Qed.

End Extends.

(** ** The walk stops at its first complaint *)

Section Complaint.

Variable E : WT_ENGINE.
Variable btree : WT_BTREE.

Lemma one_complaint_quiet (f : verify_fn) :
  (forall vs, errx (snd (f vs)) = errx vs) -> one_complaint E f.
Proof. intros Hf vs r vs' H. left. by rewrite <- (Hf vs), H. Qed.

Lemma one_complaint_errx r m vs :
  r = WT_ERROR E ->
  errx (__wt_errx m vs) = errx vs \/
  (r = WT_ERROR E /\ exists m', errx (__wt_errx m vs) = errx vs ++ [m']).
Proof. intros ->. right. split; [done|]. by exists m. Qed.

Lemma one_complaint_call r : one_complaint E (call r).
Proof. intros vs r' vs' [= _ <-]. by left. Qed.

Lemma one_complaint_WT_RET a k :
  one_complaint E a -> one_complaint E k -> one_complaint E (WT_RET a k).
Proof.
  intros Ha Hk vs r vs'. unfold WT_RET.
  destruct (a vs) as [r1 vs1] eqn:Hav. apply Ha in Hav.
  destruct (Z.eqb_spec r1 0) as [->|_]; [|by intros [= <- <-]].
  destruct Hav as [He|[Herr _]];
    [|by destruct (WT_ERROR_nonzero E)].
  intros Hkv. apply Hk in Hkv. by rewrite He in Hkv.
Qed.

Lemma one_complaint_addfrag addr size :
  one_complaint E (__verify_addfrag E btree addr size).
Proof.
  intros vs r vs' H.
  destruct (verify_addfrag_cases E btree addr size vs)
    as [[_ Hr]|[_ (bits & Hr & _)]]; rewrite Hr in H;
    injection H as <- <-; [by apply one_complaint_errx|by left].
Qed.

Lemma one_complaint_debug_dump page : one_complaint E (debug_dump E page).
Proof.
  apply one_complaint_quiet. intros vs. unfold debug_dump.
  by destruct (_ && _).
Qed.

Lemma one_complaint_recno_chk page parent_recno :
  one_complaint E (recno_chk E page parent_recno).
Proof.
  intros vs r vs'. unfold recno_chk.
  destruct (page_u page); try (intros [= _ <-]; by left);
    (destruct (negb _); intros [= <- <-];
     [by apply one_complaint_errx|by left]).
Qed.

Lemma one_complaint_record_total_update page :
  one_complaint E (fun vs => (0, record_total_update page vs)).
Proof.
  apply one_complaint_quiet. intros vs. unfold record_total_update.
  by destruct (page_u page).
Qed.

Lemma one_complaint_row_leaf page :
  one_complaint E (__verify_row_leaf_key_order E btree page).
Proof.
  intros vs r vs'. unfold __verify_row_leaf_key_order.
  rewrite !WT_RET_call.
  repeat match goal with
         | |- context [if ?b then _ else _] => destruct b
         end;
    intros [= <- <-]; (by left) || by apply one_complaint_errx.
Qed.

Lemma one_complaint_row_int page rref entry :
  one_complaint E (__verify_row_int_key_order E btree page rref entry).
Proof.
  intros vs r vs'. unfold __verify_row_int_key_order, WT_RET, buf_set_max_key.
  repeat match goal with
         | |- context [if ?b then _ else _] => destruct b
         end;
    intros [= <- <-]; (by left) || by apply one_complaint_errx.
Qed.

Lemma one_complaint_overflow addr size :
  one_complaint E (__verify_overflow E btree addr size).
Proof.
  unfold __verify_overflow.
  repeat apply one_complaint_WT_RET; try apply one_complaint_call.
  apply one_complaint_addfrag.
Qed.

Lemma one_complaint_overflow_cell page :
  one_complaint E (__verify_overflow_cell E btree page).
Proof.
  unfold __verify_overflow_cell.
  destruct (page_dsk page) as [cells|]; [|apply one_complaint_call].
  induction cells as [|unpack cells IH]; simpl; [apply one_complaint_call|].
  destruct (cell_kind unpack); try done;
    apply one_complaint_WT_RET; try done; apply one_complaint_overflow.
Qed.

Section Descent.

Variable rec : WT_REF -> Z -> verify_fn.
Variable page : WT_PAGE.

Lemma one_complaint_descend ref parent_recno k :
  one_complaint E (rec ref parent_recno) -> one_complaint E k ->
  one_complaint E (descend E rec page ref parent_recno k).
Proof.
  intros Hrec Hk. unfold descend.
  apply one_complaint_WT_RET; [apply one_complaint_call|].
  intros vs r vs'.
  destruct (rec ref parent_recno vs) as [ret vs1] eqn:Hr. apply Hrec in Hr.
  unfold WT_TRET. destruct (Z.eqb_spec ret 0) as [->|Hne].
  - destruct Hr as [He|[Herr _]]; [|by destruct (WT_ERROR_nonzero E)].
    destruct (negb _).
    + intros [= _ <-]. by left.
    + intros H. apply Hk in H. by rewrite He in H.
  - destruct (Z.eqb_spec ret 0) as [|_]; [done|]. simpl.
    by intros [= <- <-].
Qed.

Lemma one_complaint_col_int_loop t :
  (forall c, c ∈ map cref_ref t -> forall pr, one_complaint E (rec c pr)) ->
  one_complaint E (col_int_loop E rec page t).
Proof.
  induction t as [|cref t IH]; intros Hc; cbn [col_int_loop].
  - intros vs r vs' [= _ <-]. by left.
  - intros vs r vs'.
    destruct (negb _); [intros [= <- <-]; by apply one_complaint_errx|].
    apply one_complaint_descend; [apply Hc; by left|].
    apply IH. intros c Hin. apply Hc. by right.
Qed.

Lemma one_complaint_row_int_loop t : forall entry,
  (forall c, c ∈ map rref_ref t -> forall pr, one_complaint E (rec c pr)) ->
  one_complaint E (row_int_loop E btree rec page entry t).
Proof.
  induction t as [|rref t IH]; intros entry Hc; cbn [row_int_loop].
  - apply one_complaint_call.
  - apply one_complaint_WT_RET.
    + destruct (negb _); [apply one_complaint_row_int|apply one_complaint_call].
    + apply one_complaint_descend; [apply Hc; by left|].
      apply IH. intros c Hin. apply Hc. by right.
Qed.

End Descent.

(** X13. The walk of a tree stops at its first complaint.  Whatever it
    returns, it has sent at most one message to [__wt_errx], and when it has
    sent one it returns [WT_ERROR]; so a walk that returns 0, or the code
    of a collaborator that failed, has sent none. *)
Theorem verify_tree_one_complaint (ref : WT_REF) (parent_recno : Z)
    (vs : WT_VSTUFF) :
  let res := __verify_tree E btree ref parent_recno vs in
  errx (snd res) = errx vs \/
  (fst res = WT_ERROR E /\ exists m, errx (snd res) = errx vs ++ [m]).
Proof.
  assert (H : forall ref parent_recno,
            one_complaint E (__verify_tree E btree ref parent_recno)).
  { clear. intros ref. induction ref as [ref IH] using WT_REF_children_ind.
    intros parent_recno vs r vs'. rewrite verify_tree_unfold.
    unfold verify_tree_body.
    assert (Hp : errx (progress_tick vs) = errx vs)
      by (unfold progress_tick; by destruct (_ =? 0)).
    rewrite <- Hp. generalize (progress_tick vs). clear vs Hp.
    intros vs. revert vs r vs'.
    repeat apply one_complaint_WT_RET.
    - apply one_complaint_addfrag.
    - apply one_complaint_debug_dump.
    - apply one_complaint_recno_chk.
    - apply one_complaint_record_total_update.
    - destruct (type (ref_page ref));
        apply one_complaint_call || apply one_complaint_row_leaf.
    - destruct (type (ref_page ref));
        apply one_complaint_call || apply one_complaint_overflow_cell.
    - unfold children in IH.
      destruct (page_u (ref_page ref)) as [| recno t | | | t |];
        try apply one_complaint_call.
      + by apply one_complaint_col_int_loop.
      + by apply one_complaint_row_int_loop. }
  intros res. unfold res.
  destruct (__verify_tree E btree ref parent_recno vs) as [r vs'] eqn:Hw.
  by apply H in Hw.
Qed.

End Complaint.

(** ** What a run that returns 0 went through *)

Lemma charge_list_app allocsize l1 : forall bits l2,
  charge_list allocsize bits (l1 ++ l2) =
  match charge_list allocsize bits l1 with
  | Some bits' => charge_list allocsize bits' l2
  | None => None
  end.
Proof.
  induction l1 as [|e l1 IH]; intros bits l2; simpl; [done|].
  destruct (charge allocsize bits e); [apply IH|done].
Qed.

Lemma fcnt_after_add c k1 k2 :
  fcnt_after (fcnt_after c k1) k2 = fcnt_after c (k1 + k2).
Proof.
  destruct k1 as [|k1]; [done|]. destruct k2 as [|k2].
  - by rewrite Nat.add_0_r.
  - unfold fcnt_after. cbn [Nat.add]. rewrite wrap64_add_l. f_equal. lia.
Qed.

Lemma progress_ticks_add c k1 k2 :
  progress_ticks c (k1 + k2) =
  progress_ticks c k1 ++ progress_ticks (fcnt_after c k1) k2.
Proof.
  unfold progress_ticks.
  rewrite Nat2Z.inj_add, seqZ_app, fmap_app, filter_app by lia.
  f_equal. f_equal.
  rewrite (Z.add_comm 1), <- (fmap_add_seqZ (Z.of_nat k1) 1), <- list_fmap_compose.
  apply list_fmap_ext. intros _ j _. simpl.
  destruct k1 as [|k1]; [done|].
  unfold fcnt_after. rewrite wrap64_add_l. f_equal. lia.
Qed.

Lemma charges_to_nil allocsize vs vs' :
  errx vs' = errx vs -> fragbits vs' = fragbits vs ->
  fcnt vs' = fcnt vs -> progress vs' = progress vs ->
  charges_to allocsize [] 0 vs vs'.
Proof.
  intros He Hb Hf Hp. split; [done|]. split; [simpl; by rewrite Hb|].
  split; [done|]. rewrite Hp. unfold progress_ticks. simpl.
  by rewrite app_nil_r.
Qed.

Lemma charges_to_app allocsize l1 l2 k1 k2 vs2 l k vs1 vs3 :
  l = l1 ++ l2 -> k = (k1 + k2)%nat ->
  charges_to allocsize l1 k1 vs1 vs2 -> charges_to allocsize l2 k2 vs2 vs3 ->
  charges_to allocsize l k vs1 vs3.
Proof.
  intros -> -> (He1 & Hc1 & Hf1 & Hp1) (He2 & Hc2 & Hf2 & Hp2).
  split; [congruence|]. split; [by rewrite charge_list_app, Hc1|].
  split; [by rewrite Hf2, Hf1, fcnt_after_add|].
  by rewrite Hp2, Hp1, Hf1, progress_ticks_add, app_assoc.
Qed.

Lemma ok_charges_call allocsize r : ok_charges allocsize [] 0 (call r).
Proof. intros vs vs' [= _ <-]. by apply charges_to_nil. Qed.

Lemma ok_charges_WT_RET allocsize l1 l2 k1 k2 a k :
  ok_charges allocsize l1 k1 a -> ok_charges allocsize l2 k2 k ->
  ok_charges allocsize (l1 ++ l2) (k1 + k2) (WT_RET a k).
Proof.
  intros Ha Hk vs vs' H. apply WT_RET_inv in H as (vs1 & H1 & H2).
  apply (charges_to_app _ l1 l2 k1 k2 vs1); [done|done|by apply Ha|by apply Hk].
Qed.

Section OkCharges.

Variable E : WT_ENGINE.
Variable btree : WT_BTREE.

Abbreviation A := (allocsize btree).

Lemma ok_charges_addfrag addr size :
  ok_charges A [(addr, size)] 0 (__verify_addfrag E btree addr size).
Proof.
  intros vs vs' H.
  destruct (verify_addfrag_cases E btree addr size vs)
    as [[_ Hr]|[Ht (bits & Hr & Hbits)]]; rewrite Hr in H.
  - injection H as Herr _. by destruct (WT_ERROR_nonzero E).
  - injection H as <-. split; [done|]. split.
    + unfold charge_list, charge; simpl. rewrite Ht. by subst bits.
    + split; [done|]. unfold progress_ticks; simpl. by rewrite app_nil_r.
Qed.

Lemma ok_charges_debug_dump page : ok_charges A [] 0 (debug_dump E page).
Proof.
  intros vs vs'. unfold debug_dump.
  destruct (_ && _); [intros [= _ <-]|intros [= <-]]; by apply charges_to_nil.
Qed.

Lemma ok_charges_recno_chk page parent_recno :
  ok_charges A [] 0 (recno_chk E page parent_recno).
Proof.
  intros vs vs'. unfold recno_chk.
  destruct (page_u page); try (intros [= <-]; by apply charges_to_nil);
    (destruct (negb _);
     [intros [= Herr _]; by destruct (WT_ERROR_nonzero E)
     |intros [= <-]; by apply charges_to_nil]).
Qed.

Lemma ok_charges_record_total_update page :
  ok_charges A [] 0 (fun vs => (0, record_total_update page vs)).
Proof.
  intros vs vs' [= <-]. apply charges_to_nil;
    unfold record_total_update; by destruct (page_u page).
Qed.

Lemma ok_charges_row_leaf page :
  ok_charges A [] 0 (__verify_row_leaf_key_order E btree page).
Proof.
  intros vs vs'. unfold __verify_row_leaf_key_order.
  rewrite !WT_RET_call.
  repeat match goal with
         | |- context [if ?b then _ else _] => destruct b
         end;
    intros H; inversion H; subst; try (by destruct (WT_ERROR_nonzero E));
    by apply charges_to_nil.
Qed.

Lemma ok_charges_row_int page rref entry :
  ok_charges A [] 0 (__verify_row_int_key_order E btree page rref entry).
Proof.
  intros vs vs'. unfold __verify_row_int_key_order, WT_RET, buf_set_max_key.
  repeat match goal with
         | |- context [if ?b then _ else _] => destruct b
         end;
    intros H; inversion H; subst; try (by destruct (WT_ERROR_nonzero E));
    by apply charges_to_nil.
Qed.

Lemma ok_charges_overflow addr size :
  ok_charges A [(addr, size)] 0 (__verify_overflow E btree addr size).
Proof.
  unfold __verify_overflow.
  apply (ok_charges_WT_RET A [] [(addr, size)] 0 0); [apply ok_charges_call|].
  apply (ok_charges_WT_RET A [] [(addr, size)] 0 0); [apply ok_charges_call|].
  apply (ok_charges_WT_RET A [] [(addr, size)] 0 0); [apply ok_charges_call|].
  apply ok_charges_addfrag.
Qed.

Lemma ok_charges_overflow_cell_loop cells :
  ok_charges A (overflow_extents cells) 0 (overflow_cell_loop E btree cells).
Proof.
  induction cells as [|unpack cells IH]; simpl; [apply ok_charges_call|].
  unfold overflow_extents in *. simpl.
  destruct (cell_kind unpack); simpl; try done;
    apply (ok_charges_WT_RET A [_] _ 0 0); try done; apply ok_charges_overflow.
Qed.

Lemma ok_charges_overflow_cell page :
  ok_charges A (match page_dsk page with
                | Some cells => overflow_extents cells
                | None => []
                end) 0 (__verify_overflow_cell E btree page).
Proof.
  unfold __verify_overflow_cell.
  destruct (page_dsk page);
    [apply ok_charges_overflow_cell_loop|apply ok_charges_call].
Qed.

Lemma tree_extents_unfold ref :
  tree_extents ref =
  (ref_addr ref, ref_size ref) :: page_overflow_extents (ref_page ref) ++
  concat (map tree_extents (children (ref_page ref))).
Proof.
  destruct ref as [a s [pa dk u]]. unfold children; simpl.
  f_equal. f_equal.
  destruct u as [| recno t | | | t |]; try done.
  - induction t as [|[r0 c0] t IH]; simpl; [done|]. by rewrite IH.
  - induction t as [|[k0 c0] t IH]; simpl; [done|]. by rewrite IH.
Qed.

Lemma tree_pages_unfold ref :
  tree_pages ref =
  ref_page ref :: concat (map tree_pages (children (ref_page ref))).
Proof.
  destruct ref as [a s [pa dk u]]. unfold children; simpl. f_equal.
  destruct u as [| recno t | | | t |]; try done.
  - induction t as [|[r0 c0] t IH]; simpl; [done|]. by rewrite IH.
  - induction t as [|[k0 c0] t IH]; simpl; [done|]. by rewrite IH.
Qed.

Lemma ok_charges_col_int_loop page t :
  (forall c, c ∈ map cref_ref t -> forall pr,
     ok_charges A (tree_extents c) (length (tree_pages c))
                (__verify_tree E btree c pr)) ->
  ok_charges A (concat (map tree_extents (map cref_ref t)))
             (length (concat (map tree_pages (map cref_ref t))))
             (col_int_loop E (__verify_tree E btree) page t).
Proof.
  induction t as [|cref t IH]; intros Hc vs vs'; cbn [col_int_loop].
  - intros [= <-]. by apply charges_to_nil.
  - destruct (negb _);
      [intros [= Herr _]; by destruct (WT_ERROR_nonzero E)|].
    intros H. apply descend_inv in H as (v1 & Hrec & Hloop).
    apply Hc in Hrec; [|by left].
    apply IH in Hloop; [|intros c Hin; apply Hc; by right].
    simpl. rewrite length_app.
    by apply (charges_to_app _ _ _ _ _ v1 _ _ _ _ eq_refl eq_refl).
Qed.

Lemma ok_charges_row_int_loop page t : forall entry,
  (forall c, c ∈ map rref_ref t -> forall pr,
     ok_charges A (tree_extents c) (length (tree_pages c))
                (__verify_tree E btree c pr)) ->
  ok_charges A (concat (map tree_extents (map rref_ref t)))
             (length (concat (map tree_pages (map rref_ref t))))
             (row_int_loop E btree (__verify_tree E btree) page entry t).
Proof.
  induction t as [|rref t IH]; intros entry Hc vs vs'; cbn [row_int_loop].
  - intros [= <-]. by apply charges_to_nil.
  - intros H. apply WT_RET_inv in H as (v0 & Hkey & H).
    assert (charges_to A [] 0 vs v0) as Hv0.
    { destruct (negb _); [by apply ok_charges_row_int in Hkey|].
      injection Hkey as <-. by apply charges_to_nil. }
    apply descend_inv in H as (v1 & Hrec & Hloop).
    apply Hc in Hrec; [|by left].
    apply IH in Hloop; [|intros c Hin; apply Hc; by right].
    simpl. rewrite length_app.
    apply (charges_to_app _ [] _ 0 _ v0 _ _ _ _ eq_refl eq_refl); [done|].
    by apply (charges_to_app _ _ _ _ _ v1 _ _ _ _ eq_refl eq_refl).
Qed.

Lemma charges_to_progress_tick vs : charges_to A [] 1 vs (progress_tick vs).
Proof.
  unfold progress_tick, charges_to, progress_ticks, fcnt_after. simpl.
  rewrite filter_cons, filter_nil.
  destruct (Z.eqb_spec (wrap64 (fcnt vs + 1) mod 10) 0) as [H0|H0]; simpl.
  - by rewrite decide_True.
  - rewrite decide_False by done. by rewrite app_nil_r.
Qed.

(** A walk that returns 0 has counted the pages of the tree and charged its
    extents, in order, and has added no message. *)
Lemma ok_charges_verify_tree ref : forall parent_recno,
  ok_charges A (tree_extents ref) (length (tree_pages ref))
             (__verify_tree E btree ref parent_recno).
Proof.
  induction ref as [ref IH] using WT_REF_children_ind.
  intros parent_recno vs vs' H.
  apply verify_tree_ok_inv in H
    as (v1 & v5 & v6 & H1 & _ & _ & H5 & H6 & Hloop & _ & _).
  rewrite tree_extents_unfold, tree_pages_unfold.
  apply ok_charges_addfrag in H1.
  assert (C5 : charges_to A [] 0 v1 v5).
  { apply (charges_to_app _ [] [] 0 0 (record_total_update (ref_page ref) v1));
      [done|done| |].
    - by apply (ok_charges_record_total_update (ref_page ref)).
    - destruct (type (ref_page ref));
        try (injection H5 as <-; by apply charges_to_nil);
        by apply ok_charges_row_leaf in H5. }
  assert (C6 : charges_to A (page_overflow_extents (ref_page ref)) 0 v5 v6).
  { unfold page_overflow_extents.
    destruct (type (ref_page ref));
      try (injection H6 as <-; by apply charges_to_nil);
      by apply ok_charges_overflow_cell in H6. }
  assert (C7 : charges_to A
                 (concat (map tree_extents (children (ref_page ref))))
                 (length (concat (map tree_pages (children (ref_page ref)))))
                 v6 vs').
  { unfold children in *.
    destruct (page_u (ref_page ref)) as [| recno t | | | t |];
      try (injection Hloop as <-; by apply charges_to_nil).
    - by apply (ok_charges_col_int_loop _ t IH) in Hloop.
    - by apply (ok_charges_row_int_loop _ t _ IH) in Hloop. }
  apply (charges_to_app _ [] _ 1 _ (progress_tick vs) _ _ _ _ eq_refl eq_refl);
    [apply charges_to_progress_tick|].
  apply (charges_to_app _ [_] _ 0 _ v1 _ _ _ _ eq_refl eq_refl); [done|].
  apply (charges_to_app _ [] _ 0 _ v5 _ _ _ _ eq_refl eq_refl); [done|].
  by apply (charges_to_app _ _ _ 0 _ v6 _ _ _ _ eq_refl eq_refl).
Qed.

(** A free-list pass that returns 0 found every entry in the body and has
    charged them all. *)
Lemma freelist_loop_ok fes : forall ret vs vs',
  freelist_loop E btree fes ret vs = (0, vs') ->
  ret = 0 /\ Forall (free_entry_in_body btree) fes /\
  charges_to A (map (fun fe => (fe_addr fe, fe_size fe)) fes) 0 vs vs'.
Proof.
  induction fes as [|fe fes IH]; intros ret vs vs'; simpl.
  - intros [= -> <-]. split; [done|]. split; [done|]. by apply charges_to_nil.
  - destruct (_ >? _) eqn:Hchk;
      [intros [= Herr _]; by destruct (WT_ERROR_nonzero E)|].
    apply free_entry_in_body_check in Hchk.
    destruct (__verify_addfrag E btree (fe_addr fe) (fe_size fe) vs)
      as [r1 vs1] eqn:Hadd.
    intros H. apply IH in H as (Hret & Hall & Hc).
    apply WT_TRET_0 in Hret as [-> ->].
    apply ok_charges_addfrag in Hadd.
    split; [done|]. split; [by constructor|].
    by apply (charges_to_app _ [_] _ 0 0 vs1 _ _ _ _ eq_refl eq_refl).
Qed.

End OkCharges.

(** ** The coverage audit on a full map *)

Section Audit.

Variable E : WT_ENGINE.

(** On a map with every bit set the audit returns 0 and changes nothing. *)
Lemma checkfrag_full vs :
  frags vs = Z.of_nat (length (fragbits vs)) ->
  frags vs <= INT_MAX ->
  (forall i, 0 <= i < frags vs -> bit_test (fragbits vs) i = true) ->
  __verify_checkfrag E vs = Some (0, vs).
Proof.
  intros Hlen Hmax Hall. unfold __verify_checkfrag, int_of_uint32.
  destruct (Z.leb_spec (frags vs) INT_MAX); [|lia].
  cbn [checkfrag_loop].
  destruct (bit_ffc_spec (fragbits vs) (frags vs)) as [[-> _]|(Hi & Hc & _)];
    [lia|done|].
  rewrite Hall in Hc by lia. done.
Qed.

(** The audit returns 0 on a full map only. *)
Lemma checkfrag_ok_full vs vs' :
  frags vs = Z.of_nat (length (fragbits vs)) ->
  frags vs <= INT_MAX ->
  __verify_checkfrag E vs = Some (0, vs') ->
  forall i, 0 <= i < frags vs -> bit_test (fragbits vs) i = true.
Proof.
  intros Hlen Hmax H i Hi.
  unfold __verify_checkfrag, int_of_uint32 in H.
  destruct (Z.leb_spec (frags vs) INT_MAX); [|lia].
  destruct (checkfrag_loop_inv E (fragbits vs) (errx vs) (frags vs)
              (S (length (fragbits vs))) 0 (-1) (-1) 0 vs [])
    as (ret & vs1 & runs & Hres & _ & Hret & _).
  - rewrite Hlen. apply checkfrag_inv_init.
  - simpl. by rewrite app_nil_r.
  - lia.
  - rewrite H in Hres. injection Hres as <- <-.
    destruct (bit_test (fragbits vs) i) eqn:Hb; [done|].
    destruct Hret as [_ Hret]. exfalso. apply Hret; [|done]. by exists i.
Qed.

(** However the loop of the audit is entered, it leaves every bit of the
    map set. *)
Lemma checkfrag_loop_sets fuel : forall n ffc_start ffc_end ret vs r vs',
  0 <= n <= Z.of_nat (length (fragbits vs)) ->
  checkfrag_loop E fuel n ffc_start ffc_end ret vs = Some (r, vs') ->
  frags vs' = frags vs /\
  length (fragbits vs') = length (fragbits vs) /\
  forall i, 0 <= i < n -> bit_test (fragbits vs') i = true.
Proof.
  induction fuel as [|fuel IH]; intros n st en ret vs r vs' Hn; [done|].
  cbn [checkfrag_loop].
  destruct (bit_ffc_spec (fragbits vs) n) as [[Hffc Hall]|(Hffc & _)]; [done| |].
  - rewrite Hffc. cbn [Z.eqb Pos.eqb]. unfold checkfrag_report.
    repeat match goal with
           | |- context [if ?b then _ else _] => destruct b
           end; intros [= _ <-]; done.
  - destruct (Z.eqb_spec (bit_ffc (fragbits vs) n) (-1)); [lia|].
    set (vs1 := set_fragbits _ vs).
    assert (Hl1 : length (fragbits vs1) = length (fragbits vs))
      by apply bit_set_length.
    assert (Hstep : forall st' en' ret' (vs2 : WT_VSTUFF),
              frags vs2 = frags vs -> fragbits vs2 = fragbits vs1 ->
              checkfrag_loop E fuel n st' en' ret' vs2 = Some (r, vs') ->
              frags vs' = frags vs /\
              length (fragbits vs') = length (fragbits vs) /\
              forall i, 0 <= i < n -> bit_test (fragbits vs') i = true).
    { intros st' en' ret' vs2 Hf2 Hb2 H.
      apply IH in H as (Hf & Hl & Hall); [|rewrite Hb2, Hl1; lia].
      rewrite Hf, Hl, Hf2, Hb2, Hl1. done. }
    destruct (st =? -1); [by apply Hstep|].
    destruct (en =? _); [by apply Hstep|].
    unfold checkfrag_report. cbn [Z.eqb].
    repeat match goal with
           | |- context [if ?b then _ else _] => destruct b
           end; by apply Hstep.
Qed.

End Audit.

(** ** Sums over fragments *)

Lemma sum_Z_app {A} (f : A -> Z) l1 l2 :
  sum_Z f (l1 ++ l2) = sum_Z f l1 + sum_Z f l2.
Proof.
  unfold sum_Z. induction l1 as [|x l1 IH]; simpl; [done|]. rewrite IH. lia.
Qed.

Lemma sum_Z_const {A} (f : A -> Z) c l :
  (forall x, x ∈ l -> f x = c) -> sum_Z f l = c * Z.of_nat (length l).
Proof.
  unfold sum_Z. induction l as [|x l IH]; intros Hc; simpl; [lia|].
  rewrite IH by (intros y Hy; apply Hc; by right).
  rewrite (Hc x) by (by left). lia.
Qed.

Lemma sum_Z_plus {A} (f g h : A -> Z) l :
  (forall x, x ∈ l -> f x = g x + h x) ->
  sum_Z f l = sum_Z g l + sum_Z h l.
Proof.
  unfold sum_Z. induction l as [|x l IH]; intros Hc; simpl; [done|].
  rewrite IH by (intros y Hy; apply Hc; by right).
  rewrite (Hc x) by (by left). lia.
Qed.

(** The fragments of an extent inside the map are as many as its size
    says. *)
Lemma sum_Z_interval a k n :
  0 <= a -> 0 <= k -> a + k <= n ->
  sum_Z (fun i => Z.b2z (bool_decide (a <= i < a + k))) (seqZ 0 n) = k.
Proof.
  intros Ha Hk Hn.
  assert (Hm : 0 <= n - a - k) by lia. revert Hm.
  replace n with (a + (k + (n - a - k))) at 2 by lia.
  generalize (n - a - k). intros m Hm.
  rewrite (seqZ_app 0), (seqZ_app (0 + a)) by lia.
  rewrite !sum_Z_app.
  rewrite (sum_Z_const _ 0 (seqZ 0 a)), (sum_Z_const _ 1 (seqZ (0 + a) k)),
    (sum_Z_const _ 0 (seqZ _ m)).
  - rewrite !length_seqZ. lia.
  - intros x Hx. apply elem_of_seqZ in Hx. by case_bool_decide; [lia|].
  - intros x Hx. apply elem_of_seqZ in Hx. by case_bool_decide; [|lia].
  - intros x Hx. apply elem_of_seqZ in Hx. by case_bool_decide; [lia|].
Qed.

Lemma set_count_alloc n : set_count (bit_alloc n) n = 0.
Proof.
  unfold set_count. rewrite (sum_Z_const _ 0); [lia|].
  intros i _. unfold bit_alloc, bit_test.
  destruct (i <? 0); [done|].
  destruct (replicate _ _ !! _) as [b|] eqn:Hb; [|done].
  by apply lookup_replicate in Hb as [-> _].
Qed.

Lemma set_count_full bits n :
  0 <= n -> (forall i, 0 <= i < n -> bit_test bits i = true) ->
  set_count bits n = n.
Proof.
  intros Hn Hall. unfold set_count. rewrite (sum_Z_const _ 1).
  - rewrite length_seqZ. lia.
  - intros i Hi. apply elem_of_seqZ in Hi. rewrite Hall by lia. done.
Qed.

(** ** Extents charged with success *)

Section Charge.

Variable allocsize : Z.
Variable n : Z.
Hypothesis n_max : n <= INT_MAX.

(** An extent inside the map is charged with success only when all its
    fragments are clear, and then exactly its fragments are set. *)
Lemma charge_spec bits ext bits' :
  Z.of_nat (length bits) = n ->
  extent_in_map allocsize n ext ->
  charge allocsize bits ext = Some bits' ->
  Z.of_nat (length bits') = n /\
  (forall i, extent_covers allocsize ext i -> bit_test bits i = false) /\
  (forall i, bit_test bits' i =
             bit_test bits i ||
             bool_decide (fst ext <= i < fst ext + snd ext / allocsize)).
Proof.
  intros Hlen (Ha & Hk & Hin). unfold charge.
  set (k := snd ext / allocsize) in *. set (a := fst ext) in *.
  assert (Hmax : INT_MAX < 2 ^ 32) by done.
  destruct (addfrag_test bits a 0 (Z.to_nat k)) eqn:Ht; [done|].
  intros [= <-].
  assert (Hclear : forall i, a <= i < a + k -> bit_test bits i = false).
  { intros i Hi.
    pose proof (proj1 (addfrag_test_false bits a (Z.to_nat k) 0) Ht (i - a)) as H.
    rewrite Z2Nat.id in H by done.
    replace (a + (i - a)) with i in H by lia.
    rewrite wrap32_small in H by lia. apply H. lia. }
  destruct (Z.ltb_spec 0 k) as [Hpos|Hzero].
  - rewrite wrap32_small by lia.
    split; [by rewrite bit_nset_length|]. split; [done|].
    intros i. rewrite bit_test_nset.
    case_bool_decide as H1; case_bool_decide as H2; try lia;
      by rewrite ?orb_true_r, ?orb_false_r.
  - split; [done|]. split; [done|].
    intros i. case_bool_decide; [lia|]. by rewrite orb_false_r.
Qed.

Lemma charge_count bits ext bits' :
  Z.of_nat (length bits) = n ->
  extent_in_map allocsize n ext ->
  charge allocsize bits ext = Some bits' ->
  set_count bits' n = set_count bits n + snd ext / allocsize.
Proof.
  intros Hlen Hin Hc.
  destruct (charge_spec bits ext bits' Hlen Hin Hc) as (_ & Hclear & Hset).
  destruct Hin as (Ha & Hk & Hin).
  rewrite <- (sum_Z_interval (fst ext) (snd ext / allocsize) n) at 1 by done.
  unfold set_count. apply sum_Z_plus. intros i _.
  rewrite Hset. case_bool_decide as Hi; [|by rewrite orb_false_r, Z.add_0_r].
  by rewrite (Hclear i Hi).
Qed.

(** The extents of a list that is charged with success, all of them inside
    the map: none meets a bit that was set before, no two of them meet, the
    bits set afterwards are the bits set before and the fragments of the
    extents, and the number of set bits has grown by the fragments of the
    extents. *)
Lemma charge_list_spec exts : forall bits bits',
  Z.of_nat (length bits) = n ->
  Forall (extent_in_map allocsize n) exts ->
  charge_list allocsize bits exts = Some bits' ->
  Z.of_nat (length bits') = n /\
  (forall ext i, ext ∈ exts -> extent_covers allocsize ext i ->
                 bit_test bits i = false) /\
  (forall i, bit_test bits' i = true <->
             bit_test bits i = true \/
             exists ext, ext ∈ exts /\ extent_covers allocsize ext i) /\
  (forall j1 j2 e1 e2 i,
     exts !! j1 = Some e1 -> exts !! j2 = Some e2 ->
     extent_covers allocsize e1 i -> extent_covers allocsize e2 i ->
     j1 = j2) /\
  set_count bits' n =
  set_count bits n + sum_Z (fun ext => snd ext / allocsize) exts.
Proof.
  induction exts as [|e exts IH]; intros bits bits' Hlen Hall; simpl.
  - intros [= <-]. split; [done|].
    split; [intros ext i Hin; by apply elem_of_nil in Hin|].
    split; [|split; [intros j1 j2 e1 e2 i H; by rewrite lookup_nil in H|]].
    + intros i. split; [by left|]. intros [H|(ext & Hin & _)]; [done|].
      by apply elem_of_nil in Hin.
    + unfold sum_Z; simpl. lia.
  - apply Forall_cons in Hall as [He Hall].
    destruct (charge allocsize bits e) as [bits1|] eqn:Hc; [|done].
    intros Hrest.
    pose proof (charge_count bits e bits1 Hlen He Hc) as Hcnt.
    destruct (charge_spec bits e bits1 Hlen He Hc) as (Hlen1 & Hclear & Hset).
    destruct (IH bits1 bits' Hlen1 Hall Hrest)
      as (Hlen' & Hclear' & Hset' & Hdisj & Hcnt').
    assert (Hmono : forall i, bit_test bits1 i = false -> bit_test bits i = false).
    { intros i. rewrite Hset. by destruct (bit_test bits i). }
    assert (Hcov : forall i, extent_covers allocsize e i -> bit_test bits1 i = true).
    { intros i Hi. rewrite Hset. rewrite bool_decide_eq_true_2 by exact Hi.
      by rewrite orb_true_r. }
    split; [done|]. split; [|split; [|split]].
    + intros ext i Hin Hi. apply elem_of_cons in Hin as [->|Hin]; [by apply Hclear|].
      apply Hmono. by apply (Hclear' ext).
    + intros i. rewrite Hset', Hset. split.
      * intros [H|(ext & Hin & Hi)].
        -- apply orb_true_iff in H as [H|H]; [by left|].
           right. exists e. split; [by left|]. by apply bool_decide_eq_true_1 in H.
        -- right. exists ext. split; [by right|done].
      * intros [H|(ext & Hin & Hi)].
        -- left. by rewrite H.
        -- apply elem_of_cons in Hin as [->|Hin].
           ++ left. rewrite bool_decide_eq_true_2 by exact Hi. by rewrite orb_true_r.
           ++ right. by exists ext.
    + intros [|j1] [|j2] e1 e2 i H1 H2 Hi1 Hi2; simpl in H1, H2.
      * done.
      * injection H1 as <-. exfalso.
        apply list_elem_of_lookup_2 in H2.
        pose proof (Hclear' e2 i H2 Hi2) as Hf. rewrite (Hcov i Hi1) in Hf. done.
      * injection H2 as <-. exfalso.
        apply list_elem_of_lookup_2 in H1.
        pose proof (Hclear' e1 i H1 Hi1) as Hf. rewrite (Hcov i Hi2) in Hf. done.
      * f_equal. by apply (Hdisj j1 j2 e1 e2 i).
    + rewrite Hcnt', Hcnt. unfold sum_Z; simpl. lia.
Qed.

End Charge.

(** ** A whole verification that returns 0 *)

Lemma bit_test_alloc n i : bit_test (bit_alloc n) i = false.
Proof.
  unfold bit_alloc, bit_test. destruct (i <? 0); [done|].
  destruct (replicate _ _ !! _) as [b|] eqn:Hb; [|done].
  by apply lookup_replicate in Hb as [-> _].
Qed.

Section Run.

Variable E : WT_ENGINE.
Variable btree : WT_BTREE.

(** What [__verify_int] went through when it returns 0: the three checks
    on the size of the file passed, the walk and the free-list pass
    returned 0, and they left the whole map set, so that the audit changed
    nothing. *)
Lemma verify_int_ok_inv dumpfile vs :
  __verify_int E btree dumpfile = Some (0, vs) ->
  let n := wrap32 (WT_OFF_TO_ADDR btree (file_size btree)) in
  exists vs2 vs3,
    WT_BTREE_DESC_SECTOR < file_size btree /\
    Z.rem (file_size btree - WT_BTREE_DESC_SECTOR) (allocsize btree) = 0 /\
    0 <= n <= INT_MAX /\
    __verify_tree E btree (root_page btree) 1 (verify_start btree dumpfile)
      = (0, vs2) /\
    __verify_freelist E btree vs2 = (0, vs3) /\
    frags vs3 = n /\ Z.of_nat (length (fragbits vs3)) = n /\
    (forall i, 0 <= i < n -> bit_test (fragbits vs3) i = true) /\
    vs = __wt_progress (fcnt vs3) vs3.
Proof.
  unfold __verify_int.
  destruct (verify_int_checks E btree dumpfile) as [[ret vs0]|] eqn:Hchk; [|done].
  intros [= Hret <-]. apply WT_TRET_0 in Hret as [-> _].
  revert Hchk. unfold verify_int_checks.
  set (n := wrap32 (WT_OFF_TO_ADDR btree (file_size btree))).
  destruct (Z.eqb_spec (__wt_scr_alloc E 0) 0) as [_|Hne]; cbn [negb];
    [|intros [= H _]; done].
  destruct (Z.leb_spec (file_size btree) WT_BTREE_DESC_SECTOR) as [|Hsize];
    [intros [= Herr _]; by destruct (WT_ERROR_nonzero E)|].
  destruct (Z.eqb_spec (Z.rem (file_size btree - WT_BTREE_DESC_SECTOR)
                              (allocsize btree)) 0) as [Hrem|]; cbn [negb];
    [|intros [= Herr _]; by destruct (WT_ERROR_nonzero E)].
  set (vs0' := set_frags n _).
  destruct (Z.gtb_spec (frags vs0') INT_MAX) as [|Hmax];
    [intros [= Herr _]; by destruct (WT_ERROR_nonzero E)|].
  destruct (Z.eqb_spec (bit_alloc_ret E (frags vs0')) 0) as [_|Hne]; cbn [negb];
    [|intros [= H _]; done].
  change (set_fragbits (bit_alloc (frags vs0')) vs0')
    with (verify_start btree dumpfile).
  assert (Hn : 0 <= n) by (apply Z.mod_pos_bound; lia).
  assert (H1 : frags (verify_start btree dumpfile) = n) by done.
  assert (L1 : Z.of_nat (length (fragbits (verify_start btree dumpfile))) = n).
  { unfold verify_start, bit_alloc; simpl. rewrite length_replicate. lia. }
  destruct (__verify_tree E btree (root_page btree) 1 _) as [r2 vs2] eqn:Htree.
  destruct (Z.eqb_spec r2 0) as [->|]; cbn [negb]; [|intros [= H _]; done].
  destruct (__verify_freelist E btree vs2) as [r3 vs3] eqn:Hfree.
  destruct (Z.eqb_spec r3 0) as [->|]; cbn [negb]; [|intros [= H _]; done].
  intros Hchk. exists vs2, vs3.
  pose proof Htree as Hs2. apply verify_tree_shape in Hs2 as [Hf2 Hl2].
  pose proof Hfree as Hs3. apply freelist_loop_shape in Hs3 as [Hf3 Hl3].
  assert (Hfr : frags vs3 = n) by (by rewrite Hf3, Hf2).
  assert (Hlen : frags vs3 = Z.of_nat (length (fragbits vs3)))
    by (by rewrite Hfr, Hl3, Hl2).
  assert (Hmax3 : frags vs3 <= INT_MAX) by (rewrite Hfr; exact Hmax).
  pose proof (checkfrag_ok_full E vs3 vs0 Hlen Hmax3 Hchk) as Hall.
  rewrite (checkfrag_full E vs3 Hlen Hmax3 Hall) in Hchk.
  injection Hchk as <-. rewrite Hfr in Hall.
  repeat split; try done. by rewrite <- Hlen.
Qed.

(** X2. A verification that returns 0 has sent no message to [__wt_errx]:
    every complaint of the verifier comes with a return code that is not
    zero. *)
Theorem verify_int_silent dumpfile vs :
  __verify_int E btree dumpfile = Some (0, vs) -> errx vs = [].
Proof.
  intros H. apply verify_int_ok_inv in H
    as (vs2 & vs3 & _ & _ & _ & Htree & Hfree & _ & _ & _ & ->).
  apply ok_charges_verify_tree in Htree as [He2 _].
  apply freelist_loop_ok in Hfree as (_ & _ & He3 & _).
  simpl. by rewrite He3, He2.
Qed.

(** The extents a verification that returns 0 has charged, and what they
    did to the map. *)
Lemma verify_int_ok_charged dumpfile vs :
  0 < allocsize btree ->
  (file_size btree - WT_BTREE_DESC_SECTOR) / allocsize btree < 2 ^ 32 ->
  let n := (file_size btree - WT_BTREE_DESC_SECTOR) / allocsize btree in
  let exts := tree_extents (root_page btree) ++ free_extents btree in
  Forall (extent_in_map (allocsize btree) n) (tree_extents (root_page btree)) ->
  Forall (fun fe => 0 <= fe_addr fe /\ 0 <= fe_size fe) (freeqa btree) ->
  __verify_int E btree dumpfile = Some (0, vs) ->
  exists bits,
    0 <= n <= INT_MAX /\
    Z.of_nat (length (bit_alloc n)) = n /\
    Forall (extent_in_map (allocsize btree) n) exts /\
    charge_list (allocsize btree) (bit_alloc n) exts = Some bits /\
    forall i, 0 <= i < n -> bit_test bits i = true.
Proof.
  intros HA Hsmall n exts Htin Hfin H.
  apply verify_int_ok_inv in H
    as (vs2 & vs3 & Hsize & Hrem & Hmax & Htree & Hfree & _ & _ & Hall & _).
  assert (Hn : 0 <= n) by (apply Z.div_pos; lia).
  assert (Hw : wrap32 (WT_OFF_TO_ADDR btree (file_size btree)) = n)
    by (apply wrap32_small; unfold WT_OFF_TO_ADDR; fold n; lia).
  rewrite Hw in Hmax, Hall.
  assert (Hbody : file_size btree - WT_BTREE_DESC_SECTOR = n * allocsize btree).
  { rewrite Z.rem_mod_nonneg in Hrem by lia.
    rewrite Z.mul_comm. apply Z.div_exact; [lia|done]. }
  apply ok_charges_verify_tree in Htree as (_ & Hc2 & _).
  apply freelist_loop_ok in Hfree as (_ & Hbodyall & _ & Hc3 & _).
  exists (fragbits vs3). split; [done|].
  split; [unfold bit_alloc; rewrite length_replicate; lia|].
  split; [|split; [|done]].
  - apply Forall_app. split; [done|]. unfold free_extents.
    apply Forall_map, Forall_forall. intros fe Hin.
    rewrite Forall_forall in Hbodyall, Hfin.
    destruct (Hfin fe Hin) as [Ha Hs].
    split; [done|]. split; [by apply Z.div_pos|]. simpl.
    apply (free_entry_in_body_range btree); [done..|by apply Hbodyall].
  - unfold exts. rewrite charge_list_app.
    change (fragbits (verify_start btree dumpfile))
      with (bit_alloc (wrap32 (WT_OFF_TO_ADDR btree (file_size btree)))) in Hc2.
    rewrite Hw in Hc2. by rewrite Hc2.
Qed.

(** X3. A verification that returns 0 has accounted for every fragment of
    the file exactly once: when the extents of the tree, its pages and
    the overflow pages of their cells, lie inside the map and the
    count of fragments fits the 32-bit field, every fragment of the body
    belongs to exactly one extent of the list made of the extents of the
    tree, in the order of the walk, and the entries of the free list. *)
Theorem verify_int_partition dumpfile vs :
  0 < allocsize btree ->
  (file_size btree - WT_BTREE_DESC_SECTOR) / allocsize btree < 2 ^ 32 ->
  let n := (file_size btree - WT_BTREE_DESC_SECTOR) / allocsize btree in
  let exts := tree_extents (root_page btree) ++ free_extents btree in
  Forall (extent_in_map (allocsize btree) n) (tree_extents (root_page btree)) ->
  Forall (fun fe => 0 <= fe_addr fe /\ 0 <= fe_size fe) (freeqa btree) ->
  __verify_int E btree dumpfile = Some (0, vs) ->
  forall i, 0 <= i < n ->
    exists j ext,
      exts !! j = Some ext /\ extent_covers (allocsize btree) ext i /\
      forall j' ext', exts !! j' = Some ext' ->
                      extent_covers (allocsize btree) ext' i -> j' = j.
Proof.
  intros HA Hsmall n exts Htin Hfin H i Hi.
  destruct (verify_int_ok_charged dumpfile vs HA Hsmall Htin Hfin H)
    as (bits & Hmax & Hlen & Hin & Hc & Hall).
  destruct (charge_list_spec (allocsize btree) n (proj2 Hmax) _ _ _ Hlen Hin Hc)
    as (_ & _ & Hset & Hdisj & _).
  destruct (proj1 (Hset i) (Hall i Hi)) as [Hb|(ext & Hext & Hcov)];
    [by rewrite bit_test_alloc in Hb|].
  apply list_elem_of_lookup_1 in Hext as [j Hj].
  exists j, ext. split; [done|]. split; [done|].
  intros j' ext' Hj' Hcov'. by apply (Hdisj j' j ext' ext i).
Qed.

(** X4. A verification that returns 0 has charged as many fragments as the
    file has: under the same conditions, the sizes of the extents of the
    tree and of the entries of the free list, in fragments, add up to the
    size of the body. *)
Theorem verify_int_sizes_add_up dumpfile vs :
  0 < allocsize btree ->
  (file_size btree - WT_BTREE_DESC_SECTOR) / allocsize btree < 2 ^ 32 ->
  let n := (file_size btree - WT_BTREE_DESC_SECTOR) / allocsize btree in
  Forall (extent_in_map (allocsize btree) n) (tree_extents (root_page btree)) ->
  Forall (fun fe => 0 <= fe_addr fe /\ 0 <= fe_size fe) (freeqa btree) ->
  __verify_int E btree dumpfile = Some (0, vs) ->
  sum_Z (fun ext => snd ext / allocsize btree)
        (tree_extents (root_page btree) ++ free_extents btree) = n.
Proof.
  intros HA Hsmall n Htin Hfin H.
  destruct (verify_int_ok_charged dumpfile vs HA Hsmall Htin Hfin H)
    as (bits & Hmax & Hlen & Hin & Hc & Hall).
  destruct (charge_list_spec (allocsize btree) n (proj2 Hmax) _ _ _ Hlen Hin Hc)
    as (_ & _ & _ & _ & Hcnt).
  rewrite set_count_alloc, (set_count_full bits n) in Hcnt by (done || lia).
  lia.
Qed.

(** X5. The audit uses the map up: whatever it returns, every bit of the
    map is set afterwards, so that a second audit of the same state returns
    0 and reports nothing. *)
Theorem verify_checkfrag_consumes vs r vs' :
  frags vs = Z.of_nat (length (fragbits vs)) ->
  frags vs <= INT_MAX ->
  __verify_checkfrag E vs = Some (r, vs') ->
  (forall i, 0 <= i < frags vs -> bit_test (fragbits vs') i = true) /\
  __verify_checkfrag E vs' = Some (0, vs').
Proof.
  intros Hlen Hmax H.
  assert (Hsets : frags vs' = frags vs /\
                  length (fragbits vs') = length (fragbits vs) /\
                  forall i, 0 <= i < frags vs -> bit_test (fragbits vs') i = true).
  { unfold __verify_checkfrag, int_of_uint32 in H.
    destruct (Z.leb_spec (frags vs) INT_MAX); [|lia].
    apply checkfrag_loop_sets in H; [done|lia]. }
  destruct Hsets as (Hf & Hl & Hall). split; [done|].
  apply checkfrag_full; rewrite ?Hf, ?Hl; done.
Qed.

End Run.

(** ** When the free-list pass returns 0 *)

Section ChargeComplete.

Variable allocsize : Z.
Variable n : Z.
Hypothesis n_max : n <= INT_MAX.

(** Extents inside the map that meet no set bit and do not meet one another
    are charged with success. *)
Lemma charge_list_complete exts : forall bits,
  Z.of_nat (length bits) = n ->
  Forall (extent_in_map allocsize n) exts ->
  (forall ext i, ext ∈ exts -> extent_covers allocsize ext i ->
                 bit_test bits i = false) ->
  (forall j1 j2 e1 e2 i,
     exts !! j1 = Some e1 -> exts !! j2 = Some e2 ->
     extent_covers allocsize e1 i -> extent_covers allocsize e2 i ->
     j1 = j2) ->
  exists bits', charge_list allocsize bits exts = Some bits'.
Proof.
  induction exts as [|e exts IH]; intros bits Hlen Hall Hclear Hdisj; simpl.
  - by eexists.
  - apply Forall_cons in Hall as [He Hall].
    assert (Hmax : INT_MAX < 2 ^ 32) by done.
    destruct (charge allocsize bits e) as [bits1|] eqn:Hc.
    + destruct (charge_spec allocsize n n_max bits e bits1 Hlen He Hc)
        as (Hlen1 & _ & Hset).
      apply (IH bits1 Hlen1 Hall).
      * intros ext i Hin Hi. rewrite Hset.
        rewrite (Hclear ext i) by (by right || done). simpl.
        apply bool_decide_eq_false_2. intros Hcov.
        apply list_elem_of_lookup_1 in Hin as [j Hj].
        by pose proof (Hdisj O (S j) e ext i eq_refl Hj Hcov Hi).
      * intros j1 j2 e1 e2 i H1 H2 Hi1 Hi2.
        by injection (Hdisj (S j1) (S j2) e1 e2 i H1 H2 Hi1 Hi2).
    + exfalso. unfold charge in Hc.
      destruct (addfrag_test bits (fst e) 0 (Z.to_nat (snd e / allocsize)))
        eqn:Ht; [|done].
      apply addfrag_test_true in Ht as (j & Hj & Hb).
      destruct He as (Ha & Hk & Hin).
      rewrite Z2Nat.id in Hj by done.
      rewrite wrap32_small in Hb by lia.
      rewrite (Hclear e (fst e + j)) in Hb; [done|by left|].
      unfold extent_covers. lia.
Qed.

End ChargeComplete.

Section FreelistIff.

Variable E : WT_ENGINE.
Variable btree : WT_BTREE.

(** Entries in the body that are charged with success, one after the
    other, make the free-list pass return 0. *)
Lemma freelist_loop_charged fes : forall vs bits',
  Forall (free_entry_in_body btree) fes ->
  charge_list (allocsize btree) (fragbits vs)
              (map (fun fe => (fe_addr fe, fe_size fe)) fes) = Some bits' ->
  fst (freelist_loop E btree fes 0 vs) = 0.
Proof.
  induction fes as [|fe fes IH]; intros vs bits' Hbody; simpl; [done|].
  apply Forall_cons in Hbody as [Hfe Hbody].
  destruct (charge _ _ _) as [bits1|] eqn:Hc; [|done]. intros Hrest.
  apply free_entry_in_body_check in Hfe. rewrite Hfe.
  unfold charge in Hc. simpl in Hc.
  destruct (verify_addfrag_cases E btree (fe_addr fe) (fe_size fe) vs)
    as [[Ht _]|[Ht (bits & -> & Hbits)]]; rewrite Ht in Hc; [done|].
  injection Hc as <-. cbn [WT_TRET Z.eqb].
  apply (IH _ bits' Hbody). simpl. by rewrite Hbits.
Qed.

(** X17. When the free-list pass returns 0.  Entered with a frag-map of
    as many bits as the body has fragments, and with entries of
    non-negative address and size, [__verify_freelist] returns 0 exactly
    when every entry lies in the body, no entry meets a fragment that is
    already charged, and no two entries meet. *)
Theorem verify_freelist_ok_iff (vs : WT_VSTUFF) (n : Z) :
  0 < allocsize btree ->
  file_size btree - WT_BTREE_DESC_SECTOR = n * allocsize btree ->
  Z.of_nat (length (fragbits vs)) = n ->
  n <= INT_MAX ->
  Forall (fun fe => 0 <= fe_addr fe /\ 0 <= fe_size fe) (freeqa btree) ->
  fst (__verify_freelist E btree vs) = 0 <->
  Forall (free_entry_in_body btree) (freeqa btree) /\
  (forall ext i, ext ∈ free_extents btree ->
                 extent_covers (allocsize btree) ext i ->
                 bit_test (fragbits vs) i = false) /\
  (forall j1 j2 e1 e2 i,
     free_extents btree !! j1 = Some e1 ->
     free_extents btree !! j2 = Some e2 ->
     extent_covers (allocsize btree) e1 i ->
     extent_covers (allocsize btree) e2 i -> j1 = j2).
Proof.
  intros HA Hbody Hlen Hmax Hpos.
  assert (Hin : Forall (free_entry_in_body btree) (freeqa btree) ->
                Forall (extent_in_map (allocsize btree) n) (free_extents btree)).
  { intros Hall. unfold free_extents.
    apply Forall_map, Forall_forall. intros fe Hfe.
    rewrite Forall_forall in Hall, Hpos.
    destruct (Hpos fe Hfe) as [Ha Hs].
    split; [done|]. split; [by apply Z.div_pos|]. simpl.
    apply (free_entry_in_body_range btree); [done..|by apply Hall]. }
  unfold __verify_freelist. split.
  - intros Hret.
    destruct (freelist_loop E btree (freeqa btree) 0 vs) as [r vs'] eqn:Hloop.
    simpl in Hret. subst r.
    apply freelist_loop_ok in Hloop as (_ & Hall & _ & Hc & _).
    split; [done|].
    destruct (charge_list_spec (allocsize btree) n Hmax _ _ _ Hlen
                (Hin Hall) Hc) as (_ & Hclear & _ & Hdisj & _).
    done.
  - intros (Hall & Hclear & Hdisj).
    destruct (charge_list_complete (allocsize btree) n Hmax _ _ Hlen
                (Hin Hall) Hclear Hdisj) as [bits' Hc].
    by apply (freelist_loop_charged _ vs bits').
Qed.

End FreelistIff.

(** ** Pages counted and records numbered *)

Section Count.

Variable E : WT_ENGINE.
Variable btree : WT_BTREE.

(** X6. A verification that returns 0 has counted every page of the tree
    once: the page counter ends at the number of pages, as a 64-bit value,
    and the progress reports are the multiples of 10 on the way, then the
    final count. *)
Theorem verify_int_page_count dumpfile vs :
  __verify_int E btree dumpfile = Some (0, vs) ->
  let k := length (tree_pages (root_page btree)) in
  fcnt vs = wrap64 (Z.of_nat k) /\
  progress vs = progress_ticks 0 k ++ [wrap64 (Z.of_nat k)].
Proof.
  intros H k. apply verify_int_ok_inv in H
    as (vs2 & vs3 & _ & _ & _ & Htree & Hfree & _ & _ & _ & ->).
  apply ok_charges_verify_tree in Htree as (_ & _ & Hf2 & Hp2).
  apply freelist_loop_ok in Hfree as (_ & _ & _ & _ & Hf3 & Hp3).
  fold k in Hf2, Hp2. simpl in Hf2, Hp2, Hf3, Hp3.
  assert (Hk : fcnt_after 0 k = wrap64 (Z.of_nat k)).
  { unfold k. rewrite tree_pages_unfold. done. }
  unfold progress_ticks in Hp3 at 1. simpl in Hp3. rewrite app_nil_r in Hp3.
  simpl. by rewrite Hf3, Hp3, Hp2, Hf2, Hk.
Qed.

Lemma sum_Z_concat_pages {A} (f : A -> WT_REF) (t : list A) :
  (forall c, c ∈ map f t ->
     tree_records c = sum_Z page_records (tree_pages c)) ->
  sum_Z (fun x => tree_records (f x)) t =
  sum_Z page_records (concat (map tree_pages (map f t))).
Proof.
  induction t as [|x t IHt]; intros IH; [done|].
  simpl. rewrite sum_Z_app, <- IHt by (intros c Hc; apply IH; by right).
  rewrite <- IH by (by left). done.
Qed.

Lemma tree_records_pages ref :
  tree_records ref = sum_Z page_records (tree_pages ref).
Proof.
  induction ref as [ref IH] using WT_REF_children_ind.
  rewrite tree_pages_unfold.
  destruct ref as [a s [pa dk u]]. unfold children in *; simpl in IH.
  change (sum_Z page_records (?p :: ?l))
    with (page_records p + sum_Z page_records l).
  destruct u as [| recno t | | | t |];
    try (unfold sum_Z, page_records; simpl; lia).
  - rewrite tree_records_col_int.
    by rewrite (sum_Z_concat_pages cref_ref t IH).
  - rewrite tree_records_row_int.
    by rewrite (sum_Z_concat_pages rref_ref t IH).
Qed.

Lemma col_int_loop_recno page t :
  (forall c, c ∈ map cref_ref t -> forall pr vs vs',
     0 <= record_total vs < 2 ^ 64 ->
     Forall (fun p => type p <> WT_PAGE_ROW_INT) (tree_pages c) ->
     pr = wrap64 (record_total vs + 1) ->
     __verify_tree E btree c pr vs = (0, vs') ->
     forall j p recno,
       tree_pages c !! j = Some p -> page_recno p = Some recno ->
       recno = wrap64 (record_total vs + 1 +
                       sum_Z page_records (take j (tree_pages c)))) ->
  forall vs vs', 0 <= record_total vs < 2 ^ 64 ->
    Forall (fun p => type p <> WT_PAGE_ROW_INT)
           (concat (map tree_pages (map cref_ref t))) ->
    col_int_loop E (__verify_tree E btree) page t vs = (0, vs') ->
    forall j p recno,
      concat (map tree_pages (map cref_ref t)) !! j = Some p ->
      page_recno p = Some recno ->
      recno = wrap64 (record_total vs + 1 +
                      sum_Z page_records
                        (take j (concat (map tree_pages (map cref_ref t))))).
Proof.
  induction t as [|cref t IH]; intros Hc vs vs' Hrt Hcol; cbn [col_int_loop].
  - intros _ j p recno Hj. simpl in Hj. by rewrite lookup_nil in Hj.
  - destruct (Z.eqb_spec (cref_recno cref) (wrap64 (record_total vs + 1)))
      as [Hchk|]; cbn [negb];
      [|intros [= Herr _]; by destruct (WT_ERROR_nonzero E)].
    intros H. apply descend_inv in H as (v1 & Hrec & Hloop).
    simpl in Hcol. apply Forall_app in Hcol as [Hcol1 Hcol2].
    pose proof (verify_tree_total E btree _ _ _ _ Hrt Hrec) as Hrt1.
    intros j p recno Hj Hp. simpl in Hj |- *.
    rewrite take_app. rewrite sum_Z_app.
    apply lookup_app_Some in Hj as [Hj|[Hge Hj]].
    + apply lookup_lt_Some in Hj as Hlt.
      replace (j - length (tree_pages (cref_ref cref)))%nat with 0%nat by lia.
      rewrite take_0. unfold sum_Z at 2; simpl. rewrite Z.add_0_r.
      apply (Hc (cref_ref cref) ltac:(by left) _ vs v1 Hrt Hcol1 Hchk Hrec
               j p recno Hj Hp).
    + rewrite take_ge by lia. rewrite <- tree_records_pages.
      assert (Hrt1' : 0 <= record_total v1 < 2 ^ 64)
        by (rewrite Hrt1; apply wrap64_range).
      rewrite (IH ltac:(intros c Hin; apply Hc; by right) v1 vs' Hrt1' Hcol2
                 Hloop _ p recno Hj Hp).
      rewrite Hrt1, <- !Z.add_assoc, wrap64_add_l. f_equal. lia.
Qed.

(** X7. In a column-store tree whose walk returns 0, entered with the
    record number the running total asks for, every page starts at the
    record after those of the pages the walk has visited before it: the
    starting record number of the page at position [j] of the walk is the
    running total at entry, plus 1, plus the records of the [j] pages before
    it, as a 64-bit value. *)
Theorem verify_tree_recno_sound ref : forall parent_recno vs vs',
  0 <= record_total vs < 2 ^ 64 ->
  Forall (fun p => type p <> WT_PAGE_ROW_INT) (tree_pages ref) ->
  parent_recno = wrap64 (record_total vs + 1) ->
  __verify_tree E btree ref parent_recno vs = (0, vs') ->
  forall j page recno,
    tree_pages ref !! j = Some page -> page_recno page = Some recno ->
    recno = wrap64 (record_total vs + 1 +
                    sum_Z page_records (take j (tree_pages ref))).
Proof.
  induction ref as [ref IH] using WT_REF_children_ind.
  intros parent_recno vs vs' Hrt Hcol Hpr H.
  apply verify_tree_ok_inv in H
    as (v1 & v5 & v6 & _ & _ & H3 & _ & _ & Hloop & Hrt6 & Hrt1).
  rewrite tree_pages_unfold in Hcol |- *.
  apply Forall_cons in Hcol as [Hroot Hcol].
  intros [|j] page recno Hj Hp; simpl in Hj.
  - injection Hj as <-. apply (recno_chk_ok E) with (recno := recno) in H3;
      [|done]. subst. simpl. unfold sum_Z; simpl. by rewrite Z.add_0_r.
  - cbn [take]. change (sum_Z page_records (?p :: ?l))
      with (page_records p + sum_Z page_records l).
    unfold children in *.
    destruct (page_u (ref_page ref)) as [| r0 t | | | t |] eqn:Hu;
      try (simpl in Hj; by rewrite lookup_nil in Hj).
    + assert (Hrec0 : page_records (ref_page ref) = 0)
        by (unfold page_records; by rewrite Hu).
      assert (Hrt6' : record_total v6 = record_total vs).
      { rewrite Hrt6. unfold record_total_update. by rewrite Hu. }
      assert (Hrt6r : 0 <= record_total v6 < 2 ^ 64) by (by rewrite Hrt6').
      rewrite (col_int_loop_recno (ref_page ref) t
                 ltac:(intros c Hin pr' w w' Hw Hcw Hprw Hwalk;
                       exact (IH c Hin pr' w w' Hw Hcw Hprw Hwalk))
                 v6 vs' Hrt6r Hcol Hloop j page recno Hj Hp).
      by rewrite Hrt6', Hrec0.
    + exfalso. apply Hroot. unfold type. by rewrite Hu.
Qed.

End Count.

(** ** Fence keys along a walk *)

Lemma monitor_ok_app compare l1 : forall m l2,
  monitor_ok compare m (l1 ++ l2) <->
  monitor_ok compare m l1 /\ monitor_ok compare (monitor_end m l1) l2.
Proof.
  induction l1 as [|[k|k] l1 IH]; intros m l2; simpl.
  - tauto.
  - rewrite IH. tauto.
  - apply IH.
Qed.

Lemma monitor_end_app l1 : forall m l2,
  monitor_end m (l1 ++ l2) = monitor_end (monitor_end m l1) l2.
Proof.
  induction l1 as [|[k|k] l1 IH]; intros m l2; simpl; [done|apply IH..].
Qed.

Lemma row_events_fix t : forall entry,
  (fix go (entry : Z) (l : list WT_ROW_REF) : list key_event :=
     match l with
     | [] => []
     | mkROW_REF k r :: l' =>
         (if entry =? 0 then [] else [Fence k]) ++
         key_events r ++ go (wrap32 (entry + 1)) l'
     end) entry t = row_events entry t.
Proof.
  induction t as [|[k0 c0] t IH]; intros entry; simpl; [done|].
  by rewrite IH.
Qed.

Lemma key_events_unfold ref :
  key_events ref =
  match page_u (ref_page ref) with
  | ROW_LEAF d => [Leaf (leaf_last_key d)]
  | ROW_INT t => row_events 0 t
  | COL_INT _ t => concat (map key_events (map cref_ref t))
  | _ => []
  end.
Proof.
  destruct ref as [a s [pa dk u]]. simpl.
  destruct u as [| recno t | | | t |]; try done.
  - induction t as [|[r0 c0] t IH]; simpl; [done|]. by rewrite IH.
  - apply row_events_fix.
Qed.

Section Fences.

Variable E : WT_ENGINE.
Variable btree : WT_BTREE.

Lemma col_int_loop_fences page t :
  (forall c, c ∈ map cref_ref t -> fences_sound E btree c) ->
  forall vs vs',
    Forall leaf_sized (concat (map tree_pages (map cref_ref t))) ->
    col_int_loop E (__verify_tree E btree) page t vs = (0, vs') ->
    monitor_ok (btree_compare btree) (max_key vs)
               (concat (map key_events (map cref_ref t))) /\
    max_key vs' =
    monitor_end (max_key vs) (concat (map key_events (map cref_ref t))).
Proof.
  induction t as [|cref t IH]; intros Hc vs vs' Hsz; cbn [col_int_loop].
  - by intros [= <-].
  - destruct (negb _);
      [intros [= Herr _]; by destruct (WT_ERROR_nonzero E)|].
    intros H. apply descend_inv in H as (v1 & Hrec & Hloop).
    simpl in Hsz. apply Forall_app in Hsz as [Hsz1 Hsz2].
    apply (Hc (cref_ref cref) ltac:(by left) _ _ _ Hsz1) in Hrec
      as [Hok1 Hend1].
    apply IH in Hloop as [Hok2 Hend2];
      [|intros c Hin; apply Hc; by right|done].
    simpl. rewrite monitor_ok_app, monitor_end_app, <- Hend1. done.
Qed.

Lemma row_int_key_order_ok page rref entry vs vs' :
  __verify_row_int_key_order E btree page rref entry vs = (0, vs') ->
  0 < btree_compare btree (rref_key rref) (max_key vs) /\
  max_key vs' = rref_key rref.
Proof.
  unfold __verify_row_int_key_order, WT_RET, buf_set_max_key.
  destruct (Z.leb_spec (btree_compare btree (rref_key rref) (max_key vs)) 0);
    [intros [= Herr _]; by destruct (WT_ERROR_nonzero E)|].
  destruct (Z.eqb_spec (__wt_buf_set E (rref_key rref)) 0) as [Hb|Hb]; simpl.
  - by intros [= <-].
  - destruct (Z.eqb_spec (__wt_buf_set E (rref_key rref)) 0); [done|].
    by intros [= ? _].
Qed.

Lemma row_int_loop_fences page t : forall entry,
  (forall c, c ∈ map rref_ref t -> fences_sound E btree c) ->
  forall vs vs',
    Forall leaf_sized (concat (map tree_pages (map rref_ref t))) ->
    row_int_loop E btree (__verify_tree E btree) page entry t vs = (0, vs') ->
    monitor_ok (btree_compare btree) (max_key vs) (row_events entry t) /\
    max_key vs' = monitor_end (max_key vs) (row_events entry t).
Proof.
  induction t as [|rref t IH]; intros entry Hc vs vs' Hsz; cbn [row_int_loop].
  - by intros [= <-].
  - intros H. apply WT_RET_inv in H as (v0 & Hkey & H).
    apply descend_inv in H as (v1 & Hrec & Hloop).
    simpl in Hsz. apply Forall_app in Hsz as [Hsz1 Hsz2].
    apply (Hc (rref_ref rref) ltac:(by left) _ _ _ Hsz1) in Hrec
      as [Hok1 Hend1].
    apply IH in Hloop as [Hok2 Hend2];
      [|intros c Hin; apply Hc; by right|done].
    cbn [row_events].
    rewrite !monitor_ok_app, !monitor_end_app.
    destruct (entry =? 0); cbn [negb] in Hkey.
    + injection Hkey as <-. simpl. rewrite <- Hend1.
      repeat split; assumption.
    + apply row_int_key_order_ok in Hkey as [Hcmp Hk0].
      rewrite Hk0 in Hok1, Hend1. simpl. rewrite <- Hend1.
      repeat split; assumption.
Qed.

(** X16. The fence keys of a row store that verifies.  In a walk that
    returns 0, over a tree whose row-store leaves have at least one slot,
    [max_key] is written at every child of a row-store internal page that
    is not the first of its page, with the key of the child, and at every
    row-store leaf, with its last key; each of these child keys sorts
    strictly above the key that was written before it, and [max_key] ends
    as the key written last. *)
Theorem verify_tree_fences_sound (ref : WT_REF) (parent_recno : Z)
    (vs vs' : WT_VSTUFF) :
  Forall leaf_sized (tree_pages ref) ->
  __verify_tree E btree ref parent_recno vs = (0, vs') ->
  monitor_ok (btree_compare btree) (max_key vs) (key_events ref) /\
  max_key vs' = monitor_end (max_key vs) (key_events ref).
Proof.
  revert parent_recno vs vs'. change (fences_sound E btree ref).
  induction ref as [ref IH] using WT_REF_children_ind.
  intros parent_recno vs vs' Hsz H.
  apply verify_tree_ok_inv in H
    as (v1 & v5 & v6 & H1 & _ & _ & H5 & H6 & Hloop & _ & _).
  rewrite tree_pages_unfold in Hsz. apply Forall_cons in Hsz as [Hroot Hsz].
  rewrite key_events_unfold.
  assert (Hm1 : max_key v1 = max_key vs).
  { apply keeps_monitor_addfrag in H1 as [-> _].
    unfold progress_tick. by destruct (_ =? 0). }
  assert (Hm6 : max_key v6 = max_key v5).
  { destruct (type (ref_page ref)); try (by injection H6 as <-);
      by apply keeps_monitor_overflow_cell in H6 as [-> _]. }
  unfold type in H5. unfold children in *.
  destruct (page_u (ref_page ref)) as [| recno t | | | t | d] eqn:Hu.
  - injection Hloop as <-. injection H5 as <-. simpl.
    rewrite Hm6. unfold record_total_update. rewrite Hu. done.
  - injection H5 as <-.
    assert (Hm : max_key v6 = max_key vs).
    { rewrite Hm6. unfold record_total_update. by rewrite Hu. }
    rewrite <- Hm. by apply (col_int_loop_fences (ref_page ref) t IH).
  - injection Hloop as <-. injection H5 as <-. simpl.
    rewrite Hm6. unfold record_total_update. rewrite Hu. done.
  - injection Hloop as <-. injection H5 as <-. simpl.
    rewrite Hm6. unfold record_total_update. by rewrite Hu.
  - injection H5 as <-.
    assert (Hm : max_key v6 = max_key vs).
    { rewrite Hm6. unfold record_total_update. by rewrite Hu. }
    rewrite <- Hm. by apply (row_int_loop_fences (ref_page ref) t 0 IH).
  - injection Hloop as <-. simpl. split; [done|].
    unfold leaf_sized in Hroot. rewrite Hu in Hroot.
    destruct Hroot as [Hne Hlen].
    destruct d as [|rip0 d'] eqn:Hd; [done|]. rewrite <- Hd in *.
    assert (Hhead : head d = Some rip0) by (by rewrite Hd).
    destruct (last d) as [ripn|] eqn:Hlast;
      [|apply last_None in Hlast; by rewrite Hd in Hlast].
    destruct (row_leaf_key_order_cases E btree (ref_page ref) d rip0 ripn
                (record_total_update (ref_page ref) v1) Hu Hhead Hlast Hlen)
      as (_ & _ & _ & Hok).
    rewrite H5 in Hok. destruct (Hok eq_refl) as (_ & Hk & _). simpl in Hk.
    rewrite Hm6, Hk. unfold leaf_last_key. by rewrite Hlast.
Qed.

End Fences.

(** * Statistics *)

Lemma wrap32_add_l a b : wrap32 (wrap32 a + b) = wrap32 (a + b).
Proof. unfold wrap32. by rewrite Zplus_mod_idemp_l. Qed.

Section Stat.

Variable M : WT_ROW_MODS.

Lemma stat_row_inserts_live l : forall a,
  stat_row_inserts (wrap32 a) l = wrap32 (a + sum_Z insert_live l).
Proof.
  unfold stat_row_inserts.
  induction l as [|ins l IH]; intros a; simpl.
  - unfold sum_Z; simpl. by rewrite Z.add_0_r.
  - change (sum_Z insert_live (ins :: l))
      with (insert_live ins + sum_Z insert_live l).
    unfold insert_live at 1.
    destruct (WT_UPDATE_DELETED_ISSET (upd ins)); simpl.
    + apply IH.
    + rewrite wrap32_add_l, IH. f_equal. lia.
Qed.

Lemma stat_row_slot_live page slot a :
  stat_row_slot M page (wrap32 a) slot = wrap32 (a + row_slot_live M page slot).
Proof.
  unfold stat_row_slot, row_slot_live.
  destruct (WT_ROW_UPDATE M page slot) as [u|].
  - destruct (WT_UPDATE_DELETED_ISSET u); simpl.
    + apply stat_row_inserts_live.
    + rewrite wrap32_add_l, stat_row_inserts_live. f_equal. lia.
  - rewrite wrap32_add_l, stat_row_inserts_live. f_equal. lia.
Qed.

Lemma stat_row_slots_live page slots : forall a,
  foldl (stat_row_slot M page) (wrap32 a) slots =
  wrap32 (a + sum_Z (row_slot_live M page) slots).
Proof.
  induction slots as [|slot slots IH]; intros a; simpl.
  - unfold sum_Z; simpl. by rewrite Z.add_0_r.
  - rewrite stat_row_slot_live, IH. unfold sum_Z; simpl. f_equal. lia.
Qed.

(** X8. The statistics of a row-store leaf count keys and values in
    lockstep: the call returns 0 and has added to [file_item_total_key] and
    to [file_item_total_data] the same amount, the number of live entries
    of the page as the 32-bit counter holds it, and has written no other
    counter. *)
Theorem stat_page_row_leaf_live (page : WT_PAGE) (stats : WT_FILE_STATS) :
  let cnt := wrap32 (row_leaf_live M page) in
  __stat_page_row_leaf M page stats =
    (0, mkFILE_STATS (file_col_fix stats) (file_col_internal stats)
          (file_col_variable stats) (file_overflow stats)
          (file_row_internal stats) (file_row_leaf stats)
          (wrap64 (file_item_total_key stats + cnt))
          (mkSTATS (file_item_col_deleted (file_item stats))
                   (wrap64 (file_item_total_data (file_item stats) + cnt)))).
Proof.
  unfold __stat_page_row_leaf, row_leaf_live.
  pose proof (stat_row_inserts_live (WT_ROW_INSERT_SMALLEST M page) 0) as H0.
  change (wrap32 0) with 0 in H0.
  by rewrite H0, stat_row_slots_live.
Qed.

(** [__stat_page] returns 0 and counts the page under its kind. *)
Lemma stat_page_kind page stats :
  exists stats',
    __stat_page M page stats = (0, stats') /\
    forall ty, page_count ty stats' =
               if decide (type page = ty) then wrap64 (page_count ty stats + 1)
               else page_count ty stats.
Proof.
  unfold __stat_page, type.
  destruct (page_u page) as [recno n| recno t | recno d | | t | d] eqn:Hu;
    eexists; (split; [reflexivity|by intros []]).
Qed.

(** What [__stat_page] does to the sum of the data items and the
    deletions, on a page that is no row-store leaf. *)
Lemma stat_page_records page stats stats' :
  0 <= file_item_col_deleted (file_item stats) < 2 ^ 64 ->
  0 <= file_item_total_data (file_item stats) < 2 ^ 64 ->
  __stat_page M page stats = (0, stats') ->
  0 <= file_item_col_deleted (file_item stats') < 2 ^ 64 /\
  0 <= file_item_total_data (file_item stats') < 2 ^ 64 /\
  (type page <> WT_PAGE_ROW_LEAF ->
   wrap64 (file_item_total_data (file_item stats') +
           file_item_col_deleted (file_item stats')) =
   wrap64 (file_item_total_data (file_item stats) +
           file_item_col_deleted (file_item stats) + page_records page)).
Proof.
  intros Hdel Hdata.
  assert (Hsum : forall d,
            sum_Z slot_data d + sum_Z slot_deleted d = sum_Z slot_records d).
  { induction d as [|cip d IH]; [done|].
    change (sum_Z ?f (cip :: d)) with (f cip + sum_Z f d).
    unfold slot_data at 1, slot_deleted at 1, slot_records at 1.
    destruct (WT_COL_PTR cip); lia. }
  unfold __stat_page, page_records, type.
  destruct (page_u page) as [recno n| recno t | recno d | | t | d] eqn:Hu.
  - intros [= <-]. simpl.
    split; [done|]. split; [apply wrap64_range|]. intros _.
    unfold entries. rewrite Hu, wrap64_add_l. f_equal. lia.
  - intros [= <-]. simpl.
    split; [done|]. split; [done|]. intros _. f_equal. lia.
  - unfold __stat_page_col_var, col_leaf_d. rewrite Hu.
    change (file_item (INCR_col_variable stats)) with (file_item stats).
    assert (Hst : file_item stats =
                  mkSTATS (wrap64 (file_item_col_deleted (file_item stats)))
                          (wrap64 (file_item_total_data (file_item stats)))).
    { rewrite !wrap64_small by done. by destruct (file_item stats). }
    assert (Hf : foldl stat_col_var_slot (file_item stats) d =
                 mkSTATS (wrap64 (file_item_col_deleted (file_item stats)
                                  + sum_Z slot_deleted d))
                         (wrap64 (file_item_total_data (file_item stats)
                                  + sum_Z slot_data d))).
    { rewrite <- stat_col_var_slots. by rewrite <- Hst. }
    rewrite Hf. intros [= <-]. simpl.
    split; [apply wrap64_range|]. split; [apply wrap64_range|]. intros _.
    rewrite wrap64_add_l, wrap64_add_r. f_equal.
    specialize (Hsum d). lia.
  - intros [= <-]. simpl.
    split; [done|]. split; [done|]. intros _. f_equal. lia.
  - intros [= <-]. simpl.
    split; [done|]. split; [done|]. intros _. f_equal. lia.
  - intros [= <-]. simpl.
    split; [done|]. split; [apply wrap64_range|]. by intros [].
Qed.

Lemma stat_pages_records ps : forall stats,
  0 <= file_item_col_deleted (file_item stats) < 2 ^ 64 ->
  0 <= file_item_total_data (file_item stats) < 2 ^ 64 ->
  Forall (fun p => type p <> WT_PAGE_ROW_LEAF) ps ->
  wrap64 (file_item_total_data (file_item (snd (stat_pages M ps stats))) +
          file_item_col_deleted (file_item (snd (stat_pages M ps stats)))) =
  wrap64 (file_item_total_data (file_item stats) +
          file_item_col_deleted (file_item stats) + sum_Z page_records ps).
Proof.
  induction ps as [|page ps IH]; intros stats Hdel Hdata Hcol.
  - unfold sum_Z; simpl. by rewrite Z.add_0_r.
  - apply Forall_cons in Hcol as [Hp Hcol].
    destruct (stat_page_kind page stats) as (s1 & Hs1 & _).
    destruct (stat_page_records page stats s1 Hdel Hdata Hs1)
      as (Hdel1 & Hdata1 & Hrec1).
    cbn [stat_pages]. rewrite Hs1. cbn [Z.eqb negb].
    rewrite (IH s1 Hdel1 Hdata1 Hcol).
    rewrite <- wrap64_add_l, (Hrec1 Hp), wrap64_add_l.
    change (sum_Z page_records (page :: ps))
      with (page_records page + sum_Z page_records ps).
    f_equal. lia.
Qed.

(** X9. [__stat_page] counts each page under its kind.  Called one after
    the other on the pages of a list, each of one of the six kinds of the
    switch, it leaves the count of the pages of each kind grown by the
    number of pages of that kind in the list (modulo 2^64). *)
Theorem stat_pages_counts (ps : list WT_PAGE) (stats : WT_FILE_STATS)
    (ty : page_type) :
  wrap64 (page_count ty (snd (stat_pages M ps stats))) =
  wrap64 (page_count ty stats +
          Z.of_nat (length (filter (fun p => type p = ty) ps))).
Proof.
  revert stats. induction ps as [|page ps IH]; intros stats.
  - simpl. by rewrite Z.add_0_r.
  - destruct (stat_page_kind page stats) as (s1 & Hs1 & Hcnt1).
    cbn [stat_pages]. rewrite Hs1. cbn [Z.eqb negb].
    rewrite IH, Hcnt1, filter_cons.
    destruct (decide (type page = ty)); simpl; [|done].
    rewrite wrap64_add_l. f_equal. lia.
Qed.

End Stat.

Lemma sum_Z_Permutation {A} (f : A -> Z) l1 l2 :
  l1 ≡ₚ l2 -> sum_Z f l1 = sum_Z f l2.
Proof.
  unfold sum_Z. induction 1; simpl; lia.
Qed.

(** X10. The statistics and the verifier count the same records.  For a
    column-store tree whose walk, entered with a record total of 0,
    returns 0: when [__stat_page] is called once on each page of the tree,
    in any order, from counters that hold 64-bit values, the data items and
    the deletions together have grown by the record total the verifier ends
    with (modulo 2^64). *)
Theorem stat_total_is_verify_total (E : WT_ENGINE) (btree : WT_BTREE)
    (M : WT_ROW_MODS) (ref : WT_REF) (parent_recno : Z) (vs vs' : WT_VSTUFF)
    (ps : list WT_PAGE) (stats : WT_FILE_STATS) :
  record_total vs = 0 ->
  __verify_tree E btree ref parent_recno vs = (0, vs') ->
  ps ≡ₚ tree_pages ref ->
  Forall (fun p => type p <> WT_PAGE_ROW_LEAF) ps ->
  0 <= file_item_col_deleted (file_item stats) < 2 ^ 64 ->
  0 <= file_item_total_data (file_item stats) < 2 ^ 64 ->
  let stats' := snd (stat_pages M ps stats) in
  wrap64 (file_item_total_data (file_item stats') +
          file_item_col_deleted (file_item stats')) =
  wrap64 (file_item_total_data (file_item stats) +
          file_item_col_deleted (file_item stats) + record_total vs').
Proof.
  intros Hrt Hwalk Hperm Hcol Hdel Hdata stats'.
  unfold stats'. rewrite (stat_pages_records M ps stats Hdel Hdata Hcol).
  apply verify_tree_total in Hwalk; [|rewrite Hrt; lia].
  rewrite Hwalk, Hrt, Z.add_0_l, wrap64_add_r, tree_records_pages.
  by rewrite (sum_Z_Permutation _ _ _ Hperm).
Qed.

(** * The statistics cursor *)

Section Cursor.

Variable SE : WT_STAT_ENGINE.

(** Once the end of the array was met, a call returns [WT_NOTFOUND] and
    changes nothing. *)
Lemma stat_nexts_notfound n : forall arr cst,
  notfound cst = true ->
  exists l, stat_nexts SE n arr cst = Some l /\
            length l = n /\
            forall k r c, l !! k = Some (r, c) -> r = WT_NOTFOUND SE.
Proof.
  induction n as [|n IH]; intros arr cst Hnf; simpl.
  - exists []. split; [done|]. split; [done|]. intros k r c Hk.
    by rewrite lookup_nil in Hk.
  - unfold __wt_btree_stat_next. rewrite Hnf.
    destruct (IH arr cst Hnf) as (l & -> & Hlen & Hall).
    eexists. split; [reflexivity|]. split; [simpl; by rewrite Hlen|].
    intros [|k] r c Hk; simpl in Hk; [by injection Hk as <- _|].
    by apply (Hall k r c).
Qed.

(** The calls from an entry of the array on. *)
Lemma stat_nexts_from entries term rest n : forall i cst,
  Forall (fun s => desc s <> None) entries ->
  desc term = None ->
  stats cst = Some i -> notfound cst = false ->
  (i <= length entries)%nat ->
  exists l,
    stat_nexts SE n (entries ++ term :: rest) cst = Some l /\
    length l = n /\
    forall k r c, l !! k = Some (r, c) ->
      match entries !! (i + k)%nat with
      | Some s =>
          r = entry_code SE s /\
          (r = 0 -> desc s = Some (key c) /\ value c = v s /\
                    WT_CURSTD_KEY_SET c = true /\ WT_CURSTD_VALUE_SET c = true)
      | None => r = WT_NOTFOUND SE
      end.
Proof.
  induction n as [|n IH]; intros i cst Hent Hterm Hst Hnf Hi; simpl.
  - exists []. split; [done|]. split; [done|]. intros k r c Hk.
    by rewrite lookup_nil in Hk.
  - destruct cst as [cursor st nf]. simpl in Hst, Hnf. subst st nf.
    unfold __wt_btree_stat_next.
    cbn [stats notfound iface default from_option id Z.eqb negb].
    destruct (decide (i < length entries)%nat) as [Hlt|Hge].
    + (* an entry *)
      destruct (lookup_lt_is_Some_2 entries i Hlt) as [s Hs].
      rewrite (lookup_app_l_Some _ _ _ _ Hs).
      assert (Hd : desc s <> None).
      { rewrite Forall_forall in Hent. apply Hent.
        by apply list_elem_of_lookup_2 in Hs. }
      destruct (desc s) as [d|] eqn:Hdesc; [|done].
      assert (Hcode : entry_code SE s =
                      if negb (buf_set_key SE d =? 0) then buf_set_key SE d
                      else buf_set_value SE (v s))
        by (unfold entry_code; by rewrite Hdesc).
      destruct (Z.eqb_spec (buf_set_key SE d) 0) as [Hk0|Hk0]; cbn [negb] in *.
      * destruct (Z.eqb_spec (buf_set_value SE (v s)) 0) as [Hv0|Hv0];
          cbn [negb].
        -- edestruct (IH (S i)) as (l & -> & Hlen & Hall);
             [done|done| |done|lia|]; [simpl; reflexivity|].
           eexists. split; [reflexivity|]. split; [simpl; by rewrite Hlen|].
           intros [|k] r c Hk; simpl in Hk.
           ++ injection Hk as <- <-. rewrite Nat.add_0_r, Hs.
              split; [by rewrite Hcode|]. intros _. simpl. by rewrite Hdesc.
           ++ replace (i + S k)%nat with (S i + k)%nat by lia.
              by apply Hall.
        -- edestruct (IH (S i)) as (l & -> & Hlen & Hall);
             [done|done| |done|lia|]; [simpl; reflexivity|].
           eexists. split; [reflexivity|]. split; [simpl; by rewrite Hlen|].
           intros [|k] r c Hk; simpl in Hk.
           ++ injection Hk as <- <-. rewrite Nat.add_0_r, Hs.
              split; [by rewrite Hcode|]. intros H0. by rewrite H0 in Hv0.
           ++ replace (i + S k)%nat with (S i + k)%nat by lia.
              by apply Hall.
      * edestruct (IH (S i)) as (l & -> & Hlen & Hall);
          [done|done| |done|lia|]; [simpl; reflexivity|].
        eexists. split; [reflexivity|]. split; [simpl; by rewrite Hlen|].
        intros [|k] r c Hk; simpl in Hk.
        -- injection Hk as <- <-. rewrite Nat.add_0_r, Hs.
           split; [by rewrite Hcode|]. intros H0. by rewrite H0 in Hk0.
        -- replace (i + S k)%nat with (S i + k)%nat by lia.
           by apply Hall.
    + (* the end of the array *)
      assert (i = length entries) as -> by lia.
      rewrite lookup_app_r by lia. rewrite Nat.sub_diag. simpl. rewrite Hterm.
      edestruct (stat_nexts_notfound n (entries ++ term :: rest))
        as (l & -> & Hlen & Hall); [simpl; reflexivity|].
      eexists. split; [reflexivity|]. split; [simpl; by rewrite Hlen|].
      intros k r c Hk.
      rewrite (lookup_ge_None_2 entries) by lia.
      destruct k as [|k]; simpl in Hk; [by injection Hk as <- _|].
      by apply (Hall k r c).
Qed.

(** After [__stat_init] succeeded, the first call goes on as a call on the
    cursor at the head of the array. *)
Lemma stat_first_init arr arr' cst :
  __stat_init SE arr = (0, arr') ->
  __wt_btree_stat_first SE arr cst =
  __wt_btree_stat_next SE arr' (mkCURSOR_STAT (iface cst) (Some O) false).
Proof.
  intros Hinit. unfold __wt_btree_stat_first, __wt_btree_stat_next.
  cbn [stats notfound iface]. rewrite Hinit. done.
Qed.

(** X11. A scan of the statistics delivers the entries of the array in
    order, once each, and then only [WT_NOTFOUND].  When [__stat_init]
    returns 0 and leaves an array whose entries [entries] are followed by
    an entry without description, the call of [__wt_btree_stat_first] and
    the [n] calls of [__wt_btree_stat_next] after it never read past that
    entry; call [k] is for entry [k]: it returns 0 with the description and
    the value of the entry in the cursor and both flags set, or the code of
    the call of [__wt_buf_set] that failed, and the scan goes on with the
    next entry; the calls after the last entry return [WT_NOTFOUND]. *)
Theorem stat_scan_entries (arr : list WT_STATS) (cst : WT_CURSOR_STAT)
    (entries : list WT_STATS) (term : WT_STATS) (rest : list WT_STATS)
    (n : nat) :
  __stat_init SE arr = (0, entries ++ term :: rest) ->
  Forall (fun s => desc s <> None) entries ->
  desc term = None ->
  exists l,
    stat_scan SE n arr cst = Some l /\
    length l = S n /\
    forall k r c, l !! k = Some (r, c) ->
      match entries !! k with
      | Some s =>
          r = entry_code SE s /\
          (r = 0 -> desc s = Some (key c) /\ value c = v s /\
                    WT_CURSTD_KEY_SET c = true /\ WT_CURSTD_VALUE_SET c = true)
      | None => r = WT_NOTFOUND SE
      end.
Proof.
  intros Hinit Hent Hterm.
  pose (cst0 := mkCURSOR_STAT (iface cst) (Some O) false).
  destruct (stat_nexts_from entries term rest (S n) O cst0
              Hent Hterm eq_refl eq_refl ltac:(lia)) as (l & Hl & Hlen & Hall).
  exists l. split; [|done].
  unfold stat_scan. rewrite (stat_first_init arr _ cst Hinit).
  exact Hl.
Qed.

End Cursor.

(** * Dumping is verifying *)

Ltac dump_blind_cases :=
  intros d vs; simpl;
  repeat match goal with
         | |- context [if ?b then _ else _] => destruct b
         end; reflexivity.

Lemma dump_blind_call r : dump_blind (call r).
Proof. by intros d vs. Qed.

Lemma dump_blind_WT_RET a k :
  dump_blind a -> dump_blind k -> dump_blind (WT_RET a k).
Proof.
  intros Ha Hk d vs. unfold WT_RET. rewrite Ha.
  destruct (a vs) as [r vs1]. simpl. destruct (r =? 0); [apply Hk|done].
Qed.

Section Dump.

Variable E : WT_ENGINE.
Variable btree : WT_BTREE.

(** The dump of a page cannot fail: the engine is built without
    HAVE_DIAGNOSTIC, or [__wt_debug_page] returns 0 on every page. *)
Hypothesis debug_ok :
  HAVE_DIAGNOSTIC E = false \/ forall page, __wt_debug_page E page = 0.

Lemma debug_dump_ok page vs : debug_dump E page vs = (0, vs).
Proof.
  unfold debug_dump. destruct debug_ok as [->|Hok]; [done|].
  rewrite Hok. by destruct (_ && _).
Qed.

Lemma dump_blind_debug_dump page : dump_blind (debug_dump E page).
Proof. intros d vs. by rewrite !debug_dump_ok. Qed.

Lemma dump_blind_addfrag addr size :
  dump_blind (__verify_addfrag E btree addr size).
Proof. unfold __verify_addfrag. dump_blind_cases. Qed.

Lemma dump_blind_recno_chk page parent_recno :
  dump_blind (recno_chk E page parent_recno).
Proof.
  unfold recno_chk. intros d vs. destruct (page_u page); simpl;
    try reflexivity; by destruct (negb _).
Qed.

Lemma dump_blind_record_total_update page :
  dump_blind (fun vs => (0, record_total_update page vs)).
Proof.
  intros d vs. unfold record_total_update. by destruct (page_u page).
Qed.

Lemma dump_blind_row_leaf page :
  dump_blind (__verify_row_leaf_key_order E btree page).
Proof.
  unfold __verify_row_leaf_key_order, WT_RET, call. dump_blind_cases.
Qed.

Lemma dump_blind_row_int page rref entry :
  dump_blind (__verify_row_int_key_order E btree page rref entry).
Proof.
  unfold __verify_row_int_key_order, WT_RET, buf_set_max_key.
  dump_blind_cases.
Qed.

Lemma dump_blind_overflow addr size :
  dump_blind (__verify_overflow E btree addr size).
Proof.
  unfold __verify_overflow.
  repeat apply dump_blind_WT_RET; try apply dump_blind_call.
  apply dump_blind_addfrag.
Qed.

Lemma dump_blind_overflow_cell page :
  dump_blind (__verify_overflow_cell E btree page).
Proof.
  unfold __verify_overflow_cell.
  destruct (page_dsk page) as [cells|]; [|apply dump_blind_call].
  induction cells as [|unpack cells IH]; simpl; [apply dump_blind_call|].
  destruct (cell_kind unpack); try done;
    apply dump_blind_WT_RET; try done; apply dump_blind_overflow.
Qed.

Lemma dump_blind_progress_tick d vs :
  progress_tick (set_dumpfile d vs) = set_dumpfile d (progress_tick vs).
Proof. unfold progress_tick. simpl. by destruct (_ =? 0). Qed.

Section Descent.

Variable rec : WT_REF -> Z -> verify_fn.
Variable page : WT_PAGE.

Lemma dump_blind_descend ref parent_recno k :
  dump_blind (rec ref parent_recno) -> dump_blind k ->
  dump_blind (descend E rec page ref parent_recno k).
Proof.
  intros Hrec Hk. unfold descend.
  apply dump_blind_WT_RET; [apply dump_blind_call|].
  intros d vs. rewrite Hrec.
  destruct (rec ref parent_recno vs) as [ret vs1]. simpl.
  destruct (negb _); [done|apply Hk].
Qed.

Lemma dump_blind_col_int_loop t :
  (forall c, c ∈ map cref_ref t -> forall pr, dump_blind (rec c pr)) ->
  dump_blind (col_int_loop E rec page t).
Proof.
  induction t as [|cref t IH]; intros Hc; cbn [col_int_loop].
  - by intros d vs.
  - intros d vs.
    change (record_total (set_dumpfile d vs)) with (record_total vs).
    destruct (negb _); [done|].
    apply dump_blind_descend; [apply Hc; by left|].
    apply IH. intros c Hin. apply Hc. by right.
Qed.

Lemma dump_blind_row_int_loop t : forall entry,
  (forall c, c ∈ map rref_ref t -> forall pr, dump_blind (rec c pr)) ->
  dump_blind (row_int_loop E btree rec page entry t).
Proof.
  induction t as [|rref t IH]; intros entry Hc; cbn [row_int_loop].
  - apply dump_blind_call.
  - apply dump_blind_WT_RET.
    + destruct (negb _); [apply dump_blind_row_int|apply dump_blind_call].
    + apply dump_blind_descend; [apply Hc; by left|].
      apply IH. intros c Hin. apply Hc. by right.
Qed.

End Descent.

Lemma dump_blind_verify_tree ref :
  forall parent_recno, dump_blind (__verify_tree E btree ref parent_recno).
Proof.
  induction ref as [ref IH] using WT_REF_children_ind.
  intros parent_recno d vs. rewrite verify_tree_unfold.
  unfold verify_tree_body. rewrite dump_blind_progress_tick.
  generalize (progress_tick vs). clear vs. revert d.
  repeat apply dump_blind_WT_RET.
  - apply dump_blind_addfrag.
  - apply dump_blind_debug_dump.
  - apply dump_blind_recno_chk.
  - apply dump_blind_record_total_update.
  - destruct (type (ref_page ref));
      apply dump_blind_call || apply dump_blind_row_leaf.
  - destruct (type (ref_page ref));
      apply dump_blind_call || apply dump_blind_overflow_cell.
  - unfold children in IH.
    destruct (page_u (ref_page ref)) as [| recno t | | | t |];
      try apply dump_blind_call.
    + by apply dump_blind_col_int_loop.
    + by apply dump_blind_row_int_loop.
Qed.

Lemma dump_blind_freelist_loop fes : forall ret,
  dump_blind (freelist_loop E btree fes ret).
Proof.
  induction fes as [|fe fes IH]; intros ret d vs; simpl; [done|].
  destruct (_ >? _); [done|].
  rewrite dump_blind_addfrag.
  destruct (__verify_addfrag E btree (fe_addr fe) (fe_size fe) vs)
    as [r1 vs1]. simpl. apply IH.
Qed.

Lemma dump_blind_checkfrag_loop fuel : forall n ffc_start ffc_end ret d vs,
  checkfrag_loop E fuel n ffc_start ffc_end ret (set_dumpfile d vs) =
  match checkfrag_loop E fuel n ffc_start ffc_end ret vs with
  | Some (r, vs') => Some (r, set_dumpfile d vs')
  | None => None
  end.
Proof.
  induction fuel as [|fuel IH]; intros n st en ret d vs; [done|].
  cbn [checkfrag_loop].
  change (fragbits (set_dumpfile d vs)) with (fragbits vs).
  destruct (_ =? -1).
  - unfold checkfrag_report.
    repeat match goal with
           | |- context [if ?b then _ else _] => destruct b
           end; reflexivity.
  - change (set_fragbits ?b (set_dumpfile d vs))
      with (set_dumpfile d (set_fragbits b vs)).
    destruct (st =? -1); [apply IH|].
    destruct (en =? _); [apply IH|].
    unfold checkfrag_report. cbn [Z.eqb].
    repeat match goal with
           | |- context [if ?b then _ else _] => destruct b
           end;
      try change (__wt_errx ?m (set_dumpfile d ?x))
        with (set_dumpfile d (__wt_errx m x));
      apply IH.
Qed.

(** With or without the dump, [__verify_int] does the same: the code is
    the same and the states differ by the field [dumpfile] only. *)
Lemma verify_int_dump d :
  __verify_int E btree d =
  match __verify_int E btree 0 with
  | Some (r, vs) => Some (r, set_dumpfile d vs)
  | None => None
  end.
Proof.
  unfold __verify_int.
  assert (Hchk : verify_int_checks E btree d =
                 match verify_int_checks E btree 0 with
                 | Some (r, vs) => Some (r, set_dumpfile d vs)
                 | None => None
                 end).
  { unfold verify_int_checks.
    destruct (negb (__wt_scr_alloc E 0 =? 0)); [done|].
    destruct (_ <=? _); [done|].
    destruct (negb _); [done|].
    set (n := wrap32 (WT_OFF_TO_ADDR btree (file_size btree))).
    cbn [frags set_frags].
    destruct (n >? INT_MAX); [done|].
    destruct (negb _); [done|].
    change (set_fragbits (bit_alloc n)
              (set_frags n (set_max_addr WT_ADDR_INVALID (vstuff_clear d))))
      with (set_dumpfile d (verify_start btree 0)).
    change (set_fragbits (bit_alloc n)
              (set_frags n (set_max_addr WT_ADDR_INVALID (vstuff_clear 0))))
      with (verify_start btree 0).
    rewrite dump_blind_verify_tree.
    destruct (__verify_tree E btree (root_page btree) 1 (verify_start btree 0))
      as [r2 vs2]. simpl.
    destruct (negb (r2 =? 0)); [done|].
    unfold __verify_freelist. rewrite dump_blind_freelist_loop.
    destruct (freelist_loop E btree (freeqa btree) 0 vs2) as [r3 vs3]. simpl.
    destruct (negb (r3 =? 0)); [done|].
    unfold __verify_checkfrag.
    change (frags (set_dumpfile d vs3)) with (frags vs3).
    change (fragbits (set_dumpfile d vs3)) with (fragbits vs3).
    apply dump_blind_checkfrag_loop. }
  rewrite Hchk.
  destruct (verify_int_checks E btree 0) as [[ret vs]|]; done.
Qed.

End Dump.

(** X12. [__wt_dumpfile] verifies as [__wt_verify] does.  In an engine
    built with HAVE_DIAGNOSTIC whose [__wt_debug_page] returns 0 on every
    page, the dump returns whenever the verification does, with the same
    code, and leaves the same frag-map, counts, messages and progress
    reports: the two states differ by the field [dumpfile] only. *)
Theorem wt_dumpfile_verifies (E : WT_ENGINE) (btree : WT_BTREE)
    (EOPNOTSUPP : Z) :
  HAVE_DIAGNOSTIC E = true ->
  (forall page, __wt_debug_page E page = 0) ->
  __wt_dumpfile E btree EOPNOTSUPP =
  inl match __wt_verify E btree with
      | Some (r, vs) => Some (r, set_dumpfile 1 vs)
      | None => None
      end.
Proof.
  intros Hdiag Hok. unfold __wt_dumpfile, __wt_verify. rewrite Hdiag.
  f_equal. apply verify_int_dump. by right.
Qed.

(** * Whole runs, statistics and the cursor at sample inputs *)

Lemma verify_int_silent_witness :
  __verify_int sample_engine sample_full_btree 0 = Some (0, sample_full_vs) /\
  errx sample_full_vs = [].
Proof.
  assert (H : __verify_int sample_engine sample_full_btree 0
              = Some (0, sample_full_vs)) by (by vm_compute).
  split; [exact H|].
  exact (verify_int_silent sample_engine sample_full_btree 0 sample_full_vs H).
Defined.

Lemma verify_int_partition_witness :
  0 < allocsize sample_full_btree /\
  (file_size sample_full_btree - WT_BTREE_DESC_SECTOR)
    / allocsize sample_full_btree < 2 ^ 32 /\
  Forall (extent_in_map (allocsize sample_full_btree) 5)
         (tree_extents (root_page sample_full_btree)) /\
  Forall (fun fe => 0 <= fe_addr fe /\ 0 <= fe_size fe)
         (freeqa sample_full_btree) /\
  __verify_int sample_engine sample_full_btree 0 = Some (0, sample_full_vs) /\
  forall i, 0 <= i < 5 ->
    exists j ext,
      [(0, 512); (1, 512); (2, 512); (3, 512); (4, 512)] !! j = Some ext /\
      extent_covers 512 ext i /\
      forall j' ext',
        [(0, 512); (1, 512); (2, 512); (3, 512); (4, 512)] !! j' = Some ext' ->
        extent_covers 512 ext' i -> j' = j.
Proof.
  assert (H1 : 0 < allocsize sample_full_btree) by (by vm_compute).
  assert (H2 : (file_size sample_full_btree - WT_BTREE_DESC_SECTOR)
                 / allocsize sample_full_btree < 2 ^ 32) by (by vm_compute).
  assert (H3 : Forall (extent_in_map (allocsize sample_full_btree) 5)
                      (tree_extents (root_page sample_full_btree)))
    by (repeat constructor; by vm_compute).
  assert (H4 : Forall (fun fe => 0 <= fe_addr fe /\ 0 <= fe_size fe)
                      (freeqa sample_full_btree))
    by (repeat constructor; by vm_compute).
  assert (H5 : __verify_int sample_engine sample_full_btree 0
               = Some (0, sample_full_vs)) by (by vm_compute).
  repeat (split; [assumption|]).
  exact (verify_int_partition sample_engine sample_full_btree 0 sample_full_vs
           H1 H2 H3 H4 H5).
Defined.

Lemma verify_int_sizes_add_up_witness :
  0 < allocsize sample_full_btree /\
  (file_size sample_full_btree - WT_BTREE_DESC_SECTOR)
    / allocsize sample_full_btree < 2 ^ 32 /\
  Forall (extent_in_map (allocsize sample_full_btree) 5)
         (tree_extents (root_page sample_full_btree)) /\
  Forall (fun fe => 0 <= fe_addr fe /\ 0 <= fe_size fe)
         (freeqa sample_full_btree) /\
  __verify_int sample_engine sample_full_btree 0 = Some (0, sample_full_vs) /\
  sum_Z (fun ext => snd ext / 512)
        [(0, 512); (1, 512); (2, 512); (3, 512); (4, 512)] = 5.
Proof.
  assert (H1 : 0 < allocsize sample_full_btree) by (by vm_compute).
  assert (H2 : (file_size sample_full_btree - WT_BTREE_DESC_SECTOR)
                 / allocsize sample_full_btree < 2 ^ 32) by (by vm_compute).
  assert (H3 : Forall (extent_in_map (allocsize sample_full_btree) 5)
                      (tree_extents (root_page sample_full_btree)))
    by (repeat constructor; by vm_compute).
  assert (H4 : Forall (fun fe => 0 <= fe_addr fe /\ 0 <= fe_size fe)
                      (freeqa sample_full_btree))
    by (repeat constructor; by vm_compute).
  assert (H5 : __verify_int sample_engine sample_full_btree 0
               = Some (0, sample_full_vs)) by (by vm_compute).
  repeat (split; [assumption|]).
  exact (verify_int_sizes_add_up sample_engine sample_full_btree 0
           sample_full_vs H1 H2 H3 H4 H5).
Defined.

Lemma verify_checkfrag_consumes_witness :
  let vs := sample_vs [true; false; false; true; false] in
  let vs' := __wt_errx (Msg_never_verified 4)
               (__wt_errx (Msg_never_verified_range 1 2)
                  (sample_vs [true; true; true; true; true])) in
  frags vs = Z.of_nat (length (fragbits vs)) /\
  frags vs <= INT_MAX /\
  __verify_checkfrag sample_engine vs = Some (WT_ERROR sample_engine, vs') /\
  (forall i, 0 <= i < 5 -> bit_test (fragbits vs') i = true) /\
  __verify_checkfrag sample_engine vs' = Some (0, vs').
Proof.
  intros vs vs'.
  assert (H1 : frags vs = Z.of_nat (length (fragbits vs))) by reflexivity.
  assert (H2 : frags vs <= INT_MAX) by (by vm_compute).
  assert (H3 : __verify_checkfrag sample_engine vs
               = Some (WT_ERROR sample_engine, vs')) by (by vm_compute).
  repeat (split; [assumption|]).
  exact (verify_checkfrag_consumes sample_engine vs _ vs' H1 H2 H3).
Defined.

Lemma verify_int_page_count_witness :
  __verify_int sample_engine sample_full_btree 0 = Some (0, sample_full_vs) /\
  let k := length (tree_pages (root_page sample_full_btree)) in
  fcnt sample_full_vs = wrap64 (Z.of_nat k) /\
  progress sample_full_vs = progress_ticks 0 k ++ [wrap64 (Z.of_nat k)].
Proof.
  assert (H : __verify_int sample_engine sample_full_btree 0
              = Some (0, sample_full_vs)) by (by vm_compute).
  split; [exact H|].
  exact (verify_int_page_count sample_engine sample_full_btree 0
           sample_full_vs H).
Defined.

Lemma verify_tree_recno_sound_witness :
  let ref := root_page sample_full_btree in
  let vs := verify_start sample_full_btree 0 in
  let vs' := snd (__verify_tree sample_engine sample_full_btree ref 1 vs) in
  0 <= record_total vs < 2 ^ 64 /\
  Forall (fun p => type p <> WT_PAGE_ROW_INT) (tree_pages ref) /\
  1 = wrap64 (record_total vs + 1) /\
  __verify_tree sample_engine sample_full_btree ref 1 vs = (0, vs') /\
  forall j page recno,
    tree_pages ref !! j = Some page -> page_recno page = Some recno ->
    recno = wrap64 (record_total vs + 1 +
                    sum_Z page_records (take j (tree_pages ref))).
Proof.
  intros ref vs vs'.
  assert (H1 : 0 <= record_total vs < 2 ^ 64) by (by vm_compute).
  assert (H2 : Forall (fun p => type p <> WT_PAGE_ROW_INT) (tree_pages ref))
    by (repeat constructor; by vm_compute).
  assert (H3 : 1 = wrap64 (record_total vs + 1)) by (by vm_compute).
  assert (H4 : __verify_tree sample_engine sample_full_btree ref 1 vs
               = (0, vs')) by (by vm_compute).
  repeat (split; [assumption|]).
  exact (verify_tree_recno_sound sample_engine sample_full_btree ref 1 vs vs'
           H1 H2 H3 H4).
Defined.

Lemma stat_total_is_verify_total_witness :
  let ref := root_page sample_full_btree in
  let vs := verify_start sample_full_btree 0 in
  let vs' := snd (__verify_tree sample_engine sample_full_btree ref 1 vs) in
  let stats' := snd (stat_pages sample_row_mods (tree_pages ref) stats_zero) in
  record_total vs = 0 /\
  __verify_tree sample_engine sample_full_btree ref 1 vs = (0, vs') /\
  tree_pages ref ≡ₚ tree_pages ref /\
  Forall (fun p => type p <> WT_PAGE_ROW_LEAF) (tree_pages ref) /\
  0 <= file_item_col_deleted (file_item stats_zero) < 2 ^ 64 /\
  0 <= file_item_total_data (file_item stats_zero) < 2 ^ 64 /\
  wrap64 (file_item_total_data (file_item stats') +
          file_item_col_deleted (file_item stats')) =
  wrap64 (file_item_total_data (file_item stats_zero) +
          file_item_col_deleted (file_item stats_zero) + record_total vs').
Proof.
  intros ref vs vs' stats'.
  assert (H1 : record_total vs = 0) by reflexivity.
  assert (H2 : __verify_tree sample_engine sample_full_btree ref 1 vs
               = (0, vs')) by (by vm_compute).
  assert (H3 : tree_pages ref ≡ₚ tree_pages ref) by reflexivity.
  assert (H4 : Forall (fun p => type p <> WT_PAGE_ROW_LEAF) (tree_pages ref))
    by (repeat constructor; by vm_compute).
  assert (H5 : 0 <= file_item_col_deleted (file_item stats_zero) < 2 ^ 64)
    by (by vm_compute).
  assert (H6 : 0 <= file_item_total_data (file_item stats_zero) < 2 ^ 64)
    by (by vm_compute).
  repeat (split; [assumption|]).
  exact (stat_total_is_verify_total sample_engine sample_full_btree
           sample_row_mods ref 1 vs vs' (tree_pages ref) stats_zero
           H1 H2 H3 H4 H5 H6).
Defined.

Lemma stat_scan_entries_witness :
  let entries := [mkWT_STATS (Some "pages"%string) 7;
                  mkWT_STATS (Some "items"%string) 42] in
  let term := mkWT_STATS None 0 in
  __stat_init sample_stat_engine [] = (0, entries ++ term :: []) /\
  Forall (fun s => desc s <> None) entries /\
  desc term = None /\
  exists l,
    stat_scan sample_stat_engine 3 [] sample_cursor = Some l /\
    length l = 4%nat /\
    forall k r c, l !! k = Some (r, c) ->
      match entries !! k with
      | Some s =>
          r = entry_code sample_stat_engine s /\
          (r = 0 -> desc s = Some (key c) /\ value c = v s /\
                    WT_CURSTD_KEY_SET c = true /\ WT_CURSTD_VALUE_SET c = true)
      | None => r = WT_NOTFOUND sample_stat_engine
      end.
Proof.
  intros entries term.
  assert (H1 : __stat_init sample_stat_engine [] = (0, entries ++ term :: []))
    by reflexivity.
  assert (H2 : Forall (fun s => desc s <> None) entries)
    by (repeat constructor; by vm_compute).
  assert (H3 : desc term = None) by reflexivity.
  repeat (split; [assumption|]).
  exact (stat_scan_entries sample_stat_engine [] sample_cursor entries term []
           3 H1 H2 H3).
Defined.

Lemma wt_dumpfile_verifies_witness :
  HAVE_DIAGNOSTIC sample_diag_engine = true /\
  (forall page, __wt_debug_page sample_diag_engine page = 0) /\
  __wt_dumpfile sample_diag_engine sample_full_btree 95 =
  inl match __wt_verify sample_diag_engine sample_full_btree with
      | Some (r, vs) => Some (r, set_dumpfile 1 vs)
      | None => None
      end.
Proof.
  assert (H1 : HAVE_DIAGNOSTIC sample_diag_engine = true) by reflexivity.
  assert (H2 : forall page, __wt_debug_page sample_diag_engine page = 0)
    by (intros page; reflexivity).
  repeat (split; [assumption|]).
  exact (wt_dumpfile_verifies sample_diag_engine sample_full_btree 95 H1 H2).
Defined.

Lemma verify_int_preconditions_witness :
  0 < allocsize sample_large_btree /\
  (file_size sample_large_btree <= WT_BTREE_DESC_SECTOR \/
   (file_size sample_large_btree - WT_BTREE_DESC_SECTOR)
     mod allocsize sample_large_btree <> 0 \/
   INT_MAX < wrap32 ((file_size sample_large_btree - WT_BTREE_DESC_SECTOR)
                     / allocsize sample_large_btree)) /\
  exists ret vs,
    __verify_int sample_engine sample_large_btree 0 = Some (ret, vs) /\
    ret <> 0 /\ fcnt vs = 0 /\ fragbits vs = [].
Proof.
  assert (H1 : 0 < allocsize sample_large_btree) by (by vm_compute).
  assert (H2 : file_size sample_large_btree <= WT_BTREE_DESC_SECTOR \/
               (file_size sample_large_btree - WT_BTREE_DESC_SECTOR)
                 mod allocsize sample_large_btree <> 0 \/
               INT_MAX < wrap32 ((file_size sample_large_btree
                                  - WT_BTREE_DESC_SECTOR)
                                 / allocsize sample_large_btree))
    by (right; right; by vm_compute).
  repeat (split; [assumption|]).
  exact (verify_int_preconditions sample_engine sample_large_btree 0 H1 H2).
Defined.

Lemma verify_tree_fences_sound_witness :
  let ref := root_page sample_row_btree in
  let vs := verify_start sample_row_btree 0 in
  let vs' := snd (__verify_tree sample_engine sample_row_btree ref 1 vs) in
  Forall leaf_sized (tree_pages ref) /\
  __verify_tree sample_engine sample_row_btree ref 1 vs = (0, vs') /\
  monitor_ok (btree_compare sample_row_btree) (max_key vs)
             [Leaf "kiwi"%string; Fence "mango"%string; Leaf "peach"%string] /\
  max_key vs' =
  monitor_end (max_key vs)
              [Leaf "kiwi"%string; Fence "mango"%string; Leaf "peach"%string].
Proof.
  intros ref vs vs'.
  assert (H1 : Forall leaf_sized (tree_pages ref))
    by (repeat constructor; by vm_compute).
  assert (H2 : __verify_tree sample_engine sample_row_btree ref 1 vs
               = (0, vs')) by (by vm_compute).
  repeat (split; [assumption|]).
  exact (verify_tree_fences_sound sample_engine sample_row_btree ref 1 vs vs'
           H1 H2).
Defined.

Lemma verify_freelist_ok_iff_witness :
  let vs := sample_vs [true; true; true; true; false] in
  0 < allocsize sample_full_btree /\
  file_size sample_full_btree - WT_BTREE_DESC_SECTOR
    = 5 * allocsize sample_full_btree /\
  Z.of_nat (length (fragbits vs)) = 5 /\
  5 <= INT_MAX /\
  Forall (fun fe => 0 <= fe_addr fe /\ 0 <= fe_size fe)
         (freeqa sample_full_btree) /\
  (fst (__verify_freelist sample_engine sample_full_btree vs) = 0 <->
   Forall (free_entry_in_body sample_full_btree) (freeqa sample_full_btree) /\
   (forall ext i, ext ∈ free_extents sample_full_btree ->
                  extent_covers (allocsize sample_full_btree) ext i ->
                  bit_test (fragbits vs) i = false) /\
   (forall j1 j2 e1 e2 i,
      free_extents sample_full_btree !! j1 = Some e1 ->
      free_extents sample_full_btree !! j2 = Some e2 ->
      extent_covers (allocsize sample_full_btree) e1 i ->
      extent_covers (allocsize sample_full_btree) e2 i -> j1 = j2)).
Proof.
  intros vs.
  assert (H1 : 0 < allocsize sample_full_btree) by (by vm_compute).
  assert (H2 : file_size sample_full_btree - WT_BTREE_DESC_SECTOR
               = 5 * allocsize sample_full_btree) by (by vm_compute).
  assert (H3 : Z.of_nat (length (fragbits vs)) = 5) by (by vm_compute).
  assert (H4 : 5 <= INT_MAX) by (by vm_compute).
  assert (H5 : Forall (fun fe => 0 <= fe_addr fe /\ 0 <= fe_size fe)
                      (freeqa sample_full_btree))
    by (repeat constructor; by vm_compute).
  repeat (split; [assumption|]).
  exact (verify_freelist_ok_iff sample_engine sample_full_btree vs 5
           H1 H2 H3 H4 H5).
Defined.

Lemma verify_int_returns_witness :
  0 < allocsize sample_full_btree /\
  HAVE_DIAGNOSTIC sample_engine = false /\
  Forall (extent_in_map (allocsize sample_full_btree)
            (wrap32 (WT_OFF_TO_ADDR sample_full_btree
                       (file_size sample_full_btree))))
         (tree_extents (root_page sample_full_btree)
          ++ free_extents sample_full_btree) /\
  Forall leaf_sized (tree_pages (root_page sample_full_btree)) /\
  exists ret vs, __verify_int sample_engine sample_full_btree 0 = Some (ret, vs).
Proof.
  assert (H1 : 0 < allocsize sample_full_btree) by (by vm_compute).
  assert (H2 : HAVE_DIAGNOSTIC sample_engine = false) by reflexivity.
  assert (H3 : Forall (extent_in_map (allocsize sample_full_btree)
                         (wrap32 (WT_OFF_TO_ADDR sample_full_btree
                                    (file_size sample_full_btree))))
                      (tree_extents (root_page sample_full_btree)
                       ++ free_extents sample_full_btree))
    by (repeat constructor; by vm_compute).
  assert (H4 : Forall leaf_sized (tree_pages (root_page sample_full_btree)))
    by (repeat constructor; by vm_compute).
  repeat (split; [assumption|]).
  exact (verify_int_returns sample_engine sample_full_btree 0 H1 H2 H3 H4).
Defined.
